(** * OATutor-Tooling: text validation and sheet processing

    A shallow embedding of
    - [content_script/validate_fixes.py] (the regular-expression detectors
      [validate_chemistry_brackets], [validate_commas],
      [validate_latex_notation] and the [re.findall] checks), and
    - [content_script/process_public_sheet.py] (the example scan and the
      per-row processing loop of [process_public_sheet]), and
    - [scripts/validate-sheet.py] ([extract_sheet_key],
      [validate_sheet_format] and [main]),
    together with a model of the text normaliser that these scripts call.

    Python strings are modelled as lists of characters over the ASCII
    alphabet ([list ascii]); the classes [\d], [\w], [\s] and [str.isdigit]
    are Python's on the characters of code below 128.  A property of
    arbitrary texts that depends on these classes is stated for texts over
    that alphabet. *)

From Stdlib Require Import Ascii String List Bool Arith Lia.
From stdpp Require Import base option list strings gmap pretty.

Import ListNotations.
Local Open Scope string_scope.
Local Open Scope list_scope.

(** ** Characters *)

Module Char.

Definition code (c : ascii) : nat := nat_of_ascii c.

Definition between (lo hi : nat) (c : ascii) : bool :=
  (lo <=? code c)%nat && (code c <=? hi)%nat.

Definition eq (x c : ascii) : bool := Ascii.eqb x c.

(** [[0-9]], also [\d] and [str.isdigit] on ASCII text. *)
Definition digit : ascii -> bool := between 48 57.
(** [[A-Z]] *)
Definition upper : ascii -> bool := between 65 90.
(** [[a-z]] *)
Definition lower : ascii -> bool := between 97 122.
Definition letter (c : ascii) : bool := upper c || lower c.
Definition alnum (c : ascii) : bool := letter c || digit c.
(** [\w] on ASCII text: letters, digits and the underscore. *)
Definition word (c : ascii) : bool := alnum c || eq "_" c.
(** [\s] on ASCII text: space, [\t \n \v \f \r] and the separators
    28..31. *)
Definition space (c : ascii) : bool :=
  eq " " c || between 9 13 c || between 28 31 c.

End Char.

(** ** Regular expressions as Python's [re] module runs them

    The matcher is the backtracking one: alternatives are tried in order,
    repetition is greedy, and the first way to succeed is the match that
    [re.search] reports.  The character before the current position is
    threaded through for the word-boundary assertion [\b]. *)

Module Re.

Inductive regex : Type :=
| Eps : regex
| Cls : (ascii -> bool) -> regex
| Seq : regex -> regex -> regex
| Alt : regex -> regex -> regex
| Star : regex -> regex
| WordB : regex.

Definition Chr (c : ascii) : regex := Cls (Char.eq c).
(** [r+] *)
Definition Plus (r : regex) : regex := Seq r (Star r).
(** [r?], greedy *)
Definition Opt (r : regex) : regex := Alt r Eps.
(** [r{n}] *)
Fixpoint Times (n : nat) (r : regex) : regex :=
  match n with
  | O => Eps
  | S n' => Seq r (Times n' r)
  end.
(** at most [n] copies of [r], greedy *)
Fixpoint UpTo (n : nat) (r : regex) : regex :=
  match n with
  | O => Eps
  | S n' => Opt (Seq r (UpTo n' r))
  end.
(** [r{lo,hi}] *)
Definition Range (lo hi : nat) (r : regex) : regex :=
  Seq (Times lo r) (UpTo (hi - lo) r).

Definition is_word (o : option ascii) : bool :=
  match o with
  | Some c => Char.word c
  | None => false
  end.

(** [\b] holds between [prev] and the head of [s] when exactly one of
    them is a word character (the ends of the text count as non-word). *)
Definition at_boundary (prev : option ascii) (s : list ascii) : bool :=
  xorb (is_word prev) (is_word (head s)).

Section Matcher.
Context {R : Type}.

Definition cont : Type := option ascii -> list ascii -> option R.

(** The greedy loop of a repetition: try one more copy of the body,
    and fall back to the continuation when that fails.  An iteration
    that consumed nothing is given up, as [re] does; every other
    iteration consumes a character, so the length of the text is fuel
    enough. *)
Fixpoint star_loop (body : option ascii -> list ascii -> cont -> option R)
         (k : cont) (fuel : nat) (prev : option ascii) (s : list ascii)
  : option R :=
  match fuel with
  | O => k prev s
  | S fuel' =>
      match body prev s
              (fun prev' s' =>
                 if (length s' <? length s)%nat
                 then star_loop body k fuel' prev' s' else None) with
      | Some x => Some x
      | None => k prev s
      end
  end.

(** [run r prev s k] matches [r] at the front of [s] and hands the rest
    of the text to the continuation [k]; [None] asks the caller to
    backtrack. *)
Fixpoint run (r : regex) (prev : option ascii) (s : list ascii)
         (k : cont) : option R :=
  match r with
  | Eps => k prev s
  | Cls p =>
      match s with
      | c :: s' => if p c then k (Some c) s' else None
      | [] => None
      end
  | Seq a b => run a prev s (fun prev' s' => run b prev' s' k)
  | Alt a b =>
      match run a prev s k with
      | Some x => Some x
      | None => run b prev s k
      end
  | Star a => star_loop (run a) k (length s) prev s
  | WordB => if at_boundary prev s then k prev s else None
  end.
End Matcher.

(** [match_at r prev s]: number of characters of the match of [r] that
    starts at the front of [s], if there is one. *)
Definition match_at (r : regex) (prev : option ascii) (s : list ascii)
  : option nat :=
  run r prev s (fun _ rest => Some (length s - length rest)).

(** [re.search]: the leftmost position where the pattern matches, as the
    pair (start, end) of the match object, or [None]. *)
Fixpoint search_from (r : regex) (pos : nat) (prev : option ascii)
         (s : list ascii) : option (nat * nat) :=
  match match_at r prev s with
  | Some n => Some (pos, pos + n)
  | None =>
      match s with
      | [] => None
      | c :: s' => search_from r (S pos) (Some c) s'
      end
  end.

Definition search (r : regex) (s : list ascii) : option (nat * nat) :=
  search_from r 0 None s.

(** [re.findall] for a pattern without groups: the matched substrings,
    left to right, each search resuming where the previous match ended
    (one character further after an empty match; the patterns of the
    scripts never match the empty string).  [skip] counts the characters
    of the last match still to be passed. *)
Fixpoint findall_from (r : regex) (skip : nat) (prev : option ascii)
         (s : list ascii) : list (list ascii) :=
  match skip with
  | S skip' =>
      match s with
      | [] => []
      | c :: s' => findall_from r skip' (Some c) s'
      end
  | O =>
      match match_at r prev s with
      | Some n =>
          take n s ::
            match s with
            | [] => []
            | c :: s' => findall_from r (n - 1) (Some c) s'
            end
      | None =>
          match s with
          | [] => []
          | c :: s' => findall_from r 0 (Some c) s'
          end
      end
  end.

Definition findall (r : regex) (s : list ascii) : list (list ascii) :=
  findall_from r 0 None s.

End Re.

Definition chars (s : string) : list ascii := list_ascii_of_string s.

(** ** validate_fixes.py *)

Module ValidateFixes.
Import Re.

(** [\[[A-Z][a-z0-9]*\]|\[[A-Z][a-z]*[0-9]+\]] *)
Definition chemistry_re : regex :=
  Alt (Seq (Chr "[")
         (Seq (Cls Char.upper)
            (Seq (Star (Cls (fun c => Char.lower c || Char.digit c)))
               (Chr "]"))))
      (Seq (Chr "[")
         (Seq (Cls Char.upper)
            (Seq (Star (Cls Char.lower))
               (Seq (Plus (Cls Char.digit)) (Chr "]"))))).

(** [\b\d{1,3}(?:,\d{3})+\b] *)
Definition thousand_re : regex :=
  Seq WordB
    (Seq (Range 1 3 (Cls Char.digit))
       (Seq (Plus (Seq (Chr ",") (Times 3 (Cls Char.digit)))) WordB)).

(** the class [[-\d\s\w/]] *)
Definition coord_char (c : ascii) : bool :=
  Char.eq "-" c || Char.digit c || Char.space c || Char.word c
  || Char.eq "/" c.

(** [[\[\(][-\d\s\w/]+,[-\d\s\w/]+[\)\]]] *)
Definition coordinates_re : regex :=
  Seq (Cls (fun c => Char.eq "[" c || Char.eq "(" c))
    (Seq (Plus (Cls coord_char))
       (Seq (Chr ",")
          (Seq (Plus (Cls coord_char))
             (Cls (fun c => Char.eq ")" c || Char.eq "]" c))))).

Definition not_close_brace (c : ascii) : bool := negb (Char.eq "}" c).

(** [\^{[^}]+}] *)
Definition super_re : regex :=
  Seq (Chr "^") (Seq (Chr "{") (Seq (Plus (Cls not_close_brace)) (Chr "}"))).

(** [_{[^}]+}] *)
Definition sub_re : regex :=
  Seq (Chr "_") (Seq (Chr "{") (Seq (Plus (Cls not_close_brace)) (Chr "}"))).

Definition validate_chemistry_brackets (text : string)
  : option (nat * nat) :=
  search chemistry_re (chars text).

Definition validate_commas (text : string)
  : option (nat * nat) * option (nat * nat) :=
  let has_thousand_sep := search thousand_re (chars text) in
  let has_coordinates := search coordinates_re (chars text) in
  (has_thousand_sep, has_coordinates).

Definition validate_latex_notation (text : string)
  : option (nat * nat) * option (nat * nat) :=
  let has_super := search super_re (chars text) in
  let has_sub := search sub_re (chars text) in
  (has_super, has_sub).

(** the [thousand_before] / [thousand_after] lists of the comma check *)
Definition thousand_matches (text : string) : list string :=
  map string_of_list_ascii (findall thousand_re (chars text)).

End ValidateFixes.

(** ** Text helpers used by the scripts *)

(** [needle in hay] for Python strings *)
Fixpoint starts_with (needle hay : list ascii) : bool :=
  match needle, hay with
  | [], _ => true
  | _ :: _, [] => false
  | a :: needle', b :: hay' => Ascii.eqb a b && starts_with needle' hay'
  end.

Fixpoint occurs_in (needle hay : list ascii) : bool :=
  starts_with needle hay ||
  match hay with
  | [] => false
  | _ :: hay' => occurs_in needle hay'
  end.

Definition contains (needle hay : string) : bool :=
  occurs_in (chars needle) (chars hay).

(** [text[:n]] *)
Definition str_take (n : nat) (text : string) : string :=
  string_of_list_ascii (take n (chars text)).

(** ** The normaliser's interface

    [preprocess_text_to_latex(text, tutoring, stepMC, render_latex,
    verbosity)] returns the pair (processed text, has_latex). *)

Record TransformConfig : Type := mkConfig {
  tutoring : bool;
  stepMC : bool;
  renderLatex : bool;
  verbosity : bool
}.

Record TransformResult : Type := mkResult {
  text : string;
  hasLatex : bool
}.

Definition normaliser : Type := string -> TransformConfig -> TransformResult.

(** ** process_public_sheet.py *)

Module Sheet.
Import ValidateFixes.

(** A cell of the frame read by [pd.read_csv].  The scripts observe a
    cell only through [pd.notna] and [str], so a present value is kept as
    its [str] rendering. *)
Inductive cell : Type :=
| NaN : cell
| Val : string -> cell.

Definition notna (v : cell) : bool :=
  match v with
  | NaN => false
  | Val _ => true
  end.

Definition str (v : cell) : string :=
  match v with
  | NaN => "nan"
  | Val s => s
  end.

(** A row is the Series that [df.iterrows()] yields: column label to
    cell. *)
Record DataFrame : Type := mkFrame {
  columns : list string;
  rows : list (gmap string cell)
}.

(** [row.get(label, '')] then [str] *)
Definition get_str (row : gmap string cell) (label : string) : string :=
  match row !! label with
  | Some v => str v
  | None => ""
  end.

Definition required_cols : list string :=
  ["Problem Name"; "Row Type"; "Title"; "Body Text"; "Answer"; "answerType"].

Definition missing_cols (df : DataFrame) : list string :=
  filter (fun col => col ∉ columns df) required_cols.

(** *** The example scan (lines 71-92) *)

Record examples : Type := mkExamples {
  chemistry_examples : list string;
  comma_examples : list string;
  latex_examples : list string
}.

Definition append_new (text : string) (l : list string) : list string :=
  if bool_decide (text ∈ l) then l else l ++ [str_take 100 text].

Definition scan_text (ex : examples) (text : string) : examples :=
  let ex1 :=
    if contains "[" text && contains "]" text then
      match Re.search chemistry_re (chars text) with
      | Some _ =>
          mkExamples (append_new text (chemistry_examples ex))
                     (comma_examples ex) (latex_examples ex)
      | None => ex
      end
    else ex in
  let ex2 :=
    if contains "," text && existsb Char.digit (chars text) then
      mkExamples (chemistry_examples ex1)
                 (append_new text (comma_examples ex1)) (latex_examples ex1)
    else ex1 in
  if contains "^{" text || contains "_{" text then
    mkExamples (chemistry_examples ex2) (comma_examples ex2)
               (append_new text (latex_examples ex2))
  else ex2.

Definition scan_row (ex : examples) (row : gmap string cell) : examples :=
  let text_fields :=
    [get_str row "Body Text"; get_str row "Answer"; get_str row "Title"] in
  foldl scan_text ex text_fields.

Definition find_examples (df : DataFrame) : examples :=
  foldl scan_row (mkExamples [] [] []) (rows df).

(** *** The processing loop (lines 105-113)

    The loop runs in a state made of the frame it iterates over, the
    counter, and the log of the texts handed to the normaliser.  [None]
    stands for the [KeyError] of [row[field]] on a row that lacks the
    label. *)

Definition text_fields : list string := ["Body Text"; "Answer"; "Title"].

(** the keyword arguments of the call on line 111: [tutoring=False,
    stepMC=False, render_latex="TRUE", verbosity=False] *)
Definition call_config : TransformConfig :=
  {| tutoring := false; stepMC := false; renderLatex := true;
     verbosity := false |}.

Record loop_state : Type := mkState {
  frame : DataFrame;
  processed_count : nat;
  calls : list string
}.

Section Loop.
Variable preprocess_text_to_latex : normaliser.

Definition process_field (row : gmap string cell) (st : loop_state)
           (field : string) : option loop_state :=
  if bool_decide (field ∈ columns (frame st)) then
    v ← row !! field;
    if notna v then
      let original := str v in
      let res := preprocess_text_to_latex original call_config in
      let processed := text res in
      Some (mkState (frame st)
              (if bool_decide (processed = original)
               then processed_count st
               else S (processed_count st))
              (calls st ++ [original]))
    else Some st
  else Some st.

Fixpoint process_fields (row : gmap string cell) (st : loop_state)
         (fields : list string) : option loop_state :=
  match fields with
  | [] => Some st
  | field :: fields' =>
      st' ← process_field row st field;
      process_fields row st' fields'
  end.

Fixpoint process_rows (st : loop_state) (rs : list (gmap string cell))
  : option loop_state :=
  match rs with
  | [] => Some st
  | row :: rs' =>
      st' ← process_fields row st text_fields;
      process_rows st' rs'
  end.

(** What a call of [process_public_sheet] leaves behind: the value it
    returns ([None] for the bare [return] on missing columns), the
    examples it reports and the counter it prints. *)
Record report : Type := mkReport {
  returned : option DataFrame;
  found : examples;
  processed : nat;
  normalised : list string
}.

(** [process_public_sheet] from the point where [get_public_sheet] has
    delivered the frame [df]. *)
Definition process_public_sheet (df : DataFrame) : option report :=
  match missing_cols df with
  | _ :: _ => Some (mkReport None (mkExamples [] [] []) 0 [])
  | [] =>
      let ex := find_examples df in
      st ← process_rows (mkState df 0 []) (rows df);
      Some (mkReport (Some (frame st)) ex (processed_count st) (calls st))
  end.
End Loop.

End Sheet.

(** ** The text normaliser *)

Module Normalizer.

(** The category of a protected span (data model, ProtectedSpan). *)
Inductive category : Type :=
| existing_latex_script
| chemistry_formula
| coordinate_tuple.

(** *** Span shapes *)

Definition is_close_brace (c : ascii) : bool := Char.eq "}" c.

(** length of the text up to and including the first closing brace *)
Fixpoint until_close (s : list ascii) : option nat :=
  match s with
  | [] => None
  | c :: r => if is_close_brace c then Some 1 else S <$> until_close r
  end.

(** Modelled from the spec: the span shape "existing LaTeX script" of
    section 4.1 (the detector of [process_text.py] is not among the
    sources): a caret or underscore immediately followed by a
    brace-delimited group, as in [^{2+}] and [_{aq}]; the group is not
    empty and ends at the first closing brace. *)
Definition script_len (s : list ascii) : option nat :=
  match s with
  | c0 :: c1 :: body =>
      if (Char.eq "^" c0 || Char.eq "_" c0) && Char.eq "{" c1 then
        match body with
        | c2 :: _ =>
            if is_close_brace c2 then None
            else (fun n => 2 + n) <$> until_close body
        | [] => None
        end
      else None
  | _ => None
  end.

(** the characters of a charge suffix: [+], [-] and digits *)
Definition charge_char (c : ascii) : bool :=
  Char.eq "+" c || Char.eq "-" c || Char.digit c.

Fixpoint charge_len (s : list ascii) : nat :=
  match s with
  | c :: r => if charge_char c then S (charge_len r) else 0
  | [] => 0
  end.

(** after the leading uppercase letter: letters and digits up to the
    closing bracket, then the adjoining charge suffix *)
Fixpoint chem_tail (s : list ascii) : option nat :=
  match s with
  | [] => None
  | c :: r =>
      if Char.eq "]" c then Some (1 + charge_len r)
      else if Char.alnum c then S <$> chem_tail r
      else None
  end.

(** Modelled from the spec: the span shape "chemistry formula" of
    section 4.1 (not among the sources): a square-bracket group whose
    first character is an uppercase letter and whose remaining
    characters are letters or digits, with the adjoining charge suffix,
    taken as the longest run of [+], [-] and digits. *)
Definition chem_len (s : list ascii) : option nat :=
  match s with
  | c0 :: c1 :: r =>
      if Char.eq "[" c0 && Char.upper c1
      then (fun n => 2 + n) <$> chem_tail r
      else None
  | _ => None
  end.

(** the characters of a tuple token: alphanumeric, sign, space, slash *)
Definition tuple_char (c : ascii) : bool :=
  Char.alnum c || Char.eq "+" c || Char.eq "-" c || Char.eq " " c
  || Char.eq "/" c.

Definition is_comma (c : ascii) : bool := Char.eq "," c.

(** [seen]: a comma has been passed; [tok]: the current token is not
    empty.  Any other character before the closing delimiter
    disqualifies the group. *)
Fixpoint tuple_tail (close : ascii) (seen tok : bool) (s : list ascii)
  : option nat :=
  match s with
  | [] => None
  | c :: r =>
      if Char.eq close c then (if seen && tok then Some 1 else None)
      else if is_comma c then
        (if tok then S <$> tuple_tail close true false r else None)
      else if tuple_char c then S <$> tuple_tail close seen true r
      else None
  end.

Definition closer_of (c : ascii) : option ascii :=
  if Char.eq "[" c then Some "]"%char
  else if Char.eq "(" c then Some ")"%char
  else None.

(** Modelled from the spec: the span shape "coordinate tuple" of
    section 4.1 (not among the sources): a bracket- or paren-delimited
    group of two or more comma-separated, non-empty tokens, closed by
    the matching delimiter. *)
Definition tuple_len (s : list ascii) : option nat :=
  match s with
  | c0 :: r =>
      match closer_of c0 with
      | Some close => S <$> tuple_tail close false false r
      | None => None
      end
  | [] => None
  end.

(** Modelled from the spec: the precedence rule of section 4.1 (not
    among the sources).  The span that starts at the front of [s], if
    any: a bracketed group is a chemistry formula when its content is
    one element-symbol token, and a coordinate tuple otherwise. *)
Definition span_at (s : list ascii) : option (category * nat) :=
  match script_len s with
  | Some n => Some (existing_latex_script, n)
  | None =>
      match chem_len s with
      | Some n => Some (chemistry_formula, n)
      | None =>
          match tuple_len s with
          | Some n => Some (coordinate_tuple, n)
          | None => None
          end
      end
  end.

(** *** Numeric tokens *)

(** Modelled from the spec: the NumericToken of section 3 (not among
    the sources).  The numeric token at the front of [s]: the maximal
    digit sequence with embedded commas (a comma belongs to it only
    between digits). *)
Fixpoint digit_run (s : list ascii) : list ascii :=
  match s with
  | [] => []
  | c :: r =>
      if Char.digit c then c :: digit_run r
      else if is_comma c then
        match r with
        | d :: _ => if Char.digit d then c :: digit_run r else []
        | [] => []
        end
      else []
  end.

Fixpoint leading_digits (s : list ascii) : nat :=
  match s with
  | c :: r => if Char.digit c then S (leading_digits r) else 0
  | [] => 0
  end.

(** comma-led groups of exactly three digits, to the end of the token *)
Fixpoint groups_of_three (s : list ascii) : bool :=
  match s with
  | [] => true
  | c :: d1 :: d2 :: d3 :: r =>
      is_comma c && Char.digit d1 && Char.digit d2 && Char.digit d3
      && groups_of_three r
  | _ => false
  end.

(** Modelled from the spec: the strict three-digit-grouping shape of
    section 4.1, pass 2 (not among the sources): one to three digits,
    then one or more comma-led groups of exactly three digits. *)
Definition strict_grouping (run : list ascii) : bool :=
  let n := leading_digits run in
  let groups := drop n run in
  (1 <=? n)%nat && (n <=? 3)%nat
  && negb (bool_decide (groups = [])) && groups_of_three groups.

Definition strip_separators (run : list ascii) : list ascii :=
  if strict_grouping run then filter (fun c => is_comma c = false) run
  else run.

(** *** Pass 1: span detection *)

Inductive piece : Type :=
| Protected : category -> list ascii -> piece
| Number : list ascii -> piece
| Other : ascii -> piece.

(** Modelled from the spec: pass 1 of section 4.1 (not among the
    sources).  One left-to-right scan, the leftmost span winning; the
    text outside the protected spans is cut into numeric tokens and
    single characters.  The fuel bounds the number of pieces. *)
Fixpoint scan_fuel (fuel : nat) (s : list ascii) : list piece :=
  match fuel with
  | O => []
  | S fuel' =>
      match s with
      | [] => []
      | c :: r =>
          match span_at s with
          | Some (cat, n) =>
              Protected cat (take n s) :: scan_fuel fuel' (drop n s)
          | None =>
              if Char.digit c then
                let run := digit_run s in
                Number run :: scan_fuel fuel' (drop (length run) s)
              else Other c :: scan_fuel fuel' r
          end
      end
  end.

Definition scan (s : list ascii) : list piece := scan_fuel (length s) s.

(** *** Pass 2: numeric normalisation *)

(** Modelled from the spec: pass 2 of section 4.1 (not among the
    sources).  A numeric token of the strict shape loses its commas;
    any other token, and every span, is left as it is. *)
Definition numeric_pass (ps : list piece) : list piece :=
  map (fun p =>
         match p with
         | Number run => Number (strip_separators run)
         | _ => p
         end) ps.

(** *** Pass 3: LaTeX-safe rewriting *)

Definition reserved (c : ascii) : bool :=
  Char.eq "%" c || Char.eq "&" c || Char.eq "#" c || Char.eq "_" c
  || Char.eq "^" c.

(** the backslash *)
Definition escape_marker : ascii := "092"%char.

Definition is_marker (c : ascii) : bool := Char.eq escape_marker c.

(** Modelled from the spec: pass 3 of section 4.1 (not among the
    sources).  Outside the spans a reserved character gets the escape
    marker in front of it.  [escaped]: the character just before is the
    escape marker, so a reserved character here is already escaped. *)
Fixpoint escape_pass (escaped : bool) (ps : list piece) : list piece :=
  match ps with
  | [] => []
  | Other c :: ps' =>
      if reserved c && negb escaped
      then Other escape_marker :: Other c :: escape_pass false ps'
      else Other c :: escape_pass (is_marker c) ps'
  | p :: ps' => p :: escape_pass false ps'
  end.

Definition rewrite_pass (cfg : TransformConfig) (escaped : bool)
           (ps : list piece) : list piece :=
  if renderLatex cfg then escape_pass escaped ps else ps.

(** *** Pass 4: assembly *)

Definition piece_text (p : piece) : list ascii :=
  match p with
  | Protected _ x => x
  | Number run => run
  | Other c => [c]
  end.

Definition assemble (ps : list piece) : list ascii :=
  flat_map piece_text ps.

(** Modelled from the spec: the [hasLatex] scan of section 4.1, pass 4
    (not among the sources): some position of the text starts a script
    marker. *)
Fixpoint has_script (s : list ascii) : bool :=
  match script_len s with
  | Some _ => true
  | None =>
      match s with
      | [] => false
      | _ :: r => has_script r
      end
  end.

(** the passes, started with the given [escaped] state *)
Definition normalize_from (cfg : TransformConfig) (escaped : bool)
           (s : list ascii) : list ascii :=
  assemble (rewrite_pass cfg escaped (numeric_pass (scan s))).

Definition normalize_text (cfg : TransformConfig) (s : list ascii)
  : list ascii :=
  normalize_from cfg false s.

(** Modelled from the spec: [preprocess_text_to_latex] is defined in
    [process_text.py], which is not among the sources; this is the
    Text Normalizer of the specification, section 4.1: span detection,
    numeric normalisation, LaTeX-safe rewriting when [renderLatex] is
    set, and assembly, with [hasLatex] computed by scanning the
    assembled output for a script marker.  The escape marker is the
    backslash, and a reserved character that directly follows one counts
    as already escaped. *)
Definition normalize : normaliser :=
  fun (s : string) (cfg : TransformConfig) =>
    let out := normalize_text cfg (chars s) in
    {| text := string_of_list_ascii out; hasLatex := has_script out |}.

End Normalizer.

(** ** Notions used in the proofs *)

Module Notions.
Import Re ValidateFixes Normalizer Sheet.

(** a span starts with a caret, an underscore or an opening delimiter *)
Definition opener (c : ascii) : bool :=
  Char.eq "^" c || Char.eq "_" c || Char.eq "[" c || Char.eq "(" c.

(** the element-symbol shape of a bracket content: an uppercase letter
    followed by letters and digits, hence one comma-free token *)
Definition element_symbol (content : list ascii) : bool :=
  match content with
  | u :: body => Char.upper u && forallb Char.alnum body
  | [] => false
  end.

Definition not_square (c : ascii) : bool := negb (Char.eq "]" c).

(** the rewriting pass puts an escape marker in front of [c] *)
Definition escapes (cfg : TransformConfig) (b : bool) (c : ascii) : bool :=
  renderLatex cfg && reserved c && negb b.

(** What the passes do to the text outside the spans.
    [rewritten d o n]: the text [n] is the text [o] with escape markers
    put in front of some reserved characters and with some commas that
    stand between two digits taken out.  The flag [d] tells whether the
    character before [o] is a digit. *)

Inductive rewritten : bool -> list ascii -> list ascii -> Prop :=
| rw_nil d : rewritten d [] []
| rw_keep d c o n :
    rewritten (Char.digit c) o n -> rewritten d (c :: o) (c :: n)
| rw_escape d c o n :
    reserved c = true -> rewritten false o n ->
    rewritten d (c :: o) (escape_marker :: c :: n)
| rw_strip c e o n :
    is_comma c = true -> Char.digit e = true ->
    rewritten true (e :: o) n -> rewritten true (c :: e :: o) n.



(** the common shape of the two patterns of [validate_latex_notation] *)
Definition script_re (c0 : ascii) : regex :=
  Seq (Chr c0)
    (Seq (Chr "{") (Seq (Plus (Cls not_close_brace)) (Chr "}"))).

(** the texts that one row hands to the normaliser *)
Definition text_value (cols : list string) (row : gmap string cell)
           (field : string) : list string :=
  if bool_decide (field ∈ cols) then
    match row !! field with
    | Some v => if notna v then [str v] else []
    | None => []
    end
  else [].

Definition row_texts (cols : list string) (row : gmap string cell)
  : list string :=
  flat_map (text_value cols row) text_fields.

(** what the processing loop lets one observe: the counter and the
    texts normalised *)
Definition observe (st : loop_state) : nat * list string :=
  (processed_count st, calls st).

(** two frames with the same text fields *)
Definition same_text_fields (df1 df2 : DataFrame) : Prop :=
  Forall (fun f => f ∈ columns df1 <-> f ∈ columns df2) text_fields
  /\ Forall2 (fun r1 r2 : gmap string cell =>
                Forall (fun f => r1 !! f = r2 !! f) text_fields)
       (rows df1) (rows df2).

Definition sim (st1 st2 : loop_state) : Prop :=
  observe st1 = observe st2
  /\ Forall (fun f => f ∈ columns (frame st1) <-> f ∈ columns (frame st2))
       text_fields.

Definition osim (o1 o2 : option loop_state) : Prop :=
  match o1, o2 with
  | Some a, Some b => sim a b
  | None, None => True
  | _, _ => False
  end.

(** every row carries every column of the frame *)
Definition well_formed (df : DataFrame) : Prop :=
  Forall (fun row : gmap string cell =>
            Forall (fun c => is_Some (row !! c)) (columns df))
         (rows df).

(** a one-row frame with all required columns and one more, whose
    Answer is missing *)
Definition sample_row (body notes : string) : gmap string cell :=
  <["Problem Name" := Val "ions"]>
    (<["Row Type" := Val "problem"]>
       (<["Title" := Val "Ions"]>
          (<["Body Text" := Val body]>
             (<["Answer" := NaN]>
                (<["answerType" := Val "string"]>
                   (<["Notes" := Val notes]> ∅)))))).

Definition sample_frame (body notes : string) : DataFrame :=
  {| columns := ["Problem Name"; "Row Type"; "Title"; "Body Text"; "Answer";
                 "answerType"; "Notes"];
     rows := [sample_row body notes] |}.

End Notions.

(** ** What a pattern matches

    [matches r p s p' s']: the pattern [r], started on the text [s] with
    the character [p] before it, can consume the front of [s] down to
    [s'], the last character before [s'] being [p'].  A repetition counts
    only iterations that consume something. *)

Module Semantics.
Import Re.

Inductive matches :
  regex -> option ascii -> list ascii -> option ascii -> list ascii -> Prop :=
| m_eps p s : matches Eps p s p s
| m_cls f p c s : f c = true -> matches (Cls f) p (c :: s) (Some c) s
| m_seq a b p s p1 s1 p2 s2 :
    matches a p s p1 s1 -> matches b p1 s1 p2 s2 ->
    matches (Seq a b) p s p2 s2
| m_alt_l a b p s p' s' : matches a p s p' s' -> matches (Alt a b) p s p' s'
| m_alt_r a b p s p' s' : matches b p s p' s' -> matches (Alt a b) p s p' s'
| m_star_stop a p s : matches (Star a) p s p s
| m_star_more a p s p1 s1 p2 s2 :
    matches a p s p1 s1 -> length s1 < length s ->
    matches (Star a) p1 s1 p2 s2 -> matches (Star a) p s p2 s2
| m_wordb p s : at_boundary p s = true -> matches WordB p s p s.

(** the character before the text that follows [pre], when [prev] is
    the character before [pre] *)
Definition prev_at (prev : option ascii) (pre : list ascii) : option ascii :=
  match last pre with
  | Some c => Some c
  | None => prev
  end.

End Semantics.

(** ** The patterns of the scripts, piece by piece *)

Module Patterns.
Import Re ValidateFixes.

(** the class [[a-z0-9]] *)
Definition lower_or_digit (c : ascii) : bool := Char.lower c || Char.digit c.

(** [\[[A-Z][a-z0-9]*\]], the first alternative of the chemistry
    pattern; it is also the pattern of the bracket check of
    [validate_fixes.py], lines 97-98 *)
Definition chemistry_first : regex :=
  Seq (Chr "[")
    (Seq (Cls Char.upper)
       (Seq (Star (Cls (fun c => Char.lower c || Char.digit c)))
          (Chr "]"))).

(** [\[[A-Z][a-z]*[0-9]+\]], the second alternative *)
Definition chemistry_second : regex :=
  Seq (Chr "[")
    (Seq (Cls Char.upper)
       (Seq (Star (Cls Char.lower))
          (Seq (Plus (Cls Char.digit)) (Chr "]")))).

(** [chem_before] / [chem_after] of the bracket check *)
Definition bracket_matches (text : string) : list string :=
  map string_of_list_ascii (findall chemistry_first (chars text)).

(** [,\d{3}], the group that the thousand pattern repeats *)
Definition comma_group : regex :=
  Seq (Chr ",") (Times 3 (Cls Char.digit)).

(** comma-led groups of three digits, as [(?:,\d{3})+] consumes them *)
Fixpoint comma_groups (w : list ascii) : bool :=
  match w with
  | [] => true
  | c :: d1 :: d2 :: d3 :: r =>
      Char.eq "," c && Char.digit d1 && Char.digit d2 && Char.digit d3
      && comma_groups r
  | _ => false
  end.

(** a number written with thousand separators: one to three digits and
    at least one comma-led group of three digits *)
Definition grouped_number (w : list ascii) : Prop :=
  exists lead groups,
    w = lead ++ groups
    /\ 1 <= length lead <= 3 /\ forallb Char.digit lead = true
    /\ groups <> [] /\ comma_groups groups = true.

End Patterns.

(** ** The checks of validate_fixes.py, lines 87-162 *)

Module FixesScript.
Import Re ValidateFixes Patterns.

Definition all_matches (r : regex) (text : string) : list string :=
  map string_of_list_ascii (findall r (chars text)).

(** Fix 1, line 100: [chem_before == chem_after] *)
Definition brackets_preserved (text processed : string) : bool :=
  bool_decide (bracket_matches text = bracket_matches processed).

(** Fix 2, line 131: [has_thousand and len(thousand_after) <
    len(thousand_before)], with [has_thousand] from [validate_commas] *)
Definition thousand_removed (text processed : string) : bool :=
  let has_thousand := fst (validate_commas text) in
  let thousand_before := thousand_matches text in
  let thousand_after := thousand_matches processed in
  bool_decide (is_Some has_thousand)
  && (length thousand_after <? length thousand_before)%nat.

(** Fix 2, line 133: [has_coord and coord_before == coord_after] *)
Definition coordinates_preserved (text processed : string) : bool :=
  let has_coord := snd (validate_commas text) in
  let coord_before := all_matches coordinates_re text in
  let coord_after := all_matches coordinates_re processed in
  bool_decide (is_Some has_coord)
  && bool_decide (coord_before = coord_after).

(** Fix 3, line 159: [super_before and super_before == super_after] *)
Definition superscripts_preserved (text processed : string) : bool :=
  let super_before := all_matches super_re text in
  let super_after := all_matches super_re processed in
  negb (bool_decide (super_before = []))
  && bool_decide (super_before = super_after).

(** Fix 3, line 161: [sub_before and sub_before == sub_after] *)
Definition subscripts_preserved (text processed : string) : bool :=
  let sub_before := all_matches sub_re text in
  let sub_after := all_matches sub_re processed in
  negb (bool_decide (sub_before = []))
  && bool_decide (sub_before = sub_after).

End FixesScript.

(** ** The example loop of validate_fixes.py, lines 51-76 *)

Module FixesLoop.
Import Re ValidateFixes.

(** the three lists; an entry of [chemistry_examples] and of
    [latex_examples] is the tuple [(idx, field_name, text)], an entry of
    [comma_examples] carries the two match objects as well *)
Record found : Type := mkFound {
  chemistry_examples : list (nat * string * string);
  comma_examples :
    list (nat * string * string * option (nat * nat) * option (nat * nat));
  latex_examples : list (nat * string * string)
}.

(** lines 63-76, for one item of [fields] *)
Definition check_field (idx : nat) (ex : found) (item : string * string)
  : found :=
  let '(field_name, text) := item in
  if negb (String.eqb text "") && negb (String.eqb text "nan") then
    let ex1 :=
      if bool_decide (is_Some (validate_chemistry_brackets text)) then
        mkFound (chemistry_examples ex ++ [(idx, field_name, text)])
                (comma_examples ex) (latex_examples ex)
      else ex in
    let '(thousand_sep, coordinates) := validate_commas text in
    let ex2 :=
      if bool_decide (is_Some thousand_sep)
         || bool_decide (is_Some coordinates) then
        mkFound (chemistry_examples ex1)
                (comma_examples ex1
                   ++ [(idx, field_name, text, thousand_sep, coordinates)])
                (latex_examples ex1)
      else ex1 in
    let '(has_super, has_sub) := validate_latex_notation text in
    if bool_decide (is_Some has_super) || bool_decide (is_Some has_sub) then
      mkFound (chemistry_examples ex2) (comma_examples ex2)
              (latex_examples ex2 ++ [(idx, field_name, text)])
    else ex2
  else ex.

(** the dict [fields] of one row, in insertion order *)
Definition fields (row : gmap string Sheet.cell) : list (string * string) :=
  [("Body Text", Sheet.get_str row "Body Text");
   ("Answer", Sheet.get_str row "Answer");
   ("Title", Sheet.get_str row "Title")].

(** [for idx, row in df.iterrows()], the index running from [idx] *)
Fixpoint check_rows (idx : nat) (ex : found)
         (rs : list (gmap string Sheet.cell)) : found :=
  match rs with
  | [] => ex
  | row :: rs' =>
      check_rows (S idx) (foldl (check_field idx) ex (fields row)) rs'
  end.

Definition find_examples (df : Sheet.DataFrame) : found :=
  check_rows 0 (mkFound [] [] []) (Sheet.rows df).

End FixesLoop.

(** ** The export address of [get_public_sheet]
    (process_public_sheet.py, line 20; validate_fixes.py, line 12) *)

Definition export_url (sheet_key gid : string) : string :=
  "https://docs.google.com/spreadsheets/d/" +:+ sheet_key
    +:+ "/export?format=csv&gid=" +:+ gid.

(** ** scripts/validate-sheet.py *)

Module ValidateSheet.
Import Re Sheet.

(** the class [[a-zA-Z0-9-_]]: the three ranges, the hyphen and the
    underscore *)
Definition key_char (c : ascii) : bool :=
  Char.lower c || Char.upper c || Char.digit c
  || Char.eq "-" c || Char.eq "_" c.

(** a literal text as a pattern *)
Fixpoint Lit (w : list ascii) : regex :=
  match w with
  | [] => Eps
  | c :: w' => Seq (Chr c) (Lit w')
  end.

Definition key_prefix : string := "/spreadsheets/d/".

(** [/spreadsheets/d/([a-zA-Z0-9-_]+)] *)
Definition sheet_key_re : regex :=
  Seq (Lit (chars key_prefix)) (Plus (Cls key_char)).

(** [text[a:b]] *)
Definition slice (a b : nat) (text : list ascii) : list ascii :=
  take (b - a) (drop a text).

(** [match.group(1) if match else None]: the group opens after the
    literal part of the pattern and closes where the match ends *)
Definition extract_sheet_key (url : string) : option string :=
  match search sheet_key_re (chars url) with
  | Some (a, b) =>
      Some (string_of_list_ascii
              (slice (a + length (chars key_prefix)) b (chars url)))
  | None => None
  end.

(** lines 28-33; an empty [sheet_name] counts as none *)
Definition csv_url (sheet_key : string) (sheet_name : option string)
  : string :=
  match sheet_name with
  | Some name =>
      if String.eqb name "" then
        "https://docs.google.com/spreadsheets/d/" +:+ sheet_key
          +:+ "/export?format=csv"
      else
        "https://docs.google.com/spreadsheets/d/" +:+ sheet_key
          +:+ "/gviz/tq?tqx=out:csv&sheet=" +:+ name
  | None =>
      "https://docs.google.com/spreadsheets/d/" +:+ sheet_key
        +:+ "/export?format=csv"
  end.

Definition required_headers : list string :=
  ["Problem Name"; "Row Type"; "Title"; "Body Text";
   "Answer"; "answerType"; "HintID"; "Dependency";
   "mcChoices"; "Images (space delimited)"; "Parent";
   "OER src"; "openstax KC"; "KC"; "Taxonomy"].

Definition missing_headers (df : DataFrame) : list string :=
  filter (fun h => h ∉ columns df) required_headers.

(** [df.empty]: one of the two axes has length 0 *)
Definition empty (df : DataFrame) : bool :=
  bool_decide (rows df = []) || bool_decide (columns df = []).

(** [v == value] for a cell [v] that [row.get] delivered ([None] for a
    missing label) and a string [value] *)
Definition cell_is (v : option cell) (value : string) : bool :=
  match v with
  | Some (Val s) => String.eqb s value
  | _ => false
  end.

(** [pd.isna(row.get(label))]; [pd.isna(None)] holds *)
Definition isna_get (row : gmap string cell) (label : string) : bool :=
  match row !! label with
  | Some v => negb (notna v)
  | None => true
  end.

(** [Series.unique()]: the values in the order of their first
    occurrence *)
Definition unique (l : list string) : list string :=
  foldl (fun seen x => if bool_decide (x ∈ seen) then seen else seen ++ [x])
        [] l.

(** [df[df['Row Type'] == 'problem']['Problem Name'].dropna().unique()] *)
Definition problems (df : DataFrame) : list string :=
  unique
    (omap (fun row : gmap string cell =>
             if cell_is (row !! "Row Type") "problem" then
               match row !! "Problem Name" with
               | Some (Val s) => Some s
               | _ => None
               end
             else None)
          (rows df)).

(** lines 78-79 *)
Definition steps (df : DataFrame) (problem : string)
  : list (gmap string cell) :=
  let problem_rows :=
    filter (fun row : gmap string cell =>
              cell_is (row !! "Problem Name") problem = true) (rows df) in
  filter (fun row : gmap string cell =>
            cell_is (row !! "Row Type") "step" = true) problem_rows.

(** lines 74-82 *)
Definition step_warnings (df : DataFrame) : list string :=
  if bool_decide ("Row Type" ∈ columns df)
     && bool_decide ("Problem Name" ∈ columns df) then
    map (fun problem => "Problem '" +:+ problem +:+ "' has no steps")
        (filter (fun problem => length (steps df problem) = 0)
                (problems df))
  else [].

(** lines 86-90 for the row of index [idx] *)
Definition check_row (idx : nat) (row : gmap string cell)
           (ew : list string * list string) : list string * list string :=
  let '(errors, warnings) := ew in
  let errors' :=
    if cell_is (row !! "Row Type") "problem" && isna_get row "Problem Name"
    then errors
           ++ ["Row " +:+ pretty (idx + 2)
               +:+ ": Problem row missing Problem Name"]
    else errors in
  let warnings' :=
    if (cell_is (row !! "Row Type") "step"
        || cell_is (row !! "Row Type") "scaffold")
       && isna_get row "Answer"
    then warnings
           ++ ["Row " +:+ pretty (idx + 2)
               +:+ ": Step/scaffold missing answer"]
    else warnings in
  (errors', warnings').

Fixpoint check_rows (idx : nat) (rs : list (gmap string cell))
         (ew : list string * list string) : list string * list string :=
  match rs with
  | [] => ew
  | row :: rs' => check_rows (S idx) rs' (check_row idx row ew)
  end.

(** the lists [errors] and [warnings] when line 92 is reached *)
Definition issues (df : DataFrame) : list string * list string :=
  check_rows 0 (rows df) ([], step_warnings df).

Section Environment.
(** [pd.read_csv] on an address: the frame, or [None] when the call
    raises *)
Variable read_csv : string -> option DataFrame.

Definition validate_sheet_format (sheet_key : string)
           (sheet_name : option string) : bool :=
  match read_csv (csv_url sheet_key sheet_name) with
  | None => false
  | Some df =>
      if empty df then false
      else
        match missing_headers df with
        | _ :: _ => false
        | [] =>
            let '(errors, warnings) := issues df in
            (length errors =? 0)%nat
        end
  end.

(** the exit status of [main] on the argument vector [argv] *)
Definition main (argv : list string) : nat :=
  match argv with
  | _ :: sheet_url :: rest =>
      let sheet_name := head rest in
      match extract_sheet_key sheet_url with
      | Some sheet_key =>
          if String.eqb sheet_key "" then 1
          else if validate_sheet_format sheet_key sheet_name then 0
               else 1
      | None => 1
      end
  | _ => 1
  end.
End Environment.

End ValidateSheet.

(** ** Notions used in the further properties *)

Module MoreNotions.
Import Re ValidateFixes Sheet.

(** the texts that the example scan of [process_public_sheet] looks at,
    in order *)
Definition scanned_texts (df : DataFrame) : list string :=
  flat_map (fun row : gmap string cell =>
              [get_str row "Body Text"; get_str row "Answer";
               get_str row "Title"])
           (rows df).

(** the tests of lines 79-82, 86 and 90 *)
Definition chemistry_test (text : string) : bool :=
  contains "[" text && contains "]" text
  && bool_decide (is_Some (search chemistry_re (chars text))).

Definition comma_test (text : string) : bool :=
  contains "," text && existsb Char.digit (chars text).

Definition latex_test (text : string) : bool :=
  contains "^{" text || contains "_{" text.

(** one list of the scan: a text that passes [test] is appended, cut to
    100 characters, unless the list holds it already *)
Definition collect (test : string -> bool) (l : list string)
           (texts : list string) : list string :=
  foldl (fun l text => if test text then append_new text l else l) l texts.

(** the entries of a list are cut texts, so that a text found in the
    list is its own cut *)
Definition cut_entries (l : list string) : Prop :=
  Forall (fun e => length (chars e) <= 100) l.

(** the normaliser changes the text *)
Definition changed (pre : normaliser) (original : string) : bool :=
  negb (bool_decide (text (pre original call_config) = original)).

(** the calls of the log whose text the normaliser changes *)
Definition changed_calls (pre : normaliser) (log : list string)
  : list string :=
  filter (fun original => changed pre original = true) log.

(** the counter is the number of logged texts that were changed *)
Definition counted (pre : normaliser) (st : loop_state) : Prop :=
  processed_count st = length (changed_calls pre (calls st)).

(** the guard of line 63 of validate_fixes.py: [text and text != 'nan'] *)
Definition live (text : string) : bool :=
  negb (String.eqb text "") && negb (String.eqb text "nan").

(** the texts of the examples of validate_fixes.py *)
Definition chemistry_texts (ex : FixesLoop.found) : list string :=
  map snd (FixesLoop.chemistry_examples ex).

Definition latex_texts (ex : FixesLoop.found) : list string :=
  map snd (FixesLoop.latex_examples ex).

(** the longest prefix of [s] made of characters of the class [f] *)
Fixpoint leading (f : ascii -> bool) (s : list ascii) : list ascii :=
  match s with
  | c :: s' => if f c then c :: leading f s' else []
  | [] => []
  end.

(** the number of characters of the match of [sheet_key_re] at the front
    of [s]: the literal part and the longest run of key characters after
    it, which must not be empty *)
Definition key_at (s : list ascii) : option nat :=
  if starts_with (chars ValidateSheet.key_prefix) s then
    match leading ValidateSheet.key_char
            (drop (length (chars ValidateSheet.key_prefix)) s) with
    | [] => None
    | w => Some (length (chars ValidateSheet.key_prefix) + length w)
    end
  else None.

Definition is_key_char (o : option ascii) : bool :=
  match o with
  | Some c => ValidateSheet.key_char c
  | None => false
  end.

(** a key as the pattern of [extract_sheet_key] accepts it *)
Definition valid_key (key : string) : Prop :=
  chars key <> [] /\ forallb ValidateSheet.key_char (chars key) = true.

(** the message of line 87 for the sheet row [n] *)
Definition error_message (n : nat) : string :=
  "Row " +:+ pretty n +:+ ": Problem row missing Problem Name".

(** a problem row without a name, the error of line 86 *)
Definition nameless_problem (row : gmap string cell) : bool :=
  ValidateSheet.cell_is (row !! "Row Type") "problem"
  && ValidateSheet.isna_get row "Problem Name".

(** the error messages for the rows [rs], the first of which has index
    [idx] *)
Fixpoint errors_from (idx : nat) (rs : list (gmap string cell))
  : list string :=
  match rs with
  | [] => []
  | row :: rs' =>
      (if nameless_problem row then [error_message (idx + 2)] else [])
        ++ errors_from (S idx) rs'
  end.

(** the message of line 82 *)
Definition no_steps_message (problem : string) : string :=
  "Problem '" +:+ problem +:+ "' has no steps".

(** a frame of two rows that carry the same Body Text and nothing
    else *)
Definition body_row (body : string) : gmap string cell :=
  {[ "Body Text" := Val body ]}.

Definition twice (body : string) : DataFrame :=
  {| columns := ["Body Text"]; rows := [body_row body; body_row body] |}.

(** a frame with the required columns whose two rows carry the same
    Body Text *)
Definition pair_frame (body : string) : DataFrame :=
  {| columns := columns (Notions.sample_frame body "");
     rows := [Notions.sample_row body ""; Notions.sample_row body ""] |}.

(** a text of more than 100 characters with a number in it *)
Definition long_body : string :=
  "A sample of 12,500 atoms is split into equal parts of the same size, and every part is weighed three times in a row".

(** a text over the ASCII alphabet: every character has a code below
    128.  On such a text Python's [\d], [\w], [\s], [\b] and
    [str.isdigit] are the classes of [Char]. *)
Definition ascii_char (c : ascii) : bool := (Char.code c <? 128)%nat.

Definition ascii_text (text : string) : Prop :=
  forallb ascii_char (chars text) = true.

(** a row of the frame below: a step of the problem [name] with the
    answer [answer] *)
Definition full_row (name answer : string) : gmap string cell :=
  list_to_map
    [("Problem Name", Val name); ("Row Type", Val "step");
     ("Title", NaN); ("Body Text", Val "How many?");
     ("Answer", Val answer); ("answerType", Val "string");
     ("HintID", NaN); ("Dependency", NaN); ("mcChoices", NaN);
     ("Images (space delimited)", NaN); ("Parent", NaN);
     ("OER src", NaN); ("openstax KC", NaN); ("KC", NaN);
     ("Taxonomy", NaN)].

(** a one-row frame with the fifteen headers *)
Definition full_frame (name answer : string) : DataFrame :=
  {| columns := ValidateSheet.required_headers;
     rows := [full_row name answer] |}.

(** a problem row named [name], and a one-row frame that holds it: a
    problem without steps *)
Definition problem_row (name : string) : gmap string cell :=
  <["Row Type" := Val "problem"]> (full_row name "").

Definition problem_frame (name : string) : DataFrame :=
  {| columns := ValidateSheet.required_headers;
     rows := [problem_row name] |}.

End MoreNotions.
(** * Properties *)

(** ** Facts about the normaliser model *)

Module NormalizerFacts.
Import ValidateFixes Normalizer Notions.

(** *** Character classes *)

Local Arguments Char.eq : simpl never.
Local Arguments Char.between : simpl never.
Local Arguments Char.digit : simpl never.
Local Arguments Char.upper : simpl never.
Local Arguments Char.alnum : simpl never.
Local Arguments is_comma : simpl never.
Local Arguments is_marker : simpl never.
Local Arguments is_close_brace : simpl never.
Local Arguments reserved : simpl never.
Local Arguments tuple_char : simpl never.
Local Arguments charge_char : simpl never.

Ltac by_cases_on c :=
  destruct c as [[] [] [] [] [] [] [] []]; vm_compute; intros;
  first [reflexivity | discriminate | congruence | tauto].

Lemma eq_true_iff (x c : ascii) : Char.eq x c = true <-> c = x.
Proof. unfold Char.eq. rewrite Ascii.eqb_eq. split; congruence. Qed.

Lemma digit_not_comma c : Char.digit c = true -> is_comma c = false.
Proof. by_cases_on c. Qed.

Lemma digit_not_reserved c : Char.digit c = true -> reserved c = false.
Proof. by_cases_on c. Qed.

Lemma digit_not_marker c : Char.digit c = true -> is_marker c = false.
Proof. by_cases_on c. Qed.

Lemma digit_alnum c : Char.digit c = true -> Char.alnum c = true.
Proof. by_cases_on c. Qed.

Lemma digit_charge c : Char.digit c = true -> charge_char c = true.
Proof. by_cases_on c. Qed.

Lemma alnum_tuple c : Char.alnum c = true -> tuple_char c = true.
Proof. by_cases_on c. Qed.

Lemma comma_not_reserved c : is_comma c = true -> reserved c = false.
Proof. by_cases_on c. Qed.

Lemma comma_not_marker c : is_comma c = true -> is_marker c = false.
Proof. by_cases_on c. Qed.

Lemma reserved_not_marker c : reserved c = true -> is_marker c = false.
Proof. by_cases_on c. Qed.

Lemma reserved_not_digit c : reserved c = true -> Char.digit c = false.
Proof. by_cases_on c. Qed.

Lemma reserved_not_comma c : reserved c = true -> is_comma c = false.
Proof. by_cases_on c. Qed.

Lemma reserved_not_charge c : reserved c = true -> charge_char c = false.
Proof. by_cases_on c. Qed.

Lemma marker_not_digit : Char.digit escape_marker = false.
Proof. reflexivity. Qed.

(** *** Spans are never empty and never run past the text *)

Lemma until_close_bound s n :
  until_close s = Some n -> 1 <= n <= length s.
Proof.
  revert n. induction s as [|c r IH]; intros n; simpl; [discriminate|].
  destruct (is_close_brace c).
  - intros [= <-]. lia.
  - intros (m & Hm & ->)%fmap_Some. specialize (IH _ Hm). lia.
Qed.

Lemma charge_len_bound s : charge_len s <= length s.
Proof.
  induction s as [|c r IH]; simpl; [lia|].
  destruct (charge_char c); simpl; lia.
Qed.

Lemma chem_tail_bound s n : chem_tail s = Some n -> 1 <= n <= length s.
Proof.
  revert n. induction s as [|c r IH]; intros n; simpl; [discriminate|].
  destruct (Char.eq "]" c).
  - intros ?; simplify_eq. pose proof (charge_len_bound r). lia.
  - destruct (Char.alnum c); [|discriminate].
    intros (m & Hm & ->)%fmap_Some. specialize (IH _ Hm). lia.
Qed.

Lemma tuple_tail_bound close seen tok s n :
  tuple_tail close seen tok s = Some n -> 1 <= n <= length s.
Proof.
  revert seen tok n.
  induction s as [|c r IH]; intros seen tok n; simpl; [discriminate|].
  destruct (Char.eq close c).
  - destruct (seen && tok); [|discriminate]. intros [= <-]. lia.
  - destruct (is_comma c).
    + destruct tok; [|discriminate].
      intros (m & Hm & ->)%fmap_Some. specialize (IH _ _ _ Hm). lia.
    + destruct (tuple_char c); [|discriminate].
      intros (m & Hm & ->)%fmap_Some. specialize (IH _ _ _ Hm). lia.
Qed.

Lemma script_len_bound s n : script_len s = Some n -> 1 <= n <= length s.
Proof.
  unfold script_len. destruct s as [|c0 [|c1 body]]; try discriminate.
  destruct (_ && _); [|discriminate].
  destruct body as [|c2 r]; [discriminate|].
  destruct (is_close_brace c2); [discriminate|].
  intros (m & Hm & ->)%fmap_Some.
  apply until_close_bound in Hm. simpl in *. lia.
Qed.

Lemma chem_len_bound s n : chem_len s = Some n -> 1 <= n <= length s.
Proof.
  unfold chem_len. destruct s as [|c0 [|c1 r]]; try discriminate.
  destruct (_ && _); [|discriminate].
  intros (m & Hm & ->)%fmap_Some.
  apply chem_tail_bound in Hm. simpl in *. lia.
Qed.

Lemma tuple_len_bound s n : tuple_len s = Some n -> 1 <= n <= length s.
Proof.
  unfold tuple_len. destruct s as [|c0 r]; try discriminate.
  destruct (closer_of c0); [|discriminate].
  intros (m & Hm & ->)%fmap_Some.
  apply tuple_tail_bound in Hm. simpl in *. lia.
Qed.

Lemma span_at_bound s cat n :
  span_at s = Some (cat, n) -> 1 <= n <= length s.
Proof.
  unfold span_at.
  destruct (script_len s) eqn:H1.
  { intros [= <- <-]. by apply script_len_bound. }
  destruct (chem_len s) eqn:H2.
  { intros [= <- <-]. by apply chem_len_bound. }
  destruct (tuple_len s) eqn:H3; [|discriminate].
  intros [= <- <-]. by apply tuple_len_bound.
Qed.

Lemma span_at_opener c r :
  opener c = false -> span_at (c :: r) = None.
Proof.
  intros Hc. unfold span_at, script_len, chem_len, tuple_len, closer_of.
  unfold opener in Hc.
  apply orb_false_elim in Hc as [Hc H4].
  apply orb_false_elim in Hc as [Hc H3].
  apply orb_false_elim in Hc as [H1 H2].
  rewrite H1, H2, H3, H4. simpl.
  destruct r; reflexivity.
Qed.

Lemma digit_not_opener c : Char.digit c = true -> opener c = false.
Proof. by_cases_on c. Qed.

Lemma comma_not_opener c : is_comma c = true -> opener c = false.
Proof. by_cases_on c. Qed.

Lemma marker_not_opener : opener escape_marker = false.
Proof. reflexivity. Qed.

(** *** Numeric tokens *)

Lemma digit_run_prefix s :
  digit_run s ++ drop (length (digit_run s)) s = s.
Proof.
  induction s as [|c r IH]; simpl; [done|].
  destruct (Char.digit c); simpl; [by rewrite IH|].
  destruct (is_comma c); simpl; [|done].
  destruct r as [|d r']; simpl; [done|].
  destruct (Char.digit d) eqn:Hd; simpl; [|done].
  simpl in IH. rewrite Hd in IH. simpl in IH. by rewrite IH.
Qed.

Lemma digit_run_length s : length (digit_run s) <= length s.
Proof.
  rewrite <- (digit_run_prefix s) at 2. rewrite length_app. lia.
Qed.

(** *** The scan does not depend on spare fuel *)

Lemma scan_fuel_enough f1 f2 s :
  length s <= f1 -> length s <= f2 -> scan_fuel f1 s = scan_fuel f2 s.
Proof.
  revert f2 s. induction f1 as [|f1 IH]; intros f2 s H1 H2.
  { destruct s; simpl in *; [|lia]. by destruct f2. }
  destruct f2 as [|f2].
  { destruct s; simpl in *; [done|lia]. }
  destruct s as [|c r]; [done|].
  cbn [scan_fuel].
  destruct (span_at (c :: r)) as [[cat n]|] eqn:Hs.
  - f_equal. apply span_at_bound in Hs.
    apply IH; rewrite length_drop; simpl in *; lia.
  - destruct (Char.digit c) eqn:Hd.
    + cbn zeta. f_equal.
      assert (1 <= length (digit_run (c :: r))) by (simpl; rewrite Hd; simpl; lia).
      apply IH; rewrite length_drop; simpl in *; lia.
    + f_equal. apply IH; simpl in *; lia.
Qed.

Lemma scan_nil : scan [] = [].
Proof. reflexivity. Qed.

Lemma scan_span s cat n :
  span_at s = Some (cat, n) ->
  scan s = Protected cat (take n s) :: scan (drop n s).
Proof.
  intros Hs. pose proof (span_at_bound _ _ _ Hs) as Hn.
  unfold scan. destruct s as [|c r]; [simpl in Hn; lia|].
  cbn [length scan_fuel]. rewrite Hs. f_equal.
  apply scan_fuel_enough; rewrite ?length_drop; simpl in *; lia.
Qed.

Lemma scan_number c r :
  span_at (c :: r) = None -> Char.digit c = true ->
  scan (c :: r) =
    Number (digit_run (c :: r))
      :: scan (drop (length (digit_run (c :: r))) (c :: r)).
Proof.
  intros Hs Hd. unfold scan at 1. cbn [length scan_fuel]. rewrite Hs, Hd.
  cbn zeta. f_equal.
  assert (1 <= length (digit_run (c :: r))) by (simpl; rewrite Hd; simpl; lia).
  apply scan_fuel_enough; rewrite ?length_drop; simpl in *; lia.
Qed.

Lemma scan_other c r :
  span_at (c :: r) = None -> Char.digit c = false ->
  scan (c :: r) = Other c :: scan r.
Proof.
  intros Hs Hd. unfold scan at 1. cbn [length scan_fuel]. by rewrite Hs, Hd.
Qed.

(** the scan covers the whole text: putting its pieces together gives
    the text back, so the fuel never runs out before the end *)
Lemma assemble_scan s : assemble (scan s) = s.
Proof.
  induction s as [s IH] using (induction_ltof1 _ (@length ascii)).
  unfold ltof in IH. destruct s as [|c r]; [done|].
  destruct (span_at (c :: r)) as [[cat n]|] eqn:Hs.
  - rewrite (scan_span _ _ _ Hs). pose proof (span_at_bound _ _ _ Hs).
    cbn [assemble flat_map piece_text]. fold (assemble (scan (drop n (c :: r)))).
    rewrite IH by (rewrite length_drop; simpl in *; lia).
    apply take_drop.
  - destruct (Char.digit c) eqn:Hd.
    + rewrite (scan_number _ _ Hs Hd).
      cbn [assemble flat_map piece_text].
      fold (assemble (scan (drop (length (digit_run (c :: r))) (c :: r)))).
      rewrite IH; [apply digit_run_prefix|].
      rewrite length_drop. simpl. rewrite Hd. simpl. lia.
    + rewrite (scan_other _ _ Hs Hd).
      cbn [assemble flat_map piece_text]. fold (assemble (scan r)).
      rewrite IH by (simpl; lia). done.
Qed.


Lemma digit_run_digit c r :
  Char.digit c = true -> digit_run (c :: r) = c :: digit_run r.
Proof. intros Hc. simpl. by rewrite Hc. Qed.

Lemma digit_run_comma c d r :
  is_comma c = true -> Char.digit d = true ->
  digit_run (c :: d :: r) = c :: digit_run (d :: r).
Proof.
  intros Hk Hd. cbn [digit_run]. rewrite Hk, Hd.
  destruct (Char.digit c); reflexivity.
Qed.

Lemma digit_run_stop c r :
  Char.digit c = false ->
  (is_comma c = true -> match r with
                        | d :: _ => Char.digit d = false
                        | [] => True
                        end) ->
  digit_run (c :: r) = [].
Proof.
  intros Hc Hk. cbn [digit_run]. rewrite Hc.
  destruct (is_comma c); [|done].
  destruct r as [|d r']; [done|]. by rewrite Hk.
Qed.

Lemma digit_run_cases c r :
  (Char.digit c = true /\ digit_run (c :: r) = c :: digit_run r)
  \/ (Char.digit c = false /\ is_comma c = true /\
      exists d r', r = d :: r' /\ Char.digit d = true /\
                   digit_run (c :: r) = c :: digit_run r)
  \/ (Char.digit c = false /\ digit_run (c :: r) = [] /\
      (is_comma c = true -> match r with
                            | d :: _ => Char.digit d = false
                            | [] => True
                            end)).
Proof.
  destruct (Char.digit c) eqn:Hc.
  { left. split; [done|]. by apply digit_run_digit. }
  right. destruct (is_comma c) eqn:Hk.
  - destruct r as [|d r'].
    { right. split; [done|]. split; [|done]. by apply digit_run_stop. }
    destruct (Char.digit d) eqn:Hd.
    + left. split; [done|]. split; [done|]. exists d, r'.
      split; [done|]. split; [done|]. by apply digit_run_comma.
    + right. split; [done|]. split; [|done]. by apply digit_run_stop.
  - right. split; [done|]. split; [|intros; congruence].
    apply digit_run_stop; [done|intros; congruence].
Qed.

Lemma digit_run_app_run s y :
  digit_run y = [] -> digit_run (digit_run s ++ y) = digit_run s.
Proof.
  intros Hy. induction s as [|c r IH]; [done|].
  destruct (digit_run_cases c r)
    as [[Hc ->] | [(Hc & Hk & d & r' & -> & Hd & ->) | (Hc & -> & _)]].
  - rewrite <- app_comm_cons, (digit_run_digit _ _ Hc). by rewrite IH.
  - rewrite (digit_run_digit _ _ Hd) in *.
    rewrite <- !app_comm_cons in *.
    rewrite (digit_run_comma _ _ _ Hk Hd). by rewrite IH.
  - done.
Qed.

Lemma digit_run_rest s : digit_run (drop (length (digit_run s)) s) = [].
Proof.
  induction s as [|c r IH]; [done|].
  destruct (digit_run_cases c r)
    as [[Hc ->] | [(Hc & Hk & d & r' & -> & Hd & ->) | (Hc & -> & Hk)]].
  - done.
  - done.
  - by apply digit_run_stop.
Qed.

Lemma digit_run_app_digits ds y :
  forallb Char.digit ds = true -> digit_run y = [] ->
  digit_run (ds ++ y) = ds.
Proof.
  intros Hds Hy. induction ds as [|c r IH]; simpl in *; [done|].
  apply andb_prop in Hds as [Hc Hr]. rewrite Hc. by rewrite IH.
Qed.

Lemma digit_run_chars s :
  forallb (fun c => Char.digit c || is_comma c) (digit_run s) = true.
Proof.
  induction s as [|c r IH]; [done|].
  destruct (digit_run_cases c r)
    as [[Hc ->] | [(Hc & Hk & d & r' & -> & Hd & ->) | (Hc & -> & _)]].
  - cbn [forallb]. by rewrite Hc, IH.
  - cbn [forallb]. by rewrite Hk, orb_true_r, IH.
  - done.
Qed.

Lemma filter_commas_digits run :
  forallb (fun c => Char.digit c || is_comma c) run = true ->
  forallb Char.digit (filter (fun c => is_comma c = false) run) = true.
Proof.
  induction run as [|c r IH]; simpl; [done|].
  intros [Hc Hr]%andb_prop. rewrite filter_cons.
  destruct (decide (is_comma c = false)) as [Hk|Hk]; simpl.
  - rewrite Hk, orb_false_r in Hc. rewrite Hc. by apply IH.
  - by apply IH.
Qed.

Lemma leading_digits_all ds :
  forallb Char.digit ds = true -> leading_digits ds = length ds.
Proof.
  induction ds as [|c r IH]; simpl; [done|].
  intros [Hc Hr]%andb_prop. rewrite Hc. by rewrite IH.
Qed.

Lemma strict_grouping_digits ds :
  forallb Char.digit ds = true -> strict_grouping ds = false.
Proof.
  intros Hds. unfold strict_grouping.
  rewrite (leading_digits_all _ Hds), drop_all.
  rewrite bool_decide_eq_true_2 by done. simpl.
  by rewrite andb_false_r.
Qed.

(** what the numeric pass leaves of a token is a token again, and is
    left alone by a second pass *)
Lemma strip_separators_run s y :
  digit_run y = [] ->
  digit_run (strip_separators (digit_run s) ++ y)
  = strip_separators (digit_run s).
Proof.
  intros Hy. unfold strip_separators.
  destruct (strict_grouping (digit_run s)).
  - apply digit_run_app_digits; [|done].
    apply filter_commas_digits, digit_run_chars.
  - by apply digit_run_app_run.
Qed.

Lemma strip_separators_idem s :
  strip_separators (strip_separators (digit_run s))
  = strip_separators (digit_run s).
Proof.
  unfold strip_separators.
  destruct (strict_grouping (digit_run s)) eqn:Hs.
  - rewrite strict_grouping_digits; [done|].
    apply filter_commas_digits, digit_run_chars.
  - by rewrite Hs.
Qed.

Lemma strip_separators_head c r :
  Char.digit c = true ->
  exists t, strip_separators (digit_run (c :: r)) = c :: t.
Proof.
  intros Hc. unfold strip_separators. simpl. rewrite Hc.
  destruct (strict_grouping _); [|eauto].
  rewrite filter_cons.
  rewrite decide_True by (by apply digit_not_comma). eauto.
Qed.

(** *** The normaliser, one step at a time *)

Section Steps.
Variable cfg : TransformConfig.

Lemma normalize_from_nil b : normalize_from cfg b [] = [].
Proof.
  unfold normalize_from, rewrite_pass. simpl.
  by destruct (renderLatex cfg).
Qed.

Lemma normalize_from_plain b b' s :
  renderLatex cfg = false ->
  normalize_from cfg b s = normalize_from cfg b' s.
Proof. intros H. unfold normalize_from, rewrite_pass. by rewrite H. Qed.

Lemma normalize_from_span b s cat n :
  span_at s = Some (cat, n) ->
  normalize_from cfg b s
  = take n s ++ normalize_from cfg false (drop n s).
Proof.
  intros Hs. unfold normalize_from, rewrite_pass.
  rewrite (scan_span _ _ _ Hs). simpl.
  by destruct (renderLatex cfg).
Qed.

Lemma normalize_from_number b c r :
  span_at (c :: r) = None -> Char.digit c = true ->
  normalize_from cfg b (c :: r)
  = strip_separators (digit_run (c :: r))
      ++ normalize_from cfg false
           (drop (length (digit_run (c :: r))) (c :: r)).
Proof.
  intros Hs Hd. unfold normalize_from, rewrite_pass.
  rewrite (scan_number _ _ Hs Hd).
  cbn [numeric_pass map escape_pass].
  by destruct (renderLatex cfg).
Qed.

Lemma normalize_from_other b c r :
  span_at (c :: r) = None -> Char.digit c = false ->
  normalize_from cfg b (c :: r)
  = (if escapes cfg b c then [escape_marker; c] else [c])
      ++ normalize_from cfg (is_marker c) r.
Proof.
  intros Hs Hd. unfold normalize_from, rewrite_pass, escapes.
  rewrite (scan_other _ _ Hs Hd).
  cbn [numeric_pass map escape_pass].
  destruct (renderLatex cfg); simpl; [|done].
  destruct (reserved c) eqn:Hr; simpl; [|done].
  destruct b; simpl; [done|].
  by rewrite (reserved_not_marker _ Hr).
Qed.

(** the output starts with the first input character, or with the
    escape marker put in front of it *)
Lemma normalize_from_head b c r :
  exists y,
    normalize_from cfg b (c :: r) = c :: y
    \/ (reserved c = true
        /\ normalize_from cfg b (c :: r) = escape_marker :: c :: y).
Proof.
  destruct (span_at (c :: r)) as [[cat n]|] eqn:Hs.
  - rewrite (normalize_from_span _ _ _ _ Hs).
    apply span_at_bound in Hs. destruct n as [|n]; [lia|].
    simpl. eauto.
  - destruct (Char.digit c) eqn:Hd.
    + rewrite (normalize_from_number _ _ _ Hs Hd).
      destruct (strip_separators_head c r Hd) as [t ->]. simpl. eauto.
    + rewrite (normalize_from_other _ _ _ Hs Hd).
      unfold escapes.
      destruct (reserved c) eqn:Hr; simpl.
      * destruct (renderLatex cfg && true && negb b); simpl; eauto.
      * rewrite andb_false_r. simpl. eauto.
Qed.

Lemma digit_run_normalize b s :
  digit_run s = [] -> digit_run (normalize_from cfg b s) = [].
Proof.
  destruct s as [|c r]; [by rewrite normalize_from_nil|].
  intros Hrun.
  destruct (digit_run_cases c r)
    as [[Hc Hrn] | [(Hc & Hk & d & r' & -> & Hd & Hrn) | (Hc & _ & Hk)]];
    [congruence..|].
  destruct (is_comma c) eqn:Hkc.
  - rewrite normalize_from_other;
      [|by apply span_at_opener, comma_not_opener|done].
    unfold escapes. rewrite (comma_not_reserved _ Hkc), andb_false_r.
    cbn [andb app]. apply digit_run_stop; [done|]. intros _.
    destruct r as [|d r']; [by rewrite normalize_from_nil|].
    specialize (Hk eq_refl).
    destruct (normalize_from_head (is_marker c) d r')
      as [y [-> | [_ ->]]]; [done|apply marker_not_digit].
  - destruct (normalize_from_head b c r) as [y [-> | [_ ->]]].
    + apply digit_run_stop; [done|intros; congruence].
    + apply digit_run_stop; [apply marker_not_digit|].
      intros H. discriminate H.
Qed.

Lemma charge_len_normalize b s :
  charge_len s = 0 -> charge_len (normalize_from cfg b s) = 0.
Proof.
  destruct s as [|c r]; [by rewrite normalize_from_nil|].
  simpl. destruct (charge_char c) eqn:Hc; [done|]. intros _.
  destruct (normalize_from_head b c r) as [y [-> | [_ ->]]]; simpl.
  - by rewrite Hc.
  - done.
Qed.

End Steps.

(** *** A span depends only on its own characters

    A span found at the front of a text is found again, with the same
    category and length, when the text after it is replaced; for a
    chemistry formula the new text must not start with a charge
    character, which would extend the suffix. *)

Lemma until_close_local s n y :
  until_close s = Some n -> until_close (take n s ++ y) = Some n.
Proof.
  revert n. induction s as [|c r IH]; intros n; simpl; [discriminate|].
  destruct (is_close_brace c) eqn:Hc.
  - intros ?; simplify_eq. simpl. by rewrite Hc.
  - intros (m & Hm & ->)%fmap_Some. simpl. rewrite Hc.
    by rewrite (IH _ Hm).
Qed.

Lemma charge_len_take s y :
  charge_len y = 0 -> charge_len (take (charge_len s) s ++ y) = charge_len s.
Proof.
  intros Hy. induction s as [|c r IH]; simpl; [done|].
  destruct (charge_char c) eqn:Hc; simpl; [|done].
  by rewrite Hc, IH.
Qed.

Lemma charge_len_drop s : charge_len (drop (charge_len s) s) = 0.
Proof.
  induction s as [|c r IH]; simpl; [done|].
  destruct (charge_char c) eqn:Hc; simpl; [done|]. by rewrite Hc.
Qed.

Lemma chem_tail_local s n y :
  chem_tail s = Some n -> charge_len y = 0 ->
  chem_tail (take n s ++ y) = Some n.
Proof.
  intros Hs Hy. revert n Hs.
  induction s as [|c r IH]; intros n; simpl; [discriminate|].
  destruct (Char.eq "]" c) eqn:Hc.
  - intros ?; simplify_eq. simpl. rewrite Hc.
    by rewrite charge_len_take.
  - destruct (Char.alnum c) eqn:Ha; [|discriminate].
    intros (m & Hm & ->)%fmap_Some. simpl. rewrite Hc, Ha.
    by rewrite (IH _ Hm).
Qed.

Lemma chem_tail_rest s n :
  chem_tail s = Some n -> charge_len (drop n s) = 0.
Proof.
  revert n. induction s as [|c r IH]; intros n; simpl; [discriminate|].
  destruct (Char.eq "]" c) eqn:Hc.
  - intros ?; simplify_eq. simpl. apply charge_len_drop.
  - destruct (Char.alnum c) eqn:Ha; [|discriminate].
    intros (m & Hm & ->)%fmap_Some. simpl. by apply IH.
Qed.

Lemma tuple_tail_local close seen tok s n y :
  tuple_tail close seen tok s = Some n ->
  tuple_tail close seen tok (take n s ++ y) = Some n.
Proof.
  revert seen tok n.
  induction s as [|c r IH]; intros seen tok n; simpl; [discriminate|].
  destruct (Char.eq close c) eqn:Hc.
  - destruct (seen && tok) eqn:Hst; [|discriminate].
    intros ?; simplify_eq. simpl. by rewrite Hc, Hst.
  - destruct (is_comma c) eqn:Hk.
    + destruct tok; [|discriminate].
      intros (m & Hm & ->)%fmap_Some. simpl. rewrite Hc, Hk.
      by rewrite (IH _ _ _ Hm).
    + destruct (tuple_char c) eqn:Ht; [|discriminate].
      intros (m & Hm & ->)%fmap_Some. simpl. rewrite Hc, Hk, Ht.
      by rewrite (IH _ _ _ Hm).
Qed.

(** the letters-and-digits walk of a chemistry formula cannot succeed
    inside a tuple that it failed on *)
Lemma chem_tail_tuple s n seen tok y :
  tuple_tail "]" seen tok s = Some n -> chem_tail s = None ->
  chem_tail (take n s ++ y) = None.
Proof.
  revert seen tok n.
  induction s as [|c r IH]; intros seen tok n; simpl; [discriminate|].
  destruct (Char.eq "]" c) eqn:Hc; [discriminate|].
  destruct (is_comma c) eqn:Hk.
  - destruct tok; [|discriminate].
    intros (m & Hm & ->)%fmap_Some. simpl. rewrite Hc.
    destruct (Char.alnum c) eqn:Ha; [|done].
    exfalso. revert Hk Ha. clear. by_cases_on c.
  - destruct (tuple_char c) eqn:Ht; [|discriminate].
    intros (m & Hm & ->)%fmap_Some. simpl. rewrite Hc.
    destruct (Char.alnum c); [|done].
    intros Hr. destruct (chem_tail r) eqn:Hcr; [discriminate|].
    by rewrite (IH _ _ _ Hm).
Qed.

Lemma script_len_local s n y :
  script_len s = Some n -> script_len (take n s ++ y) = Some n.
Proof.
  unfold script_len. destruct s as [|c0 [|c1 body]]; try discriminate.
  destruct (_ && _) eqn:H01; [|discriminate].
  destruct body as [|c2 r]; [discriminate|].
  destruct (is_close_brace c2) eqn:H2; [discriminate|].
  intros (m & Hm & ->)%fmap_Some.
  pose proof (until_close_bound _ _ Hm) as Hb.
  pose proof (until_close_local _ _ y Hm) as Hl.
  destruct m as [|m]; [lia|].
  cbn [take Nat.add app] in *. rewrite H01, H2. by rewrite Hl.
Qed.

Lemma chem_len_local s n y :
  chem_len s = Some n -> charge_len y = 0 ->
  chem_len (take n s ++ y) = Some n.
Proof.
  unfold chem_len. destruct s as [|c0 [|c1 r]]; try discriminate.
  destruct (_ && _) eqn:H01; [|discriminate].
  intros (m & Hm & ->)%fmap_Some Hy.
  cbn [take Nat.add app]. rewrite H01.
  by rewrite (chem_tail_local _ _ _ Hm Hy).
Qed.

Lemma chem_len_rest s n :
  chem_len s = Some n -> charge_len (drop n s) = 0.
Proof.
  unfold chem_len. destruct s as [|c0 [|c1 r]]; try discriminate.
  destruct (_ && _) eqn:H01; [|discriminate].
  intros (m & Hm & ->)%fmap_Some. simpl. by apply chem_tail_rest.
Qed.

Lemma tuple_len_local s n y :
  tuple_len s = Some n -> tuple_len (take n s ++ y) = Some n.
Proof.
  unfold tuple_len. destruct s as [|c0 r]; try discriminate.
  destruct (closer_of c0) as [close|] eqn:Hcl; [|discriminate].
  intros (m & Hm & ->)%fmap_Some.
  cbn [take app]. rewrite Hcl.
  by rewrite (tuple_tail_local _ _ _ _ _ _ Hm).
Qed.

Lemma script_len_head c r n :
  script_len (c :: r) = Some n ->
  Char.eq "^" c || Char.eq "_" c = true.
Proof.
  unfold script_len. destruct r as [|c1 body]; [discriminate|].
  destruct (Char.eq "^" c || Char.eq "_" c); [done|discriminate].
Qed.

Lemma chem_len_head c r n :
  chem_len (c :: r) = Some n -> Char.eq "[" c = true.
Proof.
  unfold chem_len. destruct r as [|c1 body]; [discriminate|].
  destruct (Char.eq "[" c); [done|discriminate].
Qed.

Lemma tuple_len_head c r n :
  tuple_len (c :: r) = Some n ->
  Char.eq "[" c || Char.eq "(" c = true.
Proof.
  unfold tuple_len, closer_of.
  destruct (Char.eq "[" c); [done|].
  destruct (Char.eq "(" c); [done|discriminate].
Qed.

Lemma script_len_not_bracket c r :
  Char.eq "[" c || Char.eq "(" c = true -> script_len (c :: r) = None.
Proof.
  intros Hc. destruct (script_len (c :: r)) eqn:Hs; [|done].
  apply script_len_head in Hs. exfalso. revert Hc Hs. clear.
  by_cases_on c.
Qed.

Lemma span_at_local s cat n y :
  span_at s = Some (cat, n) ->
  (cat = chemistry_formula -> charge_len y = 0) ->
  span_at (take n s ++ y) = Some (cat, n).
Proof.
  unfold span_at. intros Hs Hy.
  destruct (script_len s) eqn:H1.
  { simplify_eq. by rewrite (script_len_local _ _ y H1). }
  destruct s as [|c r]; [discriminate|].
  destruct (chem_len (c :: r)) eqn:H2.
  { simplify_eq. pose proof (chem_len_bound _ _ H2) as Hb.
    pose proof (chem_len_head _ _ _ H2) as Hh.
    rewrite (chem_len_local _ _ y H2) by auto.
    destruct n as [|n]; [lia|]. cbn [take app].
    rewrite script_len_not_bracket; [done|]. by rewrite Hh. }
  destruct (tuple_len (c :: r)) eqn:H3; [|discriminate].
  simplify_eq. pose proof (tuple_len_bound _ _ H3) as Hb.
  pose proof (tuple_len_head _ _ _ H3) as Hh.
  rewrite (tuple_len_local _ _ y H3).
  destruct n as [|n]; [lia|]. cbn [take app].
  rewrite script_len_not_bracket by done.
  assert (chem_len (c :: take n r ++ y) = None) as ->; [|done].
  revert H2 H3. unfold chem_len, tuple_len, closer_of.
  destruct (Char.eq "[" c) eqn:Hc; [|by destruct (take n r ++ y)].
  destruct r as [|c1 r']; [discriminate|].
  intros H2 (m & Hm & ?)%fmap_Some. simplify_eq.
  cbn [andb take app] in *.
  revert Hm. cbn [tuple_tail].
  destruct (Char.eq "]" c1) eqn:Hc1; [discriminate|].
  destruct (is_comma c1) eqn:Hk1; [discriminate|].
  destruct (tuple_char c1); [|discriminate].
  intros (k & Hk & ->)%fmap_Some. cbn [take app].
  destruct (Char.upper c1) eqn:Hu; [|done].
  destruct (chem_tail r') eqn:Hcr; [discriminate|].
  by rewrite (chem_tail_tuple _ _ _ _ y Hk Hcr).
Qed.

Lemma span_at_chem_rest s n :
  span_at s = Some (chemistry_formula, n) -> charge_len (drop n s) = 0.
Proof.
  unfold span_at.
  destruct (script_len s); [discriminate|].
  destruct (chem_len s) eqn:H2.
  { intros ?; simplify_eq. by apply chem_len_rest. }
  destruct (tuple_len s); discriminate.
Qed.

(** *** What the passes do to the text outside the spans *)

Lemma rewritten_any d o n : rewritten false o n -> rewritten d o n.
Proof. inversion 1; subst; by constructor. Qed.

Lemma rewritten_app x d o n :
  rewritten false o n -> rewritten d (x ++ o) (x ++ n).
Proof.
  intros H. revert d. induction x as [|c x IH]; intros d; simpl.
  - by apply rewritten_any.
  - apply rw_keep, IH.
Qed.

Lemma rewritten_run s y y' :
  rewritten true y y' ->
  rewritten true (digit_run s ++ y)
    (filter (fun c => is_comma c = false) (digit_run s) ++ y').
Proof.
  intros Hy. induction s as [|c r IH]; [done|].
  destruct (digit_run_cases c r)
    as [[Hc ->] | [(Hc & Hk & e & r' & -> & He & ->) | (Hc & -> & _)]].
  - rewrite filter_cons, decide_True by (by apply digit_not_comma).
    simpl. apply rw_keep. by rewrite Hc.
  - rewrite filter_cons, decide_False by (by rewrite Hk).
    rewrite (digit_run_digit _ _ He) in *. simpl.
    by apply rw_strip.
  - done.
Qed.

Section Rewritten.
Variable cfg : TransformConfig.

Lemma normalize_from_rewritten s :
  forall b, rewritten false s (normalize_from cfg b s).
Proof.
  induction s as [s IH] using (induction_ltof1 _ (@length ascii)).
  unfold ltof in IH. intros b.
  destruct s as [|c r]; [rewrite normalize_from_nil; constructor|].
  destruct (span_at (c :: r)) as [[cat n]|] eqn:Hs.
  - rewrite (normalize_from_span _ _ _ _ _ Hs).
    pose proof (span_at_bound _ _ _ Hs) as Hn.
    rewrite <- (take_drop n (c :: r)) at 1.
    apply rewritten_app, IH. rewrite length_drop. simpl in *. lia.
  - destruct (Char.digit c) eqn:Hd.
    + rewrite (normalize_from_number _ _ _ _ Hs Hd).
      rewrite <- (digit_run_prefix (c :: r)) at 1.
      set (rest := drop _ _).
      assert (rewritten false rest (normalize_from cfg false rest)) as Hr.
      { apply IH. subst rest. rewrite length_drop.
        rewrite (digit_run_digit _ _ Hd). simpl. lia. }
      unfold strip_separators. destruct (strict_grouping _).
      * rewrite (digit_run_digit _ _ Hd).
        rewrite filter_cons, decide_True by (by apply digit_not_comma).
        simpl. apply rw_keep. rewrite Hd.
        by apply rewritten_run, rewritten_any.
      * by apply rewritten_app.
    + rewrite (normalize_from_other _ _ _ _ Hs Hd).
      assert (rewritten false r (normalize_from cfg (is_marker c) r))
        as Hr by (apply IH; simpl; lia).
      destruct (escapes cfg b c) eqn:He.
      * unfold escapes in He.
        apply andb_prop in He as [[_ He]%andb_prop _].
        simpl. by apply rw_escape.
      * simpl. by apply rw_keep, rewritten_any.
Qed.
End Rewritten.

(** *** A group that is a span after the passes was one before *)

Lemma until_close_rewritten d o n :
  rewritten d o n -> is_Some (until_close n) -> is_Some (until_close o).
Proof.
  induction 1 as [d|d c o n H IH|d c o n Hc H IH|c e o n Hc He H IH];
    cbn [until_close]; try done.
  - destruct (is_close_brace c); [done|].
    rewrite !fmap_is_Some. apply IH.
  - assert (is_close_brace escape_marker = false) as -> by done.
    assert (is_close_brace c = false) as ->
        by (revert Hc; clear; by_cases_on c).
    rewrite !fmap_is_Some. apply IH.
  - intros Hn. specialize (IH Hn). cbn [until_close] in IH.
    assert (is_close_brace c = false) as ->
        by (revert Hc; clear; by_cases_on c).
    by rewrite fmap_is_Some.
Qed.

Lemma tuple_tail_seen close seen tok s :
  is_Some (tuple_tail close seen tok s) ->
  is_Some (tuple_tail close true tok s).
Proof.
  revert seen tok. induction s as [|c r IH]; intros seen tok; simpl;
    [done|].
  destruct (Char.eq close c).
  { destruct seen, tok; simpl; try done; by intros [? ?]. }
  destruct (is_comma c); [done|].
  destruct (tuple_char c); [|done].
  rewrite !fmap_is_Some. apply IH.
Qed.

Section Closer.
Variable close : ascii.
Hypothesis close_plain :
  forall c, Char.eq close c = true ->
            is_comma c = false /\ Char.digit c = false
            /\ is_marker c = false.

Lemma close_not_comma c : is_comma c = true -> Char.eq close c = false.
Proof.
  intros Hc. destruct (Char.eq close c) eqn:H; [|done].
  apply close_plain in H. destruct H; congruence.
Qed.

Lemma close_not_digit c :
  Char.digit c = true -> Char.eq close c = false.
Proof.
  intros Hc. destruct (Char.eq close c) eqn:H; [|done].
  apply close_plain in H. destruct H as (_ & ? & _); congruence.
Qed.

Lemma close_not_marker : Char.eq close escape_marker = false.
Proof.
  destruct (Char.eq close escape_marker) eqn:H; [|done].
  apply close_plain in H. destruct H as (_ & _ & ?); done.
Qed.

Lemma tuple_tail_rewritten d o n :
  rewritten d o n ->
  forall seen tok,
    (d = true -> tok = true) ->
    is_Some (tuple_tail close seen tok n) ->
    is_Some (tuple_tail close seen tok o).
Proof.
  induction 1 as [d|d c o n H IH|d c o n Hc H IH|c e o n Hc He H IH];
    intros seen tok Hd; try done.
  - cbn [tuple_tail].
    destruct (Char.eq close c); [done|].
    destruct (is_comma c) eqn:Hk.
    + destruct tok; [|done]. rewrite !fmap_is_Some. apply IH.
      intros Hdc. apply digit_not_comma in Hdc. congruence.
    + destruct (tuple_char c); [|done].
      rewrite !fmap_is_Some. by apply IH.
  - cbn [tuple_tail]. rewrite close_not_marker.
    assert (is_comma escape_marker = false) as -> by done.
    assert (tuple_char escape_marker = false) as -> by done.
    by intros [? ?].
  - intros Hn. rewrite (Hd eq_refl) in *.
    apply tuple_tail_seen in Hn. specialize (IH true true (fun _ => eq_refl) Hn).
    cbn [tuple_tail] in *.
    rewrite (close_not_comma _ Hc), Hc.
    rewrite (close_not_digit _ He), (digit_not_comma _ He) in *.
    rewrite (alnum_tuple _ (digit_alnum _ He)) in *.
    by rewrite fmap_is_Some.
Qed.
End Closer.

Lemma square_plain c :
  Char.eq "]" c = true ->
  is_comma c = false /\ Char.digit c = false /\ is_marker c = false.
Proof. by_cases_on c. Qed.

Lemma round_plain c :
  Char.eq ")" c = true ->
  is_comma c = false /\ Char.digit c = false /\ is_marker c = false.
Proof. by_cases_on c. Qed.

Lemma closer_plain c0 close :
  closer_of c0 = Some close ->
  forall c, Char.eq close c = true ->
            is_comma c = false /\ Char.digit c = false
            /\ is_marker c = false.
Proof.
  unfold closer_of. destruct (Char.eq "[" c0).
  { intros ?; simplify_eq. apply square_plain. }
  destruct (Char.eq "(" c0); [|discriminate].
  intros ?; simplify_eq. apply round_plain.
Qed.

Lemma alnum_not_square c : Char.alnum c = true -> Char.eq "]" c = false.
Proof. by_cases_on c. Qed.

Lemma alnum_not_comma c : Char.alnum c = true -> is_comma c = false.
Proof. by_cases_on c. Qed.

Lemma chem_tail_as_tuple d o n :
  rewritten d o n -> is_Some (chem_tail n) ->
  is_Some (tuple_tail "]" true true o).
Proof.
  induction 1 as [d|d c o n H IH|d c o n Hc H IH|c e o n Hc He H IH];
    try done.
  - cbn [chem_tail tuple_tail].
    destruct (Char.eq "]" c); [done|].
    destruct (Char.alnum c) eqn:Ha; [|by intros [? ?]].
    rewrite (alnum_not_comma _ Ha), (alnum_tuple _ Ha).
    rewrite !fmap_is_Some. apply IH.
  - cbn [chem_tail].
    assert (Char.eq "]" escape_marker = false) as -> by done.
    assert (Char.alnum escape_marker = false) as -> by done.
    by intros [? ?].
  - intros Hn. specialize (IH Hn). cbn [tuple_tail] in *.
    rewrite (close_not_comma _ square_plain _ Hc), Hc.
    rewrite (close_not_digit _ square_plain _ He) in *.
    rewrite (digit_not_comma _ He) in *.
    rewrite (alnum_tuple _ (digit_alnum _ He)) in *.
    by rewrite fmap_is_Some.
Qed.

Lemma chem_tail_rewritten d o n :
  rewritten d o n -> is_Some (chem_tail n) ->
  is_Some (chem_tail o) \/ is_Some (tuple_tail "]" false true o).
Proof.
  induction 1 as [d|d c o n H IH|d c o n Hc H IH|c e o n Hc He H IH];
    try (by left).
  - cbn [chem_tail tuple_tail].
    destruct (Char.eq "]" c); [by left|].
    destruct (Char.alnum c) eqn:Ha; [|by left].
    rewrite (alnum_not_comma _ Ha), (alnum_tuple _ Ha).
    rewrite !fmap_is_Some. apply IH.
  - cbn [chem_tail].
    assert (Char.eq "]" escape_marker = false) as -> by done.
    assert (Char.alnum escape_marker = false) as -> by done.
    by intros [? ?].
  - intros Hn. right.
    pose proof (chem_tail_as_tuple _ _ _ H Hn) as Ht.
    cbn [tuple_tail] in *.
    rewrite (close_not_comma _ square_plain _ Hc), Hc.
    rewrite (close_not_digit _ square_plain _ He) in *.
    rewrite (digit_not_comma _ He) in *.
    rewrite (alnum_tuple _ (digit_alnum _ He)) in *.
    by rewrite fmap_is_Some.
Qed.

Lemma span_at_is_Some s :
  is_Some (span_at s) <->
  is_Some (script_len s) \/ is_Some (chem_len s) \/ is_Some (tuple_len s).
Proof.
  unfold span_at.
  destruct (script_len s); [by split; eauto|].
  destruct (chem_len s); [by split; eauto|].
  destruct (tuple_len s); [by split; eauto|].
  split; [by intros [? ?]|]. by intros [[? ?]|[[? ?]|[? ?]]].
Qed.

Lemma upper_facts c :
  Char.upper c = true ->
  Char.digit c = false /\ is_marker c = false /\ Char.eq "]" c = false
  /\ is_comma c = false /\ tuple_char c = true.
Proof. by_cases_on c. Qed.

Lemma open_brace_facts c :
  Char.eq "{" c = true -> Char.digit c = false /\ is_marker c = false.
Proof. by_cases_on c. Qed.

Lemma reserved_not_close c :
  reserved c = true -> is_close_brace c = false.
Proof. by_cases_on c. Qed.

Lemma script_len_rewritten c o n :
  rewritten false o n ->
  is_Some (script_len (c :: n)) -> is_Some (script_len (c :: o)).
Proof.
  intros H. unfold script_len.
  destruct n as [|c1 body]; [by intros [? ?]|].
  destruct ((Char.eq "^" c || Char.eq "_" c) && Char.eq "{" c1) eqn:H01;
    [|by intros [? ?]].
  apply andb_prop in H01 as [H0 H1].
  destruct (open_brace_facts _ H1) as [Hd1 Hm1].
  destruct body as [|c2 body']; [by intros [? ?]|].
  destruct (is_close_brace c2) eqn:H2; [by intros [? ?]|].
  rewrite fmap_is_Some. intros Hn.
  inversion H as [|? ? o1 ? Hk| |]; subst; [|done].
  rewrite Hd1 in Hk. rewrite H0, H1. cbn [andb].
  pose proof (until_close_rewritten _ _ _ Hk Hn) as Ho.
  inversion Hk as [|? ? o2 ? Hk2|? c' o2 ? Hc' Hk2|]; subst.
  - rewrite H2. by rewrite fmap_is_Some.
  - rewrite (reserved_not_close _ Hc'). by rewrite fmap_is_Some.
Qed.

Lemma chem_len_rewritten c o n :
  rewritten false o n ->
  is_Some (chem_len (c :: n)) ->
  is_Some (chem_len (c :: o)) \/ is_Some (tuple_len (c :: o)).
Proof.
  intros H. unfold chem_len, tuple_len, closer_of.
  destruct n as [|c1 n']; [by intros [? ?]|].
  destruct (Char.eq "[" c) eqn:H0; [|by intros [? ?]].
  destruct (Char.upper c1) eqn:H1; [|by intros [? ?]].
  cbn [andb]. rewrite fmap_is_Some. intros Hn.
  destruct (upper_facts _ H1) as (Hd1 & Hm1 & Hs1 & Hk1 & Ht1).
  inversion H as [|? ? o1 ? Hk| |]; subst; [|done].
  rewrite Hd1 in Hk. rewrite H1.
  destruct (chem_tail_rewritten _ _ _ Hk Hn) as [Ho|Ho].
  - left. by rewrite fmap_is_Some.
  - right. cbn [tuple_tail]. rewrite Hs1, Hk1, Ht1.
    by rewrite !fmap_is_Some.
Qed.

Lemma tuple_len_rewritten c o n :
  rewritten false o n ->
  is_Some (tuple_len (c :: n)) -> is_Some (tuple_len (c :: o)).
Proof.
  intros H. unfold tuple_len.
  destruct (closer_of c) as [close|] eqn:Hcl; [|done].
  rewrite !fmap_is_Some.
  apply (tuple_tail_rewritten close (closer_plain _ _ Hcl) _ _ _ H).
  done.
Qed.

(** where no span starts before the passes, none starts after them *)
Lemma span_at_rewritten c o n :
  rewritten false o n ->
  span_at (c :: o) = None -> span_at (c :: n) = None.
Proof.
  intros H Ho. destruct (span_at (c :: n)) eqn:Hn; [|done].
  assert (is_Some (span_at (c :: o))) as [x Hx]; [|congruence].
  apply span_at_is_Some.
  assert (is_Some (span_at (c :: n))) as Hsn by eauto.
  apply span_at_is_Some in Hsn as [Hs|[Hs|Hs]].
  - left. by apply (script_len_rewritten _ _ _ H).
  - right. by apply (chem_len_rewritten _ _ _ H).
  - right; right. by apply (tuple_len_rewritten _ _ _ H).
Qed.

(** *** Idempotence *)

Section Idempotence.
Variable cfg : TransformConfig.

Lemma normalize_from_token b f y c t :
  Char.digit c = true -> f = c :: t -> digit_run (f ++ y) = f ->
  normalize_from cfg b (f ++ y)
  = strip_separators f ++ normalize_from cfg false y.
Proof.
  intros Hd -> Hrun. rewrite <- app_comm_cons in *.
  rewrite normalize_from_number;
    [|by apply span_at_opener, digit_not_opener|done].
  rewrite Hrun. by rewrite app_comm_cons, drop_app_length.
Qed.

Lemma normalize_from_idempotent s :
  forall b,
    normalize_from cfg b (normalize_from cfg b s)
    = normalize_from cfg b s.
Proof.
  induction s as [s IH] using (induction_ltof1 _ (@length ascii)).
  unfold ltof in IH. intros b.
  destruct s as [|c r]; [by rewrite !normalize_from_nil|].
  destruct (span_at (c :: r)) as [[cat n]|] eqn:Hs.
  - (* a protected span *)
    rewrite (normalize_from_span _ _ _ _ _ Hs).
    pose proof (span_at_bound _ _ _ Hs) as Hn.
    set (x := take n (c :: r)). set (rest := drop n (c :: r)).
    assert (length x = n) as Hx by (subst x; rewrite length_take; lia).
    assert (span_at (x ++ normalize_from cfg false rest) = Some (cat, n))
      as Hs'.
    { apply span_at_local; [done|]. intros ->.
      by apply charge_len_normalize, span_at_chem_rest. }
    rewrite (normalize_from_span _ _ _ _ _ Hs').
    rewrite take_app_length', drop_app_length' by done.
    rewrite IH; [done|]. subst rest. rewrite length_drop. lia.
  - destruct (Char.digit c) eqn:Hd.
    + (* a numeric token *)
      rewrite (normalize_from_number _ _ _ _ Hs Hd).
      set (run := digit_run (c :: r)).
      set (rest := drop (length run) (c :: r)).
      set (y := normalize_from cfg false rest).
      assert (digit_run y = []) as Hy.
      { apply digit_run_normalize, digit_run_rest. }
      destruct (strip_separators_head c r Hd) as [t Ht].
      fold run in Ht.
      pose proof (strip_separators_run (c :: r) y Hy) as Hrun.
      fold run in Hrun.
      rewrite (normalize_from_token _ _ _ c t Hd Ht Hrun).
      unfold run at 1 2. rewrite strip_separators_idem. fold run.
      subst y. rewrite IH; [done|].
      subst rest run. rewrite length_drop.
      rewrite (digit_run_digit _ _ Hd). simpl. lia.
    + (* any other character *)
      rewrite (normalize_from_other _ _ _ _ Hs Hd).
      set (y := normalize_from cfg (is_marker c) r).
      assert (span_at (c :: y) = None) as Hs'.
      { apply (span_at_rewritten c r); [|done].
        apply normalize_from_rewritten. }
      assert (normalize_from cfg (is_marker c) y = y) as Hy.
      { subst y. apply IH. simpl. lia. }
      destruct (escapes cfg b c) eqn:He.
      * cbn [app].
        rewrite normalize_from_other;
          [|by apply span_at_opener, marker_not_opener
           |by apply marker_not_digit].
        assert (escapes cfg b escape_marker = false) as ->.
        { unfold escapes. assert (reserved escape_marker = false) as ->
              by done.
          by rewrite andb_false_r. }
        assert (is_marker escape_marker = true) as -> by done.
        cbn [app]. rewrite (normalize_from_other _ _ _ _ Hs' Hd).
        assert (escapes cfg true c = false) as ->.
        { unfold escapes. by rewrite andb_false_r. }
        cbn [app]. by rewrite Hy.
      * cbn [app]. rewrite (normalize_from_other _ _ _ _ Hs' Hd).
        rewrite He. cbn [app]. by rewrite Hy.
Qed.

Lemma normalize_text_idempotent s :
  normalize_text cfg (normalize_text cfg s) = normalize_text cfg s.
Proof. apply normalize_from_idempotent. Qed.
End Idempotence.

(** *** The script marker and the patterns of [validate_latex_notation] *)

Section ScriptPattern.
Import Re.
Context {R : Type}.
Variable k0 : option ascii -> list ascii -> option R.
Hypothesis k0_total : forall p s, is_Some (k0 p s).

Lemma star_loop_until fuel prev s :
  length s <= fuel ->
  is_Some (star_loop (run (Cls not_close_brace))
             (fun p s' => run (Chr "}") p s' k0) fuel prev s)
  <-> is_Some (until_close s).
Proof.
  revert prev s. induction fuel as [|fuel IH]; intros prev s Hlen.
  { destruct s; simpl in *; [|lia]. split; by intros [? ?]. }
  cbn [star_loop]. destruct s as [|c r].
  { simpl. split; by intros [? ?]. }
  cbn [run Chr until_close].
  unfold not_close_brace, is_close_brace.
  destruct (Char.eq "}" c) eqn:Hc; cbn [negb].
  { split; eauto. }
  assert ((length r <? length (c :: r))%nat = true) as ->.
  { apply Nat.ltb_lt. simpl. lia. }
  rewrite fmap_is_Some, <- (IH (Some c) r) by (simpl in *; lia).
  destruct (star_loop _ _ _ _ _); [by split; eauto|].
  split; by intros [? ?].
Qed.

Lemma run_script_re c0 prev s :
  is_Some (run (script_re c0) prev s k0)
  <-> match s with
      | c :: c1 :: c2 :: r =>
          Char.eq c0 c = true /\ Char.eq "{" c1 = true
          /\ is_close_brace c2 = false /\ is_Some (until_close r)
      | _ => False
      end.
Proof.
  unfold script_re, Plus. cbn [run Chr].
  destruct s as [|c [|c1 [|c2 r]]];
    try (destruct (Char.eq c0 c));
    try (destruct (Char.eq "{" c1));
    try (split; [by intros [? ?]|intuition congruence]).
  unfold not_close_brace at 1, is_close_brace.
  destruct (Char.eq "}" c2); cbn [negb];
    [split; [by intros [? ?]|intuition congruence]|].
  change (fun (prev' : option ascii) (s' : list ascii) =>
            match s' with
            | [] => None
            | c3 :: s'0 => if Char.eq "}" c3 then k0 (Some c3) s'0 else None
            end)
    with (fun p s' => run (Chr "}") p s' k0).
  rewrite star_loop_until by done. tauto.
Qed.
End ScriptPattern.

Lemma super_re_script_re : super_re = script_re "^".
Proof. reflexivity. Qed.

Lemma sub_re_script_re : sub_re = script_re "_".
Proof. reflexivity. Qed.

Lemma match_at_script_re c0 prev s :
  is_Some (Re.match_at (script_re c0) prev s)
  <-> match s with
      | c :: c1 :: c2 :: r =>
          Char.eq c0 c = true /\ Char.eq "{" c1 = true
          /\ is_close_brace c2 = false /\ is_Some (until_close r)
      | _ => False
      end.
Proof. unfold Re.match_at. apply run_script_re. eauto. Qed.

Lemma script_len_shape s :
  is_Some (script_len s)
  <-> match s with
      | c :: c1 :: c2 :: r =>
          (Char.eq "^" c = true \/ Char.eq "_" c = true)
          /\ Char.eq "{" c1 = true
          /\ is_close_brace c2 = false /\ is_Some (until_close r)
      | _ => False
      end.
Proof.
  unfold script_len.
  destruct s as [|c [|c1 [|c2 r]]]; try (split; [by intros [? ?]|done]).
  - destruct (_ && _); split; (by intros [? ?]) || done.
  - cbn [until_close].
    destruct (Char.eq "^" c), (Char.eq "_" c), (Char.eq "{" c1),
      (is_close_brace c2); cbn [orb andb]; rewrite ?fmap_is_Some;
      try (split; [by intros [? ?]|]); intuition congruence.
Qed.

Lemma script_len_match_at prev s :
  is_Some (script_len s)
  <-> is_Some (Re.match_at super_re prev s)
      \/ is_Some (Re.match_at sub_re prev s).
Proof.
  rewrite super_re_script_re, sub_re_script_re.
  rewrite !match_at_script_re, script_len_shape.
  destruct s as [|c [|c1 [|c2 r]]]; tauto.
Qed.

Lemma search_from_is_Some r pos prev s :
  is_Some (Re.search_from r pos prev s)
  <-> is_Some (Re.match_at r prev s)
      \/ match s with
         | [] => False
         | c :: s' => is_Some (Re.search_from r (S pos) (Some c) s')
         end.
Proof.
  destruct s as [|c s']; cbn [Re.search_from];
    destruct (Re.match_at r prev _).
  - split; eauto.
  - split; [by intros [? ?]|]. intros [[? ?]|[]]; done.
  - split; eauto.
  - split; [by right|]. intros [[? ?]|H]; done.
Qed.

Lemma has_script_search s :
  forall pos1 pos2 prev,
    has_script s = true
    <-> is_Some (Re.search_from super_re pos1 prev s)
        \/ is_Some (Re.search_from sub_re pos2 prev s).
Proof.
  induction s as [|c s IH]; intros pos1 pos2 prev;
    rewrite (search_from_is_Some super_re pos1 prev),
      (search_from_is_Some sub_re pos2 prev).
  - pose proof (script_len_match_at prev []) as Hm.
    cbn [has_script]. destruct (script_len []) eqn:Hs.
    + split; [|done]. intros _.
      destruct (proj1 Hm) as [H|H]; eauto.
    + split; [done|]. intros [[H|[]]|[H|[]]].
      * destruct (proj2 Hm); eauto; done.
      * destruct (proj2 Hm); eauto; done.
  - pose proof (script_len_match_at prev (c :: s)) as Hm.
    cbn [has_script]. destruct (script_len (c :: s)) eqn:Hs.
    + split; [|done]. intros _.
      destruct (proj1 Hm) as [H|H]; eauto.
    + rewrite (IH (S pos1) (S pos2) (Some c)).
      split; [tauto|]. intros [[H|H]|[H|H]]; eauto.
      * destruct (proj2 Hm); eauto; done.
      * destruct (proj2 Hm); eauto; done.
Qed.

(** *** The tie-break between chemistry formula and coordinate tuple *)

Lemma chem_tail_body body rest :
  forallb not_square body = true ->
  is_Some (chem_tail (body ++ "]"%char :: rest))
  <-> forallb Char.alnum body = true.
Proof.
  induction body as [|c body IH]; cbn [app chem_tail forallb].
  { intros _. assert (Char.eq "]" "]" = true) as -> by done.
    split; eauto. }
  intros [Hc Hb]%andb_prop. unfold not_square in Hc.
  apply negb_true_iff in Hc. rewrite Hc.
  destruct (Char.alnum c); cbn [andb].
  - rewrite fmap_is_Some. by apply IH.
  - split; [by intros [? ?]|done].
Qed.

Lemma chemistry_wins_iff content rest :
  (forallb not_square content = true
   /\ exists n,
       span_at ("["%char :: content ++ "]"%char :: rest)
       = Some (chemistry_formula, n))
  <-> element_symbol content = true.
Proof.
  unfold span_at.
  rewrite script_len_not_bracket by done.
  unfold chem_len, element_symbol.
  destruct content as [|u body].
  { cbn [app]. assert (Char.eq "[" "[" && Char.upper "]" = false) as ->
        by done.
    split; [|done]. intros [_ [n Hn]].
    destruct (tuple_len _); discriminate. }
  cbn [app forallb]. assert (Char.eq "[" "[" = true) as -> by done.
  cbn [andb]. destruct (Char.upper u) eqn:Hu; cbn [andb].
  - destruct (upper_facts _ Hu) as (_ & _ & Hs & _).
    unfold not_square at 1. rewrite Hs. cbn [negb andb].
    split.
    + intros [Hb [n Hn]]. apply (chem_tail_body body rest Hb).
      destruct (chem_tail _); [eauto|].
      cbn [fmap option_fmap option_map] in Hn.
      destruct (tuple_len _); discriminate.
    + intros Ha.
      assert (forallb not_square body = true) as Hb.
      { apply forallb_forall. intros c Hc.
        rewrite forallb_forall in Ha. unfold not_square.
        by rewrite (alnum_not_square _ (Ha _ Hc)). }
      split; [done|].
      destruct (proj2 (chem_tail_body body rest Hb) Ha) as [m ->].
      cbn [fmap option_fmap option_map]. eauto.
  - split; [|done]. intros [_ [n Hn]].
    destruct (tuple_len _); discriminate.
Qed.

(** *** Numeric tokens outside the strict shape *)




(** *** The examples of the specification, section 8 *)

Lemma specification_examples :
  let cfg := Sheet.call_config in
  contains "[CH3]+" (text (normalize "Compute [CH3]+ concentration" cfg))
  = true
  /\ text (normalize "The answer is 12,500 units" cfg)
     = "The answer is 12500 units"
  /\ contains "[3, -2]" (text (normalize "Point at [3, -2]" cfg)) = true
  /\ normalize "x^{2+} is the ion" cfg = mkResult "x^{2+} is the ion" true
  /\ normalize "" cfg = mkResult "" false
  /\ text (normalize "[Na, Cl]" cfg) = "[Na, Cl]"
  /\ text (normalize "50% of a_b" cfg) = "50\% of a\_b".
Proof. repeat split; vm_compute; reflexivity. Qed.

End NormalizerFacts.
(** ** Facts about the processing loop *)

Module SheetFacts.
Import Sheet Notions.

Local Arguments text_fields : simpl never.

Section Loop.
Variable pre : normaliser.

(** one field: the frame is kept, and the log grows by the text of the
    field when it is a present column with a value *)
Lemma process_field_spec row st field st' :
  process_field pre row st field = Some st' ->
  frame st' = frame st
  /\ calls st' = calls st ++ text_value (columns (frame st)) row field.
Proof.
  unfold process_field, text_value.
  destruct (bool_decide (field ∈ columns (frame st))).
  - destruct (row !! field) as [v|]; simpl; [|discriminate].
    destruct (notna v); intros ?; simplify_eq; simpl.
    + done.
    + by rewrite app_nil_r.
  - intros ?; simplify_eq. by rewrite app_nil_r.
Qed.

Lemma process_fields_spec row fields :
  forall st st',
    process_fields pre row st fields = Some st' ->
    frame st' = frame st
    /\ calls st'
       = calls st
           ++ flat_map (text_value (columns (frame st)) row) fields.
Proof.
  induction fields as [|f fs IH]; intros st st'; simpl.
  - intros ?; simplify_eq. by rewrite app_nil_r.
  - destruct (process_field pre row st f) as [st1|] eqn:H1;
      simpl; [|discriminate].
    intros H2. apply process_field_spec in H1 as [Hf1 Hc1].
    apply IH in H2 as [Hf2 Hc2].
    split; [congruence|].
    rewrite Hc2, Hc1, Hf1. by rewrite app_assoc.
Qed.

Lemma process_rows_spec rs :
  forall st st',
    process_rows pre st rs = Some st' ->
    frame st' = frame st
    /\ calls st'
       = calls st ++ flat_map (row_texts (columns (frame st))) rs.
Proof.
  induction rs as [|row rs IH]; intros st st'; cbn [process_rows flat_map].
  - intros ?; simplify_eq. by rewrite app_nil_r.
  - destruct (process_fields pre row st text_fields) as [st1|] eqn:H1;
      simpl; [|discriminate].
    intros H2. apply process_fields_spec in H1 as [Hf1 Hc1].
    apply IH in H2 as [Hf2 Hc2].
    split; [congruence|].
    rewrite Hc2, Hc1, Hf1. unfold row_texts. by rewrite app_assoc.
Qed.

(** *** Frames with the same text fields run alike *)

Lemma process_field_sim r1 r2 st1 st2 f :
  sim st1 st2 ->
  (f ∈ columns (frame st1) <-> f ∈ columns (frame st2)) ->
  r1 !! f = r2 !! f ->
  osim (process_field pre r1 st1 f) (process_field pre r2 st2 f).
Proof.
  intros [Hobs Hcols] Hf Hr. unfold process_field.
  rewrite (bool_decide_ext _ _ Hf), Hr.
  pose proof Hobs as Hobs'.
  unfold observe in Hobs. injection Hobs as Hn Hc.
  destruct (bool_decide (f ∈ columns (frame st2))); [|by split].
  destruct (r2 !! f) as [v|]; simpl; [|done].
  destruct (notna v); [|by split].
  split; [|done]. unfold observe. simpl. by rewrite Hn, Hc.
Qed.

Lemma sim_frame st1 st2 st1' st2' :
  sim st1 st2 -> frame st1' = frame st1 -> frame st2' = frame st2 ->
  observe st1' = observe st2' -> sim st1' st2'.
Proof. intros [_ H] H1 H2 Ho. split; [done|]. by rewrite H1, H2. Qed.

Lemma process_fields_sim r1 r2 fields :
  Forall (fun f => r1 !! f = r2 !! f) fields ->
  forall st1 st2,
    sim st1 st2 ->
    Forall (fun f => f ∈ columns (frame st1) <-> f ∈ columns (frame st2))
           fields ->
    osim (process_fields pre r1 st1 fields)
         (process_fields pre r2 st2 fields).
Proof.
  induction 1 as [|f fs Hf Hfs IH]; intros st1 st2 Hsim Hcols; simpl.
  { done. }
  apply Forall_cons in Hcols as [Hc Hcs].
  pose proof (process_field_sim r1 r2 st1 st2 f Hsim Hc Hf) as H.
  destruct (process_field pre r1 st1 f) as [a|] eqn:Ha,
           (process_field pre r2 st2 f) as [b|] eqn:Hb;
    simpl in *; try done.
  apply process_field_spec in Ha as [Ha _].
  apply process_field_spec in Hb as [Hb _].
  apply IH; [done|]. by rewrite Ha, Hb.
Qed.

Lemma process_rows_sim rs1 rs2 :
  Forall2 (fun r1 r2 : gmap string cell =>
             Forall (fun f => r1 !! f = r2 !! f) text_fields) rs1 rs2 ->
  forall st1 st2,
    sim st1 st2 ->
    osim (process_rows pre st1 rs1) (process_rows pre st2 rs2).
Proof.
  induction 1 as [|r1 r2 rs1 rs2 Hr Hrs IH]; intros st1 st2 Hsim;
    cbn [process_rows].
  { done. }
  pose proof (process_fields_sim r1 r2 text_fields Hr st1 st2 Hsim
                (proj2 Hsim)) as H.
  destruct (process_fields pre r1 st1 text_fields) as [a|] eqn:Ha,
           (process_fields pre r2 st2 text_fields) as [b|] eqn:Hb;
    simpl in *; try done.
  by apply IH.
Qed.

Lemma osim_observe o1 o2 :
  osim o1 o2 -> observe <$> o1 = observe <$> o2.
Proof.
  destruct o1, o2; simpl; try done. intros [H _]. by rewrite H.
Qed.

(** *** The loop does not fail on a well-formed frame *)

Lemma process_field_total row st field :
  Forall (fun c => is_Some (row !! c)) (columns (frame st)) ->
  is_Some (process_field pre row st field).
Proof.
  intros Hrow. unfold process_field.
  destruct (bool_decide (field ∈ columns (frame st))) eqn:Hin; [|eauto].
  apply bool_decide_eq_true_1 in Hin.
  rewrite Forall_forall in Hrow.
  destruct (Hrow _ Hin) as [v ->]. simpl.
  destruct (notna v); eauto.
Qed.

Lemma process_fields_total row fields :
  forall st,
    Forall (fun c => is_Some (row !! c)) (columns (frame st)) ->
    is_Some (process_fields pre row st fields).
Proof.
  induction fields as [|f fs IH]; intros st Hrow; simpl; [eauto|].
  destruct (process_field_total row st f Hrow) as [st1 H1].
  rewrite H1. simpl. apply IH.
  apply process_field_spec in H1 as [-> _]. done.
Qed.

Lemma process_rows_total rs :
  forall st,
    Forall (fun row : gmap string cell =>
              Forall (fun c => is_Some (row !! c)) (columns (frame st)))
           rs ->
    is_Some (process_rows pre st rs).
Proof.
  induction rs as [|row rs IH]; intros st Hrs; cbn [process_rows];
    [eauto|].
  apply Forall_cons in Hrs as [Hrow Hrs].
  destruct (process_fields_total row text_fields st Hrow) as [st1 H1].
  rewrite H1. simpl. apply IH.
  apply process_fields_spec in H1 as [-> _]. done.
Qed.

Lemma missing_cols_nil df :
  Forall (fun c => c ∈ columns df) required_cols -> missing_cols df = [].
Proof.
  unfold missing_cols. generalize required_cols.
  induction 1 as [|c cs Hc Hcs IH]; [done|].
  rewrite filter_cons, decide_False by (by intros ?). done.
Qed.
End Loop.

End SheetFacts.
(** ** The claims *)

Import ValidateFixes Normalizer Sheet Notions.

Ltac each_config cfg := destruct cfg as [[] [] [] []].

(** C1: the chemistry detector is documented to recognise groups such as
    [[CH3]] and [[NH4]+], but its pattern allows only lowercase letters and
    digits after the leading uppercase letter: on
    "Compute [CH3]+ concentration" neither [validate_chemistry_brackets]
    nor the example scan of [process_public_sheet] finds chemistry
    notation, while the normaliser keeps [[CH3]+] verbatim. *)
Theorem chemistry_detector_misses_CH3 :
  validate_chemistry_brackets "Compute [CH3]+ concentration" = None
  /\ validate_chemistry_brackets "[CH3]" = None
  /\ validate_chemistry_brackets "[NH4]" = None
  /\ chemistry_examples
       (find_examples (sample_frame "Compute [CH3]+ concentration" "")) = []
  /\ forall cfg,
       contains "[CH3]+"
         (text (normalize "Compute [CH3]+ concentration" cfg)) = true.
Proof.
  repeat split; try (vm_compute; reflexivity).
  intros cfg. each_config cfg; vm_compute; reflexivity.
Qed.

(** C2: the normaliser is idempotent: for every string and every
    configuration, normalising the normalised text again returns it
    unchanged. *)
Theorem normalize_idempotent (s : string) (cfg : TransformConfig) :
  text (normalize (text (normalize s cfg)) cfg) = text (normalize s cfg).
Proof.
  unfold normalize. cbn [text]. unfold chars.
  rewrite list_ascii_of_string_of_list_ascii.
  by rewrite NormalizerFacts.normalize_text_idempotent.
Qed.

(** C3: on "[Na, Cl]" the coordinate detector matches and the chemistry
    detector does not; the normaliser tags the group as a coordinate tuple
    and keeps it, comma included.  In general a square-bracket group is
    tagged as a chemistry formula exactly when its content has the
    element-symbol shape, which has no comma. *)
Theorem Na_Cl_is_a_coordinate_tuple (cfg : TransformConfig) :
  validate_chemistry_brackets "[Na, Cl]" = None
  /\ snd (validate_commas "[Na, Cl]") = Some (0, 8)
  /\ scan (chars "[Na, Cl]") = [Protected coordinate_tuple (chars "[Na, Cl]")]
  /\ text (normalize "[Na, Cl]" cfg) = "[Na, Cl]"
  /\ forall content rest,
       (forallb not_square content = true
        /\ exists n,
            span_at ("["%char :: content ++ "]"%char :: rest)
            = Some (chemistry_formula, n))
       <-> element_symbol content = true.
Proof.
  split; [vm_compute; reflexivity|].
  split; [vm_compute; reflexivity|].
  split; [vm_compute; reflexivity|].
  split; [each_config cfg; vm_compute; reflexivity|].
  apply NormalizerFacts.chemistry_wins_iff.
Qed.

(** C4: "The answer is 12,500 units" is normalised to a text that contains
    12500 and no longer 12,500; the thousand-separator pattern matches the
    input and finds strictly fewer matches in the output. *)
Theorem thousand_separator_stripped (cfg : TransformConfig) :
  let input := "The answer is 12,500 units" in
  let output := text (normalize input cfg) in
  contains "12500" output = true
  /\ contains "12,500" output = false
  /\ fst (validate_commas input) = Some (14, 20)
  /\ length (thousand_matches output) < length (thousand_matches input).
Proof.
  each_config cfg; vm_compute; repeat split; lia.
Qed.

(** C5: "x^{2+} is the ion" is returned unchanged, with [^{2+}] in it and
    [hasLatex] set; and for every input, [hasLatex] is set exactly when one
    of the two patterns of [validate_latex_notation] matches the output. *)
Theorem hasLatex_iff_script_marker (cfg : TransformConfig) :
  text (normalize "x^{2+} is the ion" cfg) = "x^{2+} is the ion"
  /\ contains "^{2+}" (text (normalize "x^{2+} is the ion" cfg)) = true
  /\ hasLatex (normalize "x^{2+} is the ion" cfg) = true
  /\ forall s,
       hasLatex (normalize s cfg) = true
       <-> is_Some (fst (validate_latex_notation (text (normalize s cfg))))
           \/ is_Some (snd (validate_latex_notation (text (normalize s cfg)))).
Proof.
  split; [|split; [|split]].
  - each_config cfg; vm_compute; reflexivity.
  - each_config cfg; vm_compute; reflexivity.
  - each_config cfg; vm_compute; reflexivity.
  - intros s. unfold normalize, validate_latex_notation.
    cbn [text hasLatex fst snd]. unfold chars.
    rewrite list_ascii_of_string_of_list_ascii.
    apply NormalizerFacts.has_script_search.
Qed.




(** C7: on a frame whose rows carry its columns, the processing loop
    runs to its end and hands to the normaliser exactly the present,
    non-missing values of Body Text, Answer and Title, row by row; a second
    frame that agrees with it on these three columns gives the same calls
    and the same count, whatever the other columns hold. *)
Theorem only_text_fields_normalised
        (pre : normaliser) (df1 df2 : DataFrame) :
  well_formed df1 ->
  same_text_fields df1 df2 ->
  text_fields = ["Body Text"; "Answer"; "Title"]
  /\ exists st1 st2,
       process_rows pre (mkState df1 0 []) (rows df1) = Some st1
       /\ calls st1 = flat_map (row_texts (columns df1)) (rows df1)
       /\ process_rows pre (mkState df2 0 []) (rows df2) = Some st2
       /\ observe st2 = observe st1.
Proof.
  intros Hwf [Hcols Hrows]. split; [reflexivity|].
  destruct (SheetFacts.process_rows_total pre (rows df1) (mkState df1 0 [])
              Hwf) as [st1 Hst1].
  assert (sim (mkState df1 0 []) (mkState df2 0 [])) as Hsim by (by split).
  pose proof (SheetFacts.process_rows_sim pre (rows df1) (rows df2) Hrows
                _ _ Hsim) as Hrun.
  rewrite Hst1 in Hrun.
  destruct (process_rows pre (mkState df2 0 []) (rows df2)) as [st2|] eqn:Hst2;
    [|done].
  exists st1, st2. split; [done|]. split.
  - by apply SheetFacts.process_rows_spec in Hst1 as [_ ->].
  - split; [done|]. destruct Hrun as [Hobs _]. by rewrite Hobs.
Qed.

Lemma only_text_fields_normalised_witness :
  well_formed (sample_frame "12,500" "a")
  /\ same_text_fields (sample_frame "12,500" "a") (sample_frame "12,500" "b")
  /\ observe <$> process_rows normalize
                   (mkState (sample_frame "12,500" "a") 0 [])
                   (rows (sample_frame "12,500" "a"))
     = Some (1, ["12,500"; "Ions"])
  /\ exists st1 st2,
       process_rows normalize (mkState (sample_frame "12,500" "a") 0 [])
         (rows (sample_frame "12,500" "a")) = Some st1
       /\ calls st1
          = flat_map (row_texts (columns (sample_frame "12,500" "a")))
              (rows (sample_frame "12,500" "a"))
       /\ process_rows normalize (mkState (sample_frame "12,500" "b") 0 [])
            (rows (sample_frame "12,500" "b")) = Some st2
       /\ observe st2 = observe st1.
Proof.
  assert (well_formed (sample_frame "12,500" "a")) as H1.
  { repeat constructor; vm_compute; eauto. }
  assert (same_text_fields (sample_frame "12,500" "a")
            (sample_frame "12,500" "b")) as H2.
  { split; repeat constructor; vm_compute; tauto. }
  split; [exact H1|]. split; [exact H2|].
  split; [vm_compute; reflexivity|].
  exact (proj2 (only_text_fields_normalised normalize _ _ H1 H2)).
Defined.

(** C8: a field whose value is missing is skipped by the processing loop:
    the state is left as it was, so the normaliser is not called on it and
    the count does not move. *)
Theorem missing_field_skipped
        (pre : normaliser) (row : gmap string cell) (st : loop_state)
        (field : string) :
  row !! field = Some NaN ->
  process_field pre row st field = Some st.
Proof.
  intros H. unfold process_field. rewrite H. simpl.
  by destruct (bool_decide _).
Qed.

Lemma missing_field_skipped_witness :
  sample_row "12,500" "" !! "Answer" = Some NaN
  /\ process_field normalize (sample_row "12,500" "")
       (mkState (sample_frame "12,500" "") 0 []) "Answer"
     = Some (mkState (sample_frame "12,500" "") 0 []).
Proof.
  split; [reflexivity|].
  apply (missing_field_skipped normalize). reflexivity.
Defined.

(** C9: on a frame that has all required columns, [process_public_sheet]
    returns the frame it was given, whatever the normaliser did to the
    texts. *)
Theorem frame_returned_unchanged (pre : normaliser) (df : DataFrame) :
  Forall (fun c => c ∈ columns df) required_cols ->
  well_formed df ->
  returned <$> process_public_sheet pre df = Some (Some df).
Proof.
  intros Hreq Hwf. unfold process_public_sheet.
  rewrite (SheetFacts.missing_cols_nil _ Hreq).
  destruct (SheetFacts.process_rows_total pre (rows df) (mkState df 0 []) Hwf)
    as [st Hst].
  rewrite Hst. simpl.
  by apply SheetFacts.process_rows_spec in Hst as [-> _].
Qed.

Lemma frame_returned_unchanged_witness :
  Forall (fun c => c ∈ columns (sample_frame "12,500" "")) required_cols
  /\ well_formed (sample_frame "12,500" "")
  /\ processed <$> process_public_sheet normalize (sample_frame "12,500" "")
     = Some 1
  /\ returned <$> process_public_sheet normalize (sample_frame "12,500" "")
     = Some (Some (sample_frame "12,500" "")).
Proof.
  assert (Forall (fun c => c ∈ columns (sample_frame "12,500" ""))
            required_cols) as H1.
  { repeat constructor; vm_compute; rewrite !elem_of_cons; tauto. }
  assert (well_formed (sample_frame "12,500" "")) as H2.
  { repeat constructor; vm_compute; eauto. }
  split; [exact H1|]. split; [exact H2|].
  split; [vm_compute; reflexivity|].
  exact (frame_returned_unchanged normalize _ H1 H2).
Defined.

(** C10: the coordinate detector does not ask for matching delimiters: a
    group opened with a parenthesis and closed with a square bracket, or
    the other way round, is detected. *)
Theorem coordinates_mixed_delimiters :
  snd (validate_commas "(3, -2]") = Some (0, 7)
  /\ snd (validate_commas "[3, -2)") = Some (0, 7).
Proof. split; vm_compute; reflexivity. Qed.
(** * More properties of the scripts *)

(** ** The matcher and what a pattern matches *)

Module ReFacts.
Import Re Semantics.

Lemma matches_suffix r p s p' s' :
  matches r p s p' s' -> exists w, s = w ++ s'.
Proof.
  induction 1 as [p s|f p c s Hf|a b p s p1 s1 p2 s2 _ [w1 ->] _ [w2 ->]
                 |a b p s p' s' _ IH|a b p s p' s' _ IH|a p s
                 |a p s p1 s1 p2 s2 _ [w1 ->] _ _ [w2 ->]|p s Hb].
  - by exists [].
  - by exists [c].
  - exists (w1 ++ w2). by rewrite app_assoc.
  - done.
  - done.
  - by exists [].
  - exists (w1 ++ w2). by rewrite app_assoc.
  - by exists [].
Qed.

Lemma matches_length r p s p' s' :
  matches r p s p' s' -> length s' <= length s.
Proof.
  intros [w ->]%matches_suffix. rewrite length_app. lia.
Qed.

Section Sound.
Context {R : Type}.

Lemma star_loop_sound (a : regex) :
  (forall p s (k : @cont R) x,
      run a p s k = Some x ->
      exists p' s', matches a p s p' s' /\ k p' s' = Some x) ->
  forall fuel p s (k : @cont R) x,
    star_loop (run a) k fuel p s = Some x ->
    exists p' s', matches (Star a) p s p' s' /\ k p' s' = Some x.
Proof.
  intros IHa. induction fuel as [|fuel IH]; intros p s k x; cbn [star_loop].
  { intros Hk. exists p, s. split; [constructor|done]. }
  destruct (run a p s _) as [y|] eqn:Hrun.
  - intros ?; simplify_eq.
    apply IHa in Hrun as (p1 & s1 & Hm & Hk).
    destruct (length s1 <? length s)%nat eqn:Hlt; [|discriminate].
    apply Nat.ltb_lt in Hlt.
    apply IH in Hk as (p2 & s2 & Hm2 & Hk).
    exists p2, s2. split; [|done]. by eapply m_star_more.
  - intros Hk. exists p, s. split; [constructor|done].
Qed.

(** whatever the matcher returns comes from a match of the pattern *)
Lemma run_sound r :
  forall p s (k : @cont R) x,
    run r p s k = Some x ->
    exists p' s', matches r p s p' s' /\ k p' s' = Some x.
Proof.
  induction r as [|f|a IHa b IHb|a IHa b IHb|a IHa|]; intros p s k x;
    cbn [run].
  - intros Hk. exists p, s. split; [constructor|done].
  - destruct s as [|c s]; [discriminate|].
    destruct (f c) eqn:Hf; [|discriminate].
    intros Hk. exists (Some c), s. split; [by constructor|done].
  - intros (p1 & s1 & Ha & Hb)%IHa.
    apply IHb in Hb as (p2 & s2 & Hb & Hk).
    exists p2, s2. split; [by econstructor|done].
  - destruct (run a p s k) as [y|] eqn:Ha.
    + intros ?; simplify_eq.
      apply IHa in Ha as (p' & s' & Ha & Hk).
      exists p', s'. split; [by apply m_alt_l|done].
    + intros (p' & s' & Hb & Hk)%IHb.
      exists p', s'. split; [by apply m_alt_r|done].
  - by apply star_loop_sound.
  - destruct (at_boundary p s) eqn:Hb; [|discriminate].
    intros Hk. exists p, s. split; [by constructor|done].
Qed.

Lemma star_loop_complete (a : regex) :
  (forall p s p' s' (k : @cont R),
      matches a p s p' s' -> is_Some (k p' s') -> is_Some (run a p s k)) ->
  forall p s p' s' (k : @cont R),
    matches (Star a) p s p' s' ->
    forall fuel,
      length s <= fuel -> is_Some (k p' s') ->
      is_Some (star_loop (run a) k fuel p s).
Proof.
  intros IHa p s p' s' k Hm.
  remember (Star a) as r eqn:Hr.
  induction Hm as [| | | | |a' p s|a' p s p1 s1 p2 s2 Ha _ Hlt Hs IH|];
    try discriminate; injection Hr as ->; intros fuel Hfuel Hk.
  - destruct fuel as [|fuel]; cbn [star_loop]; [done|].
    by destruct (run a p s _).
  - destruct fuel as [|fuel]; [lia|]. cbn [star_loop].
    assert (is_Some (run a p s
              (fun prev' s' =>
                 if (length s' <? length s)%nat
                 then star_loop (run a) k fuel prev' s' else None)))
      as [y ->]; [|eauto].
    apply (IHa _ _ _ _ _ Ha).
    rewrite (proj2 (Nat.ltb_lt _ _) Hlt).
    apply IH; [done|lia|done].
Qed.

(** where the pattern matches and the continuation accepts, the
    matcher returns something *)
Lemma run_complete r :
  forall p s p' s' (k : @cont R),
    matches r p s p' s' -> is_Some (k p' s') -> is_Some (run r p s k).
Proof.
  induction r as [|f|a IHa b IHb|a IHa b IHb|a IHa|];
    intros p s p' s' k Hm Hk; cbn [run].
  - by inversion Hm; subst.
  - inversion Hm as [|? ? c s0 Hf| | | | | |]; subst. by rewrite Hf.
  - inversion Hm as [| |? ? ? ? p1 s1 ? ? Ha Hb| | | | |]; subst.
    apply (IHa _ _ _ _ _ Ha). by apply (IHb _ _ _ _ _ Hb).
  - inversion Hm as [| | |? ? ? ? ? ? Ha|? ? ? ? ? ? Hb| | |]; subst.
    + by destruct (IHa _ _ _ _ _ Ha Hk) as [y ->].
    + destruct (run a p s k); [eauto|]. by apply (IHb _ _ _ _ _ Hb).
  - by apply (star_loop_complete a IHa _ _ _ _ _ Hm).
  - inversion Hm as [| | | | | | |? ? Hb]; subst. by rewrite Hb.
Qed.
End Sound.

(** *** [match_at] *)

Lemma match_at_sound r p s n :
  match_at r p s = Some n ->
  exists p' s', matches r p s p' s' /\ n = length s - length s'.
Proof.
  unfold match_at. intros (p' & s' & Hm & Hk)%run_sound.
  exists p', s'. split; [done|]. by injection Hk.
Qed.

Lemma match_at_complete r p s p' s' :
  matches r p s p' s' -> is_Some (match_at r p s).
Proof. intros Hm. unfold match_at. eapply run_complete; eauto. Qed.

Lemma match_at_None r p s :
  match_at r p s = None <-> forall p' s', ~ matches r p s p' s'.
Proof.
  split.
  - intros Hn p' s' Hm. apply match_at_complete in Hm as [n Hm].
    congruence.
  - intros Hno. destruct (match_at r p s) as [n|] eqn:Hm; [|done].
    apply match_at_sound in Hm as (p' & s' & Hm & _). by destruct (Hno p' s').
Qed.

(** two patterns with the same matches at a place, of which the matcher
    reports the same length *)
Lemma match_at_bound r p s n : match_at r p s = Some n -> n <= length s.
Proof. intros (p' & s' & _ & ->)%match_at_sound. lia. Qed.

(** *** [search] *)

Lemma prev_at_cons prev c pre :
  prev_at prev (c :: pre) = prev_at (Some c) pre.
Proof.
  unfold prev_at. destruct pre as [|d pre]; [done|].
  rewrite last_cons. by destruct (last (d :: pre)).
Qed.

Lemma prev_at_None pre : prev_at None pre = last pre.
Proof. unfold prev_at. by destruct (last pre). Qed.

(** [re.search] reports the leftmost place where the pattern matches *)
Lemma search_from_sound r s :
  forall pos prev a b,
    search_from r pos prev s = Some (a, b) ->
    exists pre rest n,
      s = pre ++ rest /\ a = pos + length pre /\ b = a + n
      /\ match_at r (prev_at prev pre) rest = Some n
      /\ forall pre1 rest1,
           s = pre1 ++ rest1 -> length pre1 < length pre ->
           match_at r (prev_at prev pre1) rest1 = None.
Proof.
  induction s as [|c s IH]; intros pos prev a b; cbn [search_from].
  - destruct (match_at r prev []) as [n|] eqn:Hm; [|discriminate].
    intros ?; simplify_eq. exists [], [], n.
    repeat split; [simpl; lia|done|]. intros ? ? _ Hl. simpl in Hl. lia.
  - destruct (match_at r prev (c :: s)) as [n|] eqn:Hm.
    + intros ?; simplify_eq. exists [], (c :: s), n.
      repeat split; [simpl; lia|done|]. intros ? ? _ Hl. simpl in Hl. lia.
    + intros (pre & rest & n & -> & -> & -> & Hmk & Hbefore)%IH.
      exists (c :: pre), rest, n.
      repeat split; [simpl; lia|by rewrite prev_at_cons|].
      intros [|d pre1] rest1 Heq Hl.
      * simpl in Heq. by subst rest1.
      * simpl in Heq. injection Heq as -> Heq.
        rewrite prev_at_cons. apply Hbefore; [done|]. simpl in Hl. lia.
Qed.

Lemma search_from_complete r pre :
  forall pos prev rest,
    is_Some (match_at r (prev_at prev pre) rest) ->
    is_Some (search_from r pos prev (pre ++ rest)).
Proof.
  induction pre as [|c pre IH]; intros pos prev rest Hm.
  - change (prev_at prev []) with prev in Hm. simpl.
    destruct rest; cbn [search_from]; by destruct Hm as [n ->].
  - rewrite prev_at_cons in Hm. simpl. cbn [search_from].
    destruct (match_at r prev _); [eauto|]. by apply IH.
Qed.

Lemma search_sound r s a b :
  search r s = Some (a, b) ->
  exists pre w post p',
    s = pre ++ w ++ post /\ a = length pre /\ b = length pre + length w
    /\ matches r (last pre) (w ++ post) p' post.
Proof.
  intros (pre & rest & n & -> & -> & -> & Hm & _)%search_from_sound.
  rewrite prev_at_None in Hm.
  apply match_at_sound in Hm as (p' & post & Hm & ->).
  destruct (matches_suffix _ _ _ _ _ Hm) as [w ->].
  exists pre, w, post, p'.
  split; [done|]. split; [done|]. split; [|done].
  rewrite length_app. simpl. lia.
Qed.

Lemma search_complete r pre rest p' post :
  matches r (last pre) rest p' post -> is_Some (search r (pre ++ rest)).
Proof.
  intros Hm. apply search_from_complete. rewrite prev_at_None.
  eapply match_at_complete. exact Hm.
Qed.

(** the match object's span lies within the text *)
Lemma search_bounds r s a b :
  search r s = Some (a, b) -> a <= b <= length s.
Proof.
  intros (pre & w & post & p' & -> & -> & -> & _)%search_sound.
  rewrite !length_app. lia.
Qed.

(** patterns that match the same texts at every place are not told
    apart by [re.search] *)
Lemma search_from_ext r1 r2 s :
  (forall p t, match_at r1 p t = match_at r2 p t) ->
  forall pos prev, search_from r1 pos prev s = search_from r2 pos prev s.
Proof.
  intros Heq. induction s as [|c s IH]; intros pos prev; cbn [search_from];
    rewrite Heq; [done|]. by rewrite IH.
Qed.

Lemma findall_from_ext r1 r2 s :
  (forall p t, match_at r1 p t = match_at r2 p t) ->
  forall skip prev, findall_from r1 skip prev s = findall_from r2 skip prev s.
Proof.
  intros Heq. induction s as [|c s IH]; intros skip prev;
    destruct skip; cbn [findall_from]; rewrite ?Heq; try done.
  destruct (match_at r2 prev (c :: s)); by rewrite IH.
Qed.

(** [re.findall] finds something exactly when [re.search] does *)
Lemma findall_from_nil r s :
  forall pos prev,
    findall_from r 0 prev s = [] <-> search_from r pos prev s = None.
Proof.
  induction s as [|c s IH]; intros pos prev;
    cbn [findall_from search_from];
    by destruct (match_at r prev _).
Qed.

Lemma findall_nil r s : findall r s = [] <-> search r s = None.
Proof. apply findall_from_nil. Qed.

End ReFacts.
(** ** What the patterns of the scripts match *)

Module PatternFacts.
Import Re Semantics ReFacts ValidateFixes Patterns.

Local Arguments Char.eq : simpl never.
Local Arguments Char.digit : simpl never.
Local Arguments Char.upper : simpl never.
Local Arguments Char.lower : simpl never.
Local Arguments Char.word : simpl never.

(** *** Inversion of matches *)

Lemma matches_eps_inv p s p' s' : matches Eps p s p' s' -> p' = p /\ s' = s.
Proof. by inversion 1. Qed.

Lemma matches_cls_inv f p s p' s' :
  matches (Cls f) p s p' s' ->
  exists c, s = c :: s' /\ f c = true /\ p' = Some c.
Proof. inversion 1; subst. eauto. Qed.

Lemma matches_chr_inv c p s p' s' :
  matches (Chr c) p s p' s' -> s = c :: s' /\ p' = Some c.
Proof.
  intros (x & -> & Hx & ->)%matches_cls_inv.
  apply NormalizerFacts.eq_true_iff in Hx as ->. done.
Qed.

Lemma matches_seq_inv a b p s p' s' :
  matches (Seq a b) p s p' s' ->
  exists p1 s1, matches a p s p1 s1 /\ matches b p1 s1 p' s'.
Proof. inversion 1; subst. eauto. Qed.

Lemma matches_alt_inv a b p s p' s' :
  matches (Alt a b) p s p' s' ->
  matches a p s p' s' \/ matches b p s p' s'.
Proof. inversion 1; subst; eauto. Qed.

Lemma matches_wordb_inv p s p' s' :
  matches WordB p s p' s' -> p' = p /\ s' = s /\ at_boundary p s = true.
Proof. by inversion 1. Qed.

Lemma matches_chr c p s : matches (Chr c) p (c :: s) (Some c) s.
Proof. constructor. by apply NormalizerFacts.eq_true_iff. Qed.

(** a repeated class consumes a run of characters of the class *)
Lemma matches_star_cls_inv f p s p' s' :
  matches (Star (Cls f)) p s p' s' ->
  exists w, s = w ++ s' /\ forallb f w = true /\ p' = prev_at p w.
Proof.
  remember (Star (Cls f)) as r eqn:Hr. intros Hm.
  induction Hm as [| | | | |a p s|a p s p1 s1 p2 s2 Ha _ _ _ IH|];
    try discriminate; injection Hr as ->.
  - by exists [].
  - apply matches_cls_inv in Ha as (c & -> & Hc & ->).
    destruct (IH eq_refl) as (w & -> & Hw & ->).
    exists (c :: w). split; [done|]. split.
    + simpl. by rewrite Hc, Hw.
    + by rewrite prev_at_cons.
Qed.

Lemma matches_star_cls f w :
  forallb f w = true ->
  forall p s', matches (Star (Cls f)) p (w ++ s') (prev_at p w) s'.
Proof.
  induction w as [|c w IH]; intros Hw p s'.
  - apply m_star_stop.
  - simpl in Hw. apply andb_prop in Hw as [Hc Hw].
    rewrite prev_at_cons. simpl.
    eapply m_star_more; [by constructor|simpl; lia|by apply IH].
Qed.

Lemma matches_plus_cls_inv f p s p' s' :
  matches (Plus (Cls f)) p s p' s' ->
  exists w, s = w ++ s' /\ forallb f w = true /\ w <> []
            /\ p' = prev_at p w.
Proof.
  unfold Plus. intros (p1 & s1 & Ha & Hs)%matches_seq_inv.
  apply matches_cls_inv in Ha as (c & -> & Hc & ->).
  apply matches_star_cls_inv in Hs as (w & -> & Hw & ->).
  exists (c :: w). split; [done|]. split; [simpl; by rewrite Hc, Hw|].
  split; [done|]. by rewrite prev_at_cons.
Qed.

(** *** The chemistry pattern *)

Lemma chemistry_re_alt : chemistry_re = Alt chemistry_first chemistry_second.
Proof. reflexivity. Qed.

Lemma chemistry_first_inv p s p' s' :
  matches chemistry_first p s p' s' ->
  exists u body,
    s = "["%char :: u :: body ++ "]"%char :: s'
    /\ Char.upper u = true /\ forallb lower_or_digit body = true.
Proof.
  unfold chemistry_first.
  intros (p1 & s1 & (-> & ->)%matches_chr_inv & H)%matches_seq_inv.
  apply matches_seq_inv in H
      as (p2 & s2 & (u & -> & Hu & ->)%matches_cls_inv & H).
  apply matches_seq_inv in H
      as (p3 & s3 & (body & -> & Hb & ->)%matches_star_cls_inv & H).
  apply matches_chr_inv in H as [-> _].
  by exists u, body.
Qed.

Lemma chemistry_first_intro p u body s' :
  Char.upper u = true -> forallb lower_or_digit body = true ->
  exists p',
    matches chemistry_first p ("["%char :: u :: body ++ "]"%char :: s') p' s'.
Proof.
  intros Hu Hb. eexists. unfold chemistry_first.
  eapply m_seq; [apply matches_chr|].
  eapply m_seq; [by constructor|].
  eapply m_seq; [by apply (matches_star_cls _ body Hb)|].
  apply matches_chr.
Qed.

Lemma forallb_weaken (f g : ascii -> bool) w :
  (forall c, f c = true -> g c = true) ->
  forallb f w = true -> forallb g w = true.
Proof.
  intros Hfg. rewrite !forallb_forall. eauto.
Qed.

(** whatever the second alternative matches, the first one matches too *)
Lemma chemistry_second_first p s p' s' :
  matches chemistry_second p s p' s' ->
  exists p'', matches chemistry_first p s p'' s'.
Proof.
  unfold chemistry_second.
  intros (p1 & s1 & (-> & ->)%matches_chr_inv & H)%matches_seq_inv.
  apply matches_seq_inv in H
      as (p2 & s2 & (u & -> & Hu & ->)%matches_cls_inv & H).
  apply matches_seq_inv in H
      as (p3 & s3 & (lows & -> & Hl & ->)%matches_star_cls_inv & H).
  apply matches_seq_inv in H
      as (p4 & s4 & (digs & -> & Hd & _ & ->)%matches_plus_cls_inv & H).
  apply matches_chr_inv in H as [-> _].
  rewrite app_assoc.
  apply chemistry_first_intro; [done|].
  rewrite forallb_app. apply andb_true_intro. split.
  - eapply forallb_weaken; [|exact Hl].
    intros c Hc. unfold lower_or_digit. by rewrite Hc.
  - eapply forallb_weaken; [|exact Hd].
    intros c Hc. unfold lower_or_digit. by rewrite Hc, orb_true_r.
Qed.

(** at every place the matcher reports the same for the whole pattern
    as for its first alternative *)
Lemma chemistry_match_at p s :
  match_at chemistry_re p s = match_at chemistry_first p s.
Proof.
  rewrite chemistry_re_alt. unfold match_at. cbn [run].
  destruct (run chemistry_first p s _) as [n|] eqn:H1; [done|].
  destruct (run chemistry_second p s _) as [n|] eqn:H2; [|done].
  apply run_sound in H2 as (p' & s' & Hm & _).
  apply chemistry_second_first in Hm as [p'' Hm].
  eapply (run_complete _ _ _ _ _
            (fun _ rest => Some (length s - length rest))) in Hm; [|eauto].
  rewrite H1 in Hm. by destruct Hm.
Qed.

(** *** The thousand-separator pattern *)

Ltac invert_matches :=
  repeat match goal with
    | H : matches (Seq _ _) _ _ _ _ |- _ =>
        apply matches_seq_inv in H as (? & ? & ? & H)
    | H : matches (Alt _ _) _ _ _ _ |- _ =>
        apply matches_alt_inv in H as [H|H]
    | H : matches Eps _ _ _ _ |- _ =>
        apply matches_eps_inv in H as [-> ->]
    | H : matches (Chr _) _ _ _ _ |- _ =>
        apply matches_chr_inv in H as [-> ->]
    | H : matches (Cls _) _ _ _ _ |- _ =>
        apply matches_cls_inv in H as (? & -> & ? & ->)
    end.

Lemma digits_1_3_inv p s p' s' :
  matches (Range 1 3 (Cls Char.digit)) p s p' s' ->
  exists lead,
    s = lead ++ s' /\ 1 <= length lead <= 3
    /\ forallb Char.digit lead = true /\ p' = prev_at p lead.
Proof.
  unfold Range. cbn [Times UpTo Nat.sub]. unfold Opt.
  intros H. invert_matches.
  - eexists [_; _; _]. repeat split; simpl; try lia; try done.
    by repeat match goal with
         | Hd : Char.digit _ = true |- _ => rewrite Hd; clear Hd
         end.
  - eexists [_; _]. repeat split; simpl; try lia; try done.
    by repeat match goal with
         | Hd : Char.digit _ = true |- _ => rewrite Hd; clear Hd
         end.
  - eexists [_]. repeat split; simpl; try lia; try done.
    by repeat match goal with
         | Hd : Char.digit _ = true |- _ => rewrite Hd; clear Hd
         end.
Qed.

Lemma comma_group_inv p s p' s' :
  matches comma_group p s p' s' ->
  exists d1 d2 d3,
    s = ","%char :: d1 :: d2 :: d3 :: s'
    /\ Char.digit d1 = true /\ Char.digit d2 = true
    /\ Char.digit d3 = true /\ p' = Some d3.
Proof.
  unfold comma_group. cbn [Times]. intros H. invert_matches.
  eauto 10.
Qed.

Lemma comma_groups_star_inv p s p' s' :
  matches (Star comma_group) p s p' s' ->
  exists w, s = w ++ s' /\ comma_groups w = true
            /\ (w = [] -> p' = p)
            /\ (w <> [] -> exists d, p' = Some d /\ Char.digit d = true).
Proof.
  remember (Star comma_group) as r eqn:Hr. intros Hm.
  induction Hm as [| | | | |a p s|a p s p1 s1 p2 s2 Ha _ _ _ IH|];
    try discriminate; injection Hr as ->.
  - exists []. by repeat split.
  - apply comma_group_inv in Ha
        as (d1 & d2 & d3 & -> & H1 & H2 & H3 & ->).
    destruct (IH eq_refl) as (w & -> & Hw & Hnil & Hcons).
    exists (","%char :: d1 :: d2 :: d3 :: w).
    split; [done|]. split.
    { cbn [comma_groups]. rewrite H1, H2, H3, Hw.
      by assert (Char.eq "," "," = true) as -> by done. }
    split; [done|]. intros _.
    destruct w as [|c w]; [rewrite Hnil by done; eauto|].
    by apply Hcons.
Qed.

Lemma is_word_digit d : Char.digit d = true -> Char.word d = true.
Proof. NormalizerFacts.by_cases_on d. Qed.

Lemma thousand_re_inv p s p' s' :
  matches thousand_re p s p' s' ->
  exists w,
    s = w ++ s' /\ grouped_number w
    /\ at_boundary p s = true /\ is_word p = false
    /\ is_word (head s') = false.
Proof.
  unfold thousand_re.
  intros (p0 & s0 & (-> & -> & Hb)%matches_wordb_inv & H)%matches_seq_inv.
  apply matches_seq_inv in H
      as (p1 & s1 & (lead & -> & Hlen & Hlead & ->)%digits_1_3_inv & H).
  apply matches_seq_inv in H as (p2 & s2 & Hg & H).
  apply matches_wordb_inv in H as (Hp & Hs & Hb'). subst p2 s2.
  change (Plus (Seq (Chr ",") (Times 3 (Cls Char.digit))))
    with (Seq comma_group (Star comma_group)) in Hg.
  apply matches_seq_inv in Hg as (p3 & s3 & Hg1 & Hg).
  apply comma_group_inv in Hg1 as (d1 & d2 & d3 & -> & H1 & H2 & H3 & ->).
  apply comma_groups_star_inv in Hg as (w & -> & Hw & Hnil & Hcons).
  exists (lead ++ ","%char :: d1 :: d2 :: d3 :: w).
  split; [by rewrite <- app_assoc|].
  split.
  { exists lead, (","%char :: d1 :: d2 :: d3 :: w).
    repeat split; try done; try lia.
    cbn [comma_groups]. rewrite H1, H2, H3, Hw.
    by assert (Char.eq "," "," = true) as -> by done. }
  split; [done|].
  assert (exists d, p' = Some d /\ Char.digit d = true) as (d & -> & Hd).
  { destruct w as [|c w]; [rewrite Hnil by done; eauto|]. by apply Hcons. }
  unfold at_boundary in Hb'. cbn [is_word] in Hb'.
  rewrite (is_word_digit _ Hd) in Hb'.
  destruct lead as [|l0 lead]; [simpl in Hlen; lia|].
  simpl in Hlead. apply andb_prop in Hlead as [Hl0 _].
  unfold at_boundary in Hb. cbn [app head is_word] in Hb.
  rewrite (is_word_digit _ Hl0) in Hb.
  split.
  - by destruct (is_word p).
  - by destruct (is_word (head s')).
Qed.

(** *** The coordinate pattern *)

Lemma coordinates_re_inv p s p' s' :
  matches coordinates_re p s p' s' ->
  exists a b, s = a ++ ","%char :: b ++ s'.
Proof.
  unfold coordinates_re.
  intros (p0 & s0 & (o & -> & _ & ->)%matches_cls_inv & H)%matches_seq_inv.
  apply matches_seq_inv in H
      as (p1 & s1 & (w1 & -> & _ & _ & ->)%matches_plus_cls_inv & H).
  apply matches_seq_inv in H
      as (p2 & s2 & (-> & ->)%matches_chr_inv & H).
  apply matches_seq_inv in H
      as (p3 & s3 & (w2 & -> & _ & _ & ->)%matches_plus_cls_inv & H).
  apply matches_cls_inv in H as (c & -> & _ & ->).
  exists (o :: w1), (w2 ++ [c]). simpl. by rewrite <- !app_assoc.
Qed.

(** *** Substrings *)

Lemma starts_with_app n rest : starts_with n (n ++ rest) = true.
Proof.
  induction n as [|c n IH]; [done|]. simpl.
  by rewrite Ascii.eqb_refl, IH.
Qed.

Lemma occurs_in_app pre n post : occurs_in n (pre ++ n ++ post) = true.
Proof.
  induction pre as [|c pre IH].
  - simpl. destruct (n ++ post) eqn:E.
    + cbn [occurs_in]. rewrite <- E. by rewrite starts_with_app.
    + cbn [occurs_in]. rewrite <- E. by rewrite starts_with_app.
  - simpl. cbn [occurs_in]. rewrite IH. apply orb_true_r.
Qed.

Lemma occurs_in_char c pre post : occurs_in [c] (pre ++ c :: post) = true.
Proof. apply (occurs_in_app pre [c] post). Qed.

(** *** [re.findall] *)

Lemma findall_from_elem r s :
  forall skip prev w,
    w ∈ findall_from r skip prev s ->
    exists p rest n, match_at r p rest = Some n /\ w = take n rest.
Proof.
  induction s as [|c s IH]; intros skip prev w;
    destruct skip as [|skip]; cbn [findall_from].
  - destruct (match_at r prev []) as [n|] eqn:Hm.
    + intros ->%list_elem_of_singleton. eauto.
    + by intros ?%elem_of_nil.
  - by intros ?%elem_of_nil.
  - destruct (match_at r prev (c :: s)) as [n|] eqn:Hm.
    + intros [->|Hin]%elem_of_cons; [eauto|]. by apply IH in Hin.
    + apply IH.
  - apply IH.
Qed.

(** *** The chemistry detector as a whole *)

Lemma chemistry_search_first (text : string) :
  validate_chemistry_brackets text = search chemistry_first (chars text).
Proof. apply ReFacts.search_from_ext. apply chemistry_match_at. Qed.

Lemma chemistry_search_iff (text : string) :
  is_Some (validate_chemistry_brackets text)
  <-> exists pre u body post,
        chars text = pre ++ "["%char :: u :: body ++ "]"%char :: post
        /\ Char.upper u = true /\ forallb lower_or_digit body = true.
Proof.
  rewrite chemistry_search_first. split.
  - intros [[a b] (pre & w & post & p' & Hs & _ & _ & Hm)%ReFacts.search_sound].
    apply chemistry_first_inv in Hm as (u & body & Hw & Hu & Hb).
    exists pre, u, body, post. by rewrite Hs, Hw.
  - intros (pre & u & body & post & -> & Hu & Hb).
    destruct (chemistry_first_intro (last pre) u body post Hu Hb)
      as [p' Hm].
    by apply ReFacts.search_complete in Hm.
Qed.

End PatternFacts.

(** ** Facts about the example scans *)

Module ScanFacts.
Import Re ValidateFixes Sheet Notions MoreNotions.

Lemma chars_string_of_list (l : list ascii) :
  chars (string_of_list_ascii l) = l.
Proof. apply list_ascii_of_string_of_list_ascii. Qed.

Lemma string_of_chars (s : string) : string_of_list_ascii (chars s) = s.
Proof. apply string_of_list_ascii_of_string. Qed.

Lemma chars_inj (s t : string) : chars s = chars t -> s = t.
Proof.
  intros H. rewrite <- (string_of_chars s), <- (string_of_chars t).
  by rewrite H.
Qed.

Lemma chars_append (s t : string) : chars (s +:+ t) = chars s ++ chars t.
Proof. induction s as [|c s IH]; simpl; [done|]. by rewrite <- IH. Qed.

Lemma str_take_length n t : length (chars (str_take n t)) <= n.
Proof.
  unfold str_take. rewrite chars_string_of_list, length_take. lia.
Qed.

Lemma str_take_short n t : length (chars t) <= n -> str_take n t = t.
Proof.
  intros H. unfold str_take. rewrite take_ge by done. apply string_of_chars.
Qed.

Lemma str_take_idemp n t : str_take n (str_take n t) = str_take n t.
Proof. apply str_take_short, str_take_length. Qed.

(** *** One text *)

Lemma scan_text_chemistry ex t :
  chemistry_examples (scan_text ex t)
  = if chemistry_test t then append_new t (chemistry_examples ex)
    else chemistry_examples ex.
Proof.
  unfold scan_text, chemistry_test.
  destruct (contains "[" t && contains "]" t); simpl;
    destruct (search chemistry_re (chars t)) as [m|] eqn:Hm; simpl;
    rewrite ?bool_decide_eq_true_2 by eauto;
    rewrite ?bool_decide_eq_false_2 by (by intros [? ?]);
    destruct (contains "," t && existsb Char.digit (chars t));
    destruct (contains "^{" t || contains "_{" t); done.
Qed.

Lemma scan_text_comma ex t :
  comma_examples (scan_text ex t)
  = if comma_test t then append_new t (comma_examples ex)
    else comma_examples ex.
Proof.
  unfold scan_text, comma_test.
  destruct (contains "[" t && contains "]" t); simpl;
    destruct (search chemistry_re (chars t)) as [m|]; simpl;
    destruct (contains "," t && existsb Char.digit (chars t));
    destruct (contains "^{" t || contains "_{" t); done.
Qed.

Lemma scan_text_latex ex t :
  latex_examples (scan_text ex t)
  = if latex_test t then append_new t (latex_examples ex)
    else latex_examples ex.
Proof.
  unfold scan_text, latex_test.
  destruct (contains "[" t && contains "]" t); simpl;
    destruct (search chemistry_re (chars t)) as [m|]; simpl;
    destruct (contains "," t && existsb Char.digit (chars t));
    destruct (contains "^{" t || contains "_{" t); done.
Qed.

(** *** The whole frame *)

Lemma foldl_flat_map {A B C} (f : A -> B -> A) (g : C -> list B) l :
  forall a,
    foldl f a (flat_map g l) = foldl (fun a x => foldl f a (g x)) a l.
Proof.
  induction l as [|x l IH]; intros a; simpl; [done|].
  by rewrite foldl_app, IH.
Qed.

Lemma find_examples_texts df :
  find_examples df = foldl scan_text (mkExamples [] [] []) (scanned_texts df).
Proof.
  unfold find_examples, scanned_texts. by rewrite foldl_flat_map.
Qed.

Lemma foldl_scan_chemistry ts :
  forall ex,
    chemistry_examples (foldl scan_text ex ts)
    = collect chemistry_test (chemistry_examples ex) ts.
Proof.
  induction ts as [|t ts IH]; intros ex; [done|].
  cbn [foldl]. rewrite IH, scan_text_chemistry. done.
Qed.

Lemma foldl_scan_comma ts :
  forall ex,
    comma_examples (foldl scan_text ex ts)
    = collect comma_test (comma_examples ex) ts.
Proof.
  induction ts as [|t ts IH]; intros ex; [done|].
  cbn [foldl]. rewrite IH, scan_text_comma. done.
Qed.

Lemma foldl_scan_latex ts :
  forall ex,
    latex_examples (foldl scan_text ex ts)
    = collect latex_test (latex_examples ex) ts.
Proof.
  induction ts as [|t ts IH]; intros ex; [done|].
  cbn [foldl]. rewrite IH, scan_text_latex. done.
Qed.

Lemma find_examples_chemistry df :
  chemistry_examples (find_examples df)
  = collect chemistry_test [] (scanned_texts df).
Proof. by rewrite find_examples_texts, foldl_scan_chemistry. Qed.

Lemma find_examples_comma df :
  comma_examples (find_examples df)
  = collect comma_test [] (scanned_texts df).
Proof. by rewrite find_examples_texts, foldl_scan_comma. Qed.

Lemma find_examples_latex df :
  latex_examples (find_examples df)
  = collect latex_test [] (scanned_texts df).
Proof. by rewrite find_examples_texts, foldl_scan_latex. Qed.

Lemma scanned_texts_elem df t :
  t ∈ scanned_texts df
  <-> exists row field,
        row ∈ rows df /\ field ∈ text_fields /\ t = get_str row field.
Proof.
  unfold scanned_texts, text_fields.
  induction (rows df) as [|row rs IH]; cbn [flat_map].
  - split; [by intros ?%elem_of_nil|].
    by intros (? & ? & ?%elem_of_nil & _).
  - rewrite elem_of_app, IH. split.
    + intros [Ht|(r & f & Hr & Hf & ->)].
      * exists row. rewrite !elem_of_cons, elem_of_nil in Ht.
        destruct Ht as [->|[->|[->|[]]]]; eexists;
          (split; [by left|]); (split; [|done]);
          rewrite !elem_of_cons; auto.
      * exists r, f. split; [by right|done].
    + intros (r & f & [->|Hr]%elem_of_cons & Hf & ->).
      * left. rewrite !elem_of_cons, elem_of_nil in Hf.
        rewrite !elem_of_cons.
        destruct Hf as [->|[->|[->|[]]]]; auto.
      * right. eauto.
Qed.

(** *** One list *)

Lemma append_new_elem t l e :
  e ∈ append_new t l <-> e ∈ l \/ (~ t ∈ l) /\ e = str_take 100 t.
Proof.
  unfold append_new. case_bool_decide as Hin.
  - split; [tauto|]. intros [?|[? _]]; done.
  - rewrite elem_of_app, list_elem_of_singleton. tauto.
Qed.

Lemma collect_elem test ts :
  forall l e,
    e ∈ collect test l ts ->
    e ∈ l \/ exists t, t ∈ ts /\ test t = true /\ e = str_take 100 t.
Proof.
  induction ts as [|t ts IH]; intros l e; cbn [collect foldl].
  { by left. }
  intros [He|(t' & Ht' & Htest & ->)]%IH.
  - destruct (test t) eqn:Htest; [|by left].
    apply append_new_elem in He as [He|[_ ->]]; [by left|].
    right. exists t. rewrite elem_of_cons. eauto.
  - right. exists t'. rewrite elem_of_cons. eauto.
Qed.

Lemma collect_mono test ts :
  forall l e, e ∈ l -> e ∈ collect test l ts.
Proof.
  induction ts as [|t ts IH]; intros l e He; cbn [collect foldl]; [done|].
  apply IH. destruct (test t); [|done].
  apply append_new_elem. by left.
Qed.

Lemma append_new_cut t l : cut_entries l -> cut_entries (append_new t l).
Proof.
  unfold append_new, cut_entries. case_bool_decide as Hin; [done|].
  intros Hl. apply Forall_app. split; [done|].
  apply Forall_singleton, str_take_length.
Qed.

Lemma append_new_holds t l :
  cut_entries l -> str_take 100 t ∈ append_new t l.
Proof.
  intros Hl. unfold append_new. case_bool_decide as Hin.
  - rewrite str_take_short; [done|].
    unfold cut_entries in Hl. rewrite Forall_forall in Hl. by apply Hl.
  - apply elem_of_app. right. by apply list_elem_of_singleton.
Qed.

Lemma collect_cut test ts :
  forall l, cut_entries l -> cut_entries (collect test l ts).
Proof.
  induction ts as [|t ts IH]; intros l Hl; cbn [collect foldl]; [done|].
  apply IH. destruct (test t); [|done]. by apply append_new_cut.
Qed.

Lemma collect_complete test ts :
  forall l t,
    cut_entries l -> t ∈ ts -> test t = true ->
    str_take 100 t ∈ collect test l ts.
Proof.
  induction ts as [|t0 ts IH]; intros l t Hl Ht Htest.
  { by apply elem_of_nil in Ht. }
  cbn [collect foldl]. apply elem_of_cons in Ht as [->|Ht].
  - rewrite Htest. apply collect_mono. by apply append_new_holds.
  - apply IH; [|done..]. destruct (test t0); [|done].
    by apply append_new_cut.
Qed.

Lemma collect_iff test ts e :
  e ∈ collect test [] ts
  <-> exists t, t ∈ ts /\ test t = true /\ e = str_take 100 t.
Proof.
  split.
  - intros [He|He]%collect_elem; [|done]. by apply elem_of_nil in He.
  - intros (t & Ht & Htest & ->).
    apply collect_complete; [|done..]. by apply Forall_nil.
Qed.

Lemma collect_NoDup test ts :
  Forall (fun t => length (chars t) <= 100) ts ->
  forall l, NoDup l -> NoDup (collect test l ts).
Proof.
  induction 1 as [|t ts Ht Hts IH]; intros l Hl; cbn [collect foldl];
    [done|].
  apply IH. destruct (test t); [|done].
  unfold append_new. case_bool_decide as Hin; [done|].
  rewrite str_take_short by done.
  apply NoDup_app. split; [done|]. split; [|apply NoDup_singleton].
  intros x Hx ->%list_elem_of_singleton. done.
Qed.

(** *** Texts longer than the cut *)

Lemma collect_app test ts1 ts2 l :
  collect test l (ts1 ++ ts2) = collect test (collect test l ts1) ts2.
Proof. unfold collect. apply foldl_app. Qed.

Lemma append_new_cases t l :
  append_new t l = l \/ append_new t l = l ++ [str_take 100 t].
Proof. unfold append_new. case_bool_decide; auto. Qed.

Lemma collect_extends test ts :
  forall l, exists more, collect test l ts = l ++ more.
Proof.
  unfold collect. induction ts as [|t ts IH]; intros l; cbn [foldl].
  { exists []. by rewrite app_nil_r. }
  destruct (test t); [|apply IH].
  destruct (append_new_cases t l) as [-> | ->]; [apply IH|].
  destruct (IH (l ++ [str_take 100 t])) as [more ->].
  exists (str_take 100 t :: more). by rewrite <- app_assoc.
Qed.

Lemma append_new_long t l :
  cut_entries l -> 100 < length (chars t) ->
  append_new t l = l ++ [str_take 100 t].
Proof.
  intros Hl Hlen. unfold append_new.
  rewrite bool_decide_eq_false_2; [done|]. intros Hin.
  unfold cut_entries in Hl. rewrite Forall_forall in Hl.
  specialize (Hl _ Hin). lia.
Qed.

(** a long text that passes the test is listed once for each of its
    occurrences *)
Lemma collect_twice test ts1 ts2 ts3 t :
  test t = true -> 100 < length (chars t) ->
  exists l1 l2 l3,
    collect test [] (ts1 ++ t :: ts2 ++ t :: ts3)
    = l1 ++ str_take 100 t :: l2 ++ str_take 100 t :: l3.
Proof.
  intros Htest Hlen.
  assert (forall l ts,
             cut_entries l ->
             exists more,
               collect test l (t :: ts) = l ++ str_take 100 t :: more
               /\ cut_entries (collect test l [t])) as Hstep.
  { intros l ts Hl. change (t :: ts) with ([t] ++ ts).
    rewrite collect_app.
    assert (collect test l [t] = l ++ [str_take 100 t]) as Hone.
    { cbn [collect foldl]. rewrite Htest. by apply append_new_long. }
    destruct (collect_extends test ts (collect test l [t])) as [more ->].
    rewrite Hone. exists more. split; [by rewrite <- app_assoc|].
    apply Forall_app. split; [done|].
    apply Forall_singleton, str_take_length. }
  rewrite collect_app.
  set (l1 := collect test [] ts1).
  assert (cut_entries l1) as Hl1 by (apply collect_cut, Forall_nil_2).
  change (t :: ts2 ++ t :: ts3) with ([t] ++ ts2 ++ t :: ts3).
  rewrite collect_app, collect_app.
  destruct (Hstep l1 [] Hl1) as (m1 & Hm1 & Hc1).
  set (l2 := collect test (collect test l1 [t]) ts2).
  assert (cut_entries l2) as Hl2 by (by apply collect_cut).
  destruct (Hstep l2 ts3 Hl2) as (m3 & -> & _).
  destruct (collect_extends test ts2 (collect test l1 [t])) as [m2 Hm2].
  fold l2 in Hm2. rewrite Hm2.
  assert (collect test l1 [t] = l1 ++ [str_take 100 t]) as ->.
  { cbn [collect foldl]. rewrite Htest. by apply append_new_long. }
  exists l1, m2, m3. by rewrite <- !app_assoc.
Qed.

(** the chemistry test is the regular expression alone *)
Lemma chemistry_test_search t :
  chemistry_test t = bool_decide (is_Some (search chemistry_re (chars t))).
Proof.
  unfold chemistry_test. case_bool_decide as H; [|apply andb_false_r].
  rewrite andb_true_r.
  change (search chemistry_re (chars t))
    with (validate_chemistry_brackets t) in H.
  apply PatternFacts.chemistry_search_iff in H
    as (pre & u & body & post & Hs & _ & _).
  unfold contains. rewrite Hs. apply andb_true_intro. split.
  - apply PatternFacts.occurs_in_char.
  - change (pre ++ "["%char :: u :: body ++ "]"%char :: post)
      with (pre ++ ["["%char; u] ++ body ++ "]"%char :: post).
    rewrite !app_assoc. apply PatternFacts.occurs_in_char.
Qed.

End ScanFacts.

(** ** Facts about the counter of the processing loop *)

Module CountFacts.
Import Sheet Notions MoreNotions.

Local Arguments text_fields : simpl never.

Section Loop.
Variable pre : normaliser.

Lemma process_field_counted row st field st' :
  counted pre st -> process_field pre row st field = Some st' ->
  counted pre st'.
Proof.
  unfold counted, process_field. intros Hst.
  destruct (bool_decide (field ∈ columns (frame st)));
    [|by intros ?; simplify_eq].
  destruct (row !! field) as [v|]; simpl; [|discriminate].
  destruct (notna v); [|by intros ?; simplify_eq].
  intros ?; simplify_eq. cbn [processed_count calls].
  unfold changed_calls. rewrite filter_app, length_app.
  rewrite filter_cons, filter_nil. unfold changed_calls in Hst.
  case_bool_decide as Heq.
  - rewrite decide_False; [simpl; lia|].
    unfold changed. by rewrite bool_decide_eq_true_2.
  - rewrite decide_True; [simpl; lia|].
    unfold changed. by rewrite bool_decide_eq_false_2.
Qed.

Lemma process_fields_counted row fields :
  forall st st',
    counted pre st -> process_fields pre row st fields = Some st' ->
    counted pre st'.
Proof.
  induction fields as [|f fs IH]; intros st st' Hst; simpl.
  - by intros ?; simplify_eq.
  - destruct (process_field pre row st f) as [st1|] eqn:H1;
      simpl; [|discriminate].
    apply IH. by eapply process_field_counted.
Qed.

Lemma process_rows_counted rs :
  forall st st',
    counted pre st -> process_rows pre st rs = Some st' -> counted pre st'.
Proof.
  induction rs as [|row rs IH]; intros st st' Hst; cbn [process_rows].
  - by intros ?; simplify_eq.
  - destruct (process_fields pre row st text_fields) as [st1|] eqn:H1;
      simpl; [|discriminate].
    apply IH. by eapply process_fields_counted.
Qed.

Lemma text_value_length cols row field :
  length (text_value cols row field) <= 1.
Proof.
  unfold text_value. destruct (bool_decide (field ∈ cols)); [|simpl; lia].
  destruct (row !! field) as [v|]; [|simpl; lia].
  destruct (notna v); simpl; lia.
Qed.

Lemma row_texts_length cols row : length (row_texts cols row) <= 3.
Proof.
  unfold row_texts, text_fields. cbn [flat_map].
  rewrite !length_app. simpl.
  pose proof (text_value_length cols row "Body Text").
  pose proof (text_value_length cols row "Answer").
  pose proof (text_value_length cols row "Title"). lia.
Qed.

Lemma flat_map_row_texts_length cols rs :
  length (flat_map (row_texts cols) rs) <= 3 * length rs.
Proof.
  induction rs as [|row rs IH]; simpl; [lia|].
  rewrite length_app. pose proof (row_texts_length cols row). lia.
Qed.

Lemma changed_calls_length log :
  length (changed_calls pre log) <= length log.
Proof. apply length_filter. Qed.

(** a text of the log is a value of a text field of a row *)
Lemma text_value_elem cols row field t :
  t ∈ text_value cols row field ->
  field ∈ cols /\ exists v, row !! field = Some v /\ notna v = true
                           /\ t = str v.
Proof.
  unfold text_value. case_bool_decide as Hin; [|by intros ?%elem_of_nil].
  destruct (row !! field) as [v|]; [|by intros ?%elem_of_nil].
  destruct (notna v) eqn:Hv; [|by intros ?%elem_of_nil].
  intros ->%list_elem_of_singleton. eauto.
Qed.
End Loop.

End CountFacts.

(** ** Facts about the example loop of validate_fixes.py *)

Module FixesLoopFacts.
Import Re ValidateFixes MoreNotions.
Import FixesLoop.

Lemma check_field_chemistry idx ex f t :
  chemistry_examples (check_field idx ex (f, t))
  = chemistry_examples ex
      ++ (if live t && bool_decide (is_Some (validate_chemistry_brackets t))
          then [(idx, f, t)] else []).
Proof.
  unfold check_field, live.
  destruct (negb (String.eqb t "") && negb (String.eqb t "nan"));
    [|by rewrite app_nil_r].
  cbn [andb]. unfold validate_commas, validate_latex_notation.
  destruct (bool_decide (is_Some (validate_chemistry_brackets t)));
    destruct (bool_decide (is_Some (search thousand_re (chars t)))
              || bool_decide (is_Some (search coordinates_re (chars t))));
    destruct (bool_decide (is_Some (search super_re (chars t)))
              || bool_decide (is_Some (search sub_re (chars t))));
    cbn [chemistry_examples]; by rewrite ?app_nil_r.
Qed.

Lemma check_field_comma idx ex f t :
  comma_examples (check_field idx ex (f, t))
  = comma_examples ex
      ++ (if live t
             && (bool_decide (is_Some (fst (validate_commas t)))
                 || bool_decide (is_Some (snd (validate_commas t))))
          then [(idx, f, t, fst (validate_commas t),
                 snd (validate_commas t))]
          else []).
Proof.
  unfold check_field, live.
  destruct (negb (String.eqb t "") && negb (String.eqb t "nan"));
    [|by rewrite app_nil_r].
  cbn [andb]. unfold validate_commas, validate_latex_notation.
  cbn [fst snd].
  destruct (bool_decide (is_Some (validate_chemistry_brackets t)));
    destruct (bool_decide (is_Some (search thousand_re (chars t)))
              || bool_decide (is_Some (search coordinates_re (chars t))));
    destruct (bool_decide (is_Some (search super_re (chars t)))
              || bool_decide (is_Some (search sub_re (chars t))));
    cbn [comma_examples]; by rewrite ?app_nil_r.
Qed.

Lemma check_field_latex idx ex f t :
  latex_examples (check_field idx ex (f, t))
  = latex_examples ex
      ++ (if live t
             && (bool_decide (is_Some (fst (validate_latex_notation t)))
                 || bool_decide (is_Some (snd (validate_latex_notation t))))
          then [(idx, f, t)] else []).
Proof.
  unfold check_field, live.
  destruct (negb (String.eqb t "") && negb (String.eqb t "nan"));
    [|by rewrite app_nil_r].
  cbn [andb]. unfold validate_commas, validate_latex_notation.
  cbn [fst snd].
  destruct (bool_decide (is_Some (validate_chemistry_brackets t)));
    destruct (bool_decide (is_Some (search thousand_re (chars t)))
              || bool_decide (is_Some (search coordinates_re (chars t))));
    destruct (bool_decide (is_Some (search super_re (chars t)))
              || bool_decide (is_Some (search sub_re (chars t))));
    cbn [latex_examples]; by rewrite ?app_nil_r.
Qed.

(** the guard of line 63 drops no text that a detector accepts *)
Lemma search_live r t :
  search r (chars "") = None -> search r (chars "nan") = None ->
  is_Some (search r (chars t)) -> live t = true.
Proof.
  intros H1 H2 Ht. unfold live.
  destruct (String.eqb_spec t ""%string) as [->|_].
  { rewrite H1 in Ht. by destruct Ht. }
  destruct (String.eqb_spec t "nan"%string) as [->|_].
  { rewrite H2 in Ht. by destruct Ht. }
  done.
Qed.

(** the texts of the chemistry examples, in order *)
Lemma check_rows_chemistry rs :
  forall idx ex,
    chemistry_texts (check_rows idx ex rs)
    = chemistry_texts ex
        ++ filter (fun t => is_Some (validate_chemistry_brackets t))
             (scanned_texts (Sheet.mkFrame [] rs)).
Proof.
  unfold chemistry_texts, scanned_texts. cbn [Sheet.rows].
  induction rs as [|row rs IH]; intros idx ex; cbn [check_rows flat_map].
  { by rewrite filter_nil, app_nil_r. }
  rewrite IH. unfold fields. cbn [foldl].
  rewrite !check_field_chemistry, !map_app, <- !app_assoc.
  f_equal. rewrite filter_app, !app_assoc. f_equal.
  rewrite <- !app_assoc.
  assert (forall f t : string,
             map snd
               (if live t
                   && bool_decide (is_Some (validate_chemistry_brackets t))
                then [(idx, f, t)] else [])
             = filter (fun t => is_Some (validate_chemistry_brackets t)) [t])
    as Hone.
  { intros f t. rewrite filter_cons, filter_nil.
    case_bool_decide as Hm.
    - rewrite decide_True by done.
      rewrite (search_live chemistry_re t); [done|done|done|done].
    - rewrite decide_False by done. by rewrite andb_false_r. }
  rewrite !Hone.
  rewrite !filter_cons, !filter_nil.
  repeat case_decide; done.
Qed.

Lemma check_rows_comma rs :
  forall idx ex x,
    x ∈ comma_examples (check_rows idx ex rs) ->
    x ∈ comma_examples ex
    \/ exists i f t,
         t ∈ scanned_texts (Sheet.mkFrame [] rs)
         /\ x = (i, f, t, fst (validate_commas t), snd (validate_commas t)).
Proof.
  unfold scanned_texts. cbn [Sheet.rows].
  induction rs as [|row rs IH]; intros idx ex x; cbn [check_rows flat_map].
  { by left. }
  intros [Hx|(i & f & t & Ht & ->)]%IH.
  - unfold fields in Hx. cbn [foldl] in Hx.
    rewrite !check_field_comma, !elem_of_app in Hx.
    destruct Hx as [[[Hx|Hx]|Hx]|Hx]; [by left|right..];
      (match type of Hx with
       | _ ∈ (if ?b then _ else _) => destruct b
       end; [|by apply elem_of_nil in Hx]);
      apply list_elem_of_singleton in Hx as ->;
      do 3 eexists; (split; [|reflexivity]);
      rewrite elem_of_app, !elem_of_cons; auto.
  - right. exists i, f, t. split; [|done].
    rewrite elem_of_app. by right.
Qed.

Lemma check_rows_latex rs :
  forall idx ex t,
    t ∈ latex_texts (check_rows idx ex rs) ->
    t ∈ latex_texts ex
    \/ (t ∈ scanned_texts (Sheet.mkFrame [] rs)
        /\ (is_Some (fst (validate_latex_notation t))
            \/ is_Some (snd (validate_latex_notation t)))).
Proof.
  unfold scanned_texts, latex_texts. cbn [Sheet.rows].
  induction rs as [|row rs IH]; intros idx ex t; cbn [check_rows flat_map].
  { by left. }
  intros [Hx|[Ht Hm]]%IH.
  - unfold fields in Hx. cbn [foldl] in Hx.
    rewrite !check_field_latex, !map_app, !elem_of_app in Hx.
    destruct Hx as [[[Hx|Hx]|Hx]|Hx]; [by left|right..];
      (match type of Hx with
       | _ ∈ map _ (if ?b then _ else _) => destruct b eqn:Hb
       end; [|by apply elem_of_nil in Hx]);
      apply list_elem_of_singleton in Hx as ->;
      apply andb_true_iff in Hb as [_ Hb];
      apply orb_true_iff in Hb as [Hb%bool_decide_eq_true_1
                                  |Hb%bool_decide_eq_true_1];
      (split; [rewrite elem_of_app, !elem_of_cons; auto|auto]).
  - right. split; [|done]. rewrite elem_of_app. by right.
Qed.

End FixesLoopFacts.

(** ** Facts about [extract_sheet_key] *)

Module KeyFacts.
Import Re Semantics ValidateSheet MoreNotions.

Local Arguments Char.eq : simpl never.
Local Arguments key_char : simpl never.

Lemma starts_with_split w s :
  starts_with w s = true -> s = w ++ drop (length w) s.
Proof.
  revert s. induction w as [|c w IH]; intros [|d s]; simpl; try done.
  intros [Hc Hw]%andb_true_iff. apply Ascii.eqb_eq in Hc as ->.
  f_equal. by apply IH.
Qed.

Lemma leading_split f s :
  s = leading f s ++ drop (length (leading f s)) s.
Proof.
  induction s as [|c s IH]; [done|]. cbn [leading].
  destruct (f c); [|done]. simpl. by rewrite <- IH.
Qed.

Lemma leading_forallb f s : forallb f (leading f s) = true.
Proof.
  induction s as [|c s IH]; [done|]. cbn [leading].
  destruct (f c) eqn:Hc; [|done]. simpl. by rewrite Hc, IH.
Qed.

Lemma leading_stops f s c :
  head (drop (length (leading f s)) s) = Some c -> f c = false.
Proof.
  induction s as [|d s IH]; [done|]. cbn [leading].
  destruct (f d) eqn:Hd; simpl; [done|]. by intros [= <-].
Qed.

Lemma leading_app f w post :
  forallb f w = true -> (forall c, head post = Some c -> f c = false) ->
  leading f (w ++ post) = w.
Proof.
  intros Hw Hpost. induction w as [|c w IH]; simpl.
  - destruct post as [|d post]; [done|]. cbn [leading].
    by rewrite (Hpost d).
  - simpl in Hw. apply andb_true_iff in Hw as [-> Hw]. by rewrite IH.
Qed.

(** *** The matcher on the pattern *)

Lemma run_Lit {R} (k : cont (R := R)) w :
  forall p s,
    run (Lit w) p s k
    = if starts_with w s then k (prev_at p w) (drop (length w) s)
      else None.
Proof.
  induction w as [|c w IH]; intros p s; [done|].
  cbn [Lit run]. unfold Chr. cbn [run].
  destruct s as [|d s]; [done|]. cbn [starts_with].
  unfold Char.eq. destruct (Ascii.eqb c d) eqn:Hc; [|done].
  apply Ascii.eqb_eq in Hc as ->.
  rewrite IH, ReFacts.prev_at_cons. done.
Qed.

(** a greedy repetition of a class, followed by something that cannot
    fail, takes the longest run of characters of the class *)
Lemma star_cls_greedy {R} (k : cont (R := R)) f :
  (forall p s, is_Some (k p s)) ->
  forall fuel p s,
    length s <= fuel ->
    star_loop (run (Cls f)) k fuel p s
    = k (prev_at p (leading f s)) (drop (length (leading f s)) s).
Proof.
  intros Hk. induction fuel as [|fuel IH]; intros p s Hlen.
  - destruct s; [done|simpl in Hlen; lia].
  - cbn [star_loop run]. destruct s as [|c s]; [done|].
    cbn [leading]. destruct (f c); [|done].
    assert ((length s <? length (c :: s))%nat = true) as ->.
    { apply Nat.ltb_lt. simpl. lia. }
    simpl in Hlen. rewrite IH by lia.
    rewrite ReFacts.prev_at_cons. simpl.
    by destruct (Hk (prev_at (Some c) (leading f s))
                    (drop (length (leading f s)) s)) as [x ->].
Qed.

Lemma run_plus_cls {R} (k : cont (R := R)) f p s :
  (forall p s, is_Some (k p s)) ->
  run (Plus (Cls f)) p s k
  = match leading f s with
    | [] => None
    | w => k (prev_at p w) (drop (length w) s)
    end.
Proof.
  intros Hk. unfold Plus.
  change (run (Seq (Cls f) (Star (Cls f))) p s k)
    with (run (Cls f) p s
            (fun p' s' => star_loop (run (Cls f)) k (length s') p' s')).
  destruct s as [|c s]; [done|].
  change (run (Cls f) p (c :: s) ?k')
    with (if f c then k' (Some c) s else None).
  cbn [leading]. destruct (f c); [|done].
  rewrite star_cls_greedy by eauto.
  by rewrite ReFacts.prev_at_cons.
Qed.

Lemma match_at_sheet_key p s : match_at sheet_key_re p s = key_at s.
Proof.
  unfold match_at, sheet_key_re, key_at.
  change (run (Seq ?a ?b) p s ?k)
    with (run a p s (fun p' s' => run b p' s' k)).
  rewrite run_Lit.
  destruct (starts_with (chars key_prefix) s) eqn:Hpre; [|done].
  apply starts_with_split in Hpre.
  set (n := length (chars key_prefix)) in *.
  rewrite run_plus_cls by eauto.
  pose proof (leading_split key_char (drop n s)) as Hr.
  destruct (leading key_char (drop n s)) as [|c w]; [done|].
  f_equal. rewrite Hpre at 1. rewrite Hr at 1.
  rewrite !length_app. fold n. lia.
Qed.

Lemma key_at_Some s n :
  key_at s = Some n ->
  exists w post,
    s = chars key_prefix ++ w ++ post /\ w <> []
    /\ forallb key_char w = true /\ is_key_char (head post) = false
    /\ n = length (chars key_prefix) + length w.
Proof.
  unfold key_at.
  destruct (starts_with (chars key_prefix) s) eqn:Hpre; [|done].
  apply starts_with_split in Hpre.
  set (r := drop (length (chars key_prefix)) s) in *.
  pose proof (leading_split key_char r) as Hr.
  pose proof (leading_forallb key_char r) as Hall.
  pose proof (leading_stops key_char r) as Hstop.
  destruct (leading key_char r) as [|c w] eqn:Hw; [done|].
  intros [= <-]. eexists (c :: w), _.
  split; [by rewrite <- Hr|]. split; [done|]. split; [done|].
  split; [|done].
  destruct (head (drop (length (c :: w)) r)) as [d|] eqn:Hd; [|done].
  by apply Hstop.
Qed.

Lemma key_at_intro w post :
  w <> [] -> forallb key_char w = true ->
  is_key_char (head post) = false ->
  key_at (chars key_prefix ++ w ++ post)
  = Some (length (chars key_prefix) + length w).
Proof.
  intros Hne Hw Hpost. unfold key_at.
  rewrite PatternFacts.starts_with_app, drop_app_length.
  rewrite leading_app; [by destruct w|done|].
  intros c Hc. by rewrite Hc in Hpost.
Qed.

Lemma key_at_mismatch c s : c <> "/"%char -> key_at (c :: s) = None.
Proof.
  intros Hc. unfold key_at.
  change (starts_with (chars key_prefix) (c :: s))
    with (Ascii.eqb "/" c && starts_with (chars "spreadsheets/d/") s).
  rewrite (proj2 (Ascii.eqb_neq _ _)); [done|congruence].
Qed.

Lemma key_at_mismatch_second c s :
  c <> "s"%char -> key_at ("/"%char :: c :: s) = None.
Proof.
  intros Hc. unfold key_at.
  change (starts_with (chars key_prefix) ("/"%char :: c :: s))
    with (Ascii.eqb "/" "/"
          && (Ascii.eqb "s" c && starts_with (chars "preadsheets/d/") s)).
  rewrite (proj2 (Ascii.eqb_neq "s" c)); [done|congruence].
Qed.

(** a key character after the literal part is enough for a match *)
Lemma key_at_char c post :
  key_char c = true -> is_Some (key_at (chars key_prefix ++ c :: post)).
Proof.
  intros Hc. unfold key_at.
  rewrite PatternFacts.starts_with_app, drop_app_length.
  cbn [leading]. rewrite Hc. eauto.
Qed.

(** *** [re.search] step by step *)

Lemma search_from_skip r pos prev c s :
  match_at r prev (c :: s) = None ->
  search_from r pos prev (c :: s) = search_from r (S pos) (Some c) s.
Proof. intros H. cbn [search_from]. by rewrite H. Qed.

Lemma search_from_hit r pos prev s n :
  match_at r prev s = Some n -> search_from r pos prev s = Some (pos, pos + n).
Proof. intros H. destruct s; cbn [search_from]; by rewrite H. Qed.

(** *** The key *)

Lemma slice_middle (pre mid w post : list ascii) :
  slice (length pre + length mid) (length pre + (length mid + length w))
        (pre ++ mid ++ w ++ post) = w.
Proof.
  unfold slice.
  replace (length pre + (length mid + length w)
           - (length pre + length mid)) with (length w) by lia.
  rewrite (app_assoc pre mid), <- length_app, drop_app_length.
  by rewrite take_app_length.
Qed.

Lemma extract_sheet_key_Some url key :
  extract_sheet_key url = Some key ->
  exists pre post,
    chars url = pre ++ chars key_prefix ++ chars key ++ post
    /\ valid_key key /\ is_key_char (head post) = false
    /\ forall pre1 rest1,
         chars url = pre1 ++ rest1 -> length pre1 < length pre ->
         key_at rest1 = None.
Proof.
  unfold extract_sheet_key.
  destruct (search sheet_key_re (chars url)) as [[a b]|] eqn:Hs; [|done].
  apply ReFacts.search_from_sound in Hs
    as (pre & rest & n & Hurl & -> & -> & Hm & Hleft).
  rewrite match_at_sheet_key in Hm.
  apply key_at_Some in Hm as (w & post & -> & Hne & Hw & Hpost & ->).
  rewrite Hurl. change (0 + length pre) with (length pre).
  rewrite slice_middle. intros [= <-].
  exists pre, post. unfold valid_key.
  rewrite !ScanFacts.chars_string_of_list, <- Hurl.
  split; [done|]. split; [by split|]. split; [done|].
  intros pre1 rest1 Heq Hlen.
  rewrite <- (match_at_sheet_key (prev_at None pre1)). by apply Hleft.
Qed.

Lemma extract_sheet_key_is_Some url :
  is_Some (extract_sheet_key url)
  <-> exists pre c post,
        chars url = pre ++ chars key_prefix ++ c :: post
        /\ key_char c = true.
Proof.
  split.
  - intros [key (pre & post & Hurl & [Hne Hall] & _)%extract_sheet_key_Some].
    destruct (chars key) as [|c w]; [done|].
    exists pre, c, (w ++ post). split; [done|].
    simpl in Hall. by apply andb_true_iff in Hall as [? _].
  - intros (pre & c & post & Hurl & Hc). unfold extract_sheet_key.
    destruct (ReFacts.search_from_complete sheet_key_re pre 0 None
                (chars key_prefix ++ c :: post)) as [[a b] Hs].
    { rewrite match_at_sheet_key. by apply key_at_char. }
    unfold search. rewrite Hurl, Hs. eauto.
Qed.

(** the key of an address of the sheet service *)
Lemma extract_from_address key tail :
  valid_key key ->
  extract_sheet_key
    ("https://docs.google.com/spreadsheets/d/" +:+ key +:+ "/" +:+ tail)
  = Some key.
Proof.
  intros [Hne Hall]. unfold extract_sheet_key, search.
  rewrite ScanFacts.chars_append.
  change (chars "https://docs.google.com/spreadsheets/d/")
    with (chars "https://docs.google.com" ++ chars key_prefix).
  rewrite ScanFacts.chars_append.
  change (chars ("/" +:+ tail)) with ("/"%char :: chars tail).
  set (rest := chars key_prefix ++ chars key ++ "/"%char :: chars tail).
  assert (key_at rest = Some (length (chars key_prefix) + length (chars key)))
    as Hat by (by apply key_at_intro).
  rewrite <- app_assoc. fold rest.
  simpl (chars "https://docs.google.com" ++ rest).
  repeat (rewrite search_from_skip
            by (rewrite match_at_sheet_key;
                first [by apply key_at_mismatch
                      | by apply key_at_mismatch_second])).
  rewrite (search_from_hit _ _ _ _ _
             (eq_trans (match_at_sheet_key _ _) Hat)).
  etransitivity; [|apply f_equal, ScanFacts.string_of_chars].
  do 2 f_equal.
  exact (slice_middle (chars "https://docs.google.com") (chars key_prefix)
           (chars key) ("/"%char :: chars tail)).
Qed.

End KeyFacts.

(** ** Facts about [validate_sheet_format] *)

Module FormatFacts.
Import Sheet ValidateSheet MoreNotions.

Lemma string_app_inv_head (a s t : string) : a +:+ s = a +:+ t -> s = t.
Proof. induction a as [|c a IH]; simpl; [done|]. intros [= H]. auto. Qed.

Lemma string_app_inv_tail (s t b : string) : s +:+ b = t +:+ b -> s = t.
Proof.
  intros H. apply ScanFacts.chars_inj.
  apply (f_equal chars) in H. rewrite !ScanFacts.chars_append in H.
  by apply app_inv_tail in H.
Qed.

Lemma error_message_inj n m : error_message n = error_message m -> n = m.
Proof.
  unfold error_message.
  intros H%string_app_inv_head%string_app_inv_tail.
  by apply pretty_nat_inj in H.
Qed.

Lemma no_steps_message_inj p q :
  no_steps_message p = no_steps_message q -> p = q.
Proof.
  unfold no_steps_message.
  by intros H%string_app_inv_head%string_app_inv_tail.
Qed.

(** *** The row loop *)

Lemma check_row_errors idx row e w :
  fst (check_row idx row (e, w))
  = e ++ (if nameless_problem row then [error_message (idx + 2)] else []).
Proof.
  unfold check_row, nameless_problem, error_message. cbn [fst].
  destruct (cell_is (row !! "Row Type") "problem"
            && isna_get row "Problem Name"); [done|].
  by rewrite app_nil_r.
Qed.

Lemma check_rows_errors rs :
  forall idx ew,
    fst (check_rows idx rs ew) = fst ew ++ errors_from idx rs.
Proof.
  induction rs as [|row rs IH]; intros idx [e w];
    cbn [check_rows errors_from].
  { by rewrite app_nil_r. }
  rewrite IH. destruct (check_row idx row (e, w)) as [e' w'] eqn:Hrow.
  apply (f_equal fst) in Hrow. rewrite check_row_errors in Hrow.
  cbn [fst] in *. subst e'. by rewrite app_assoc.
Qed.

Lemma issues_errors df : fst (issues df) = errors_from 0 (rows df).
Proof. unfold issues. by rewrite check_rows_errors. Qed.

Lemma errors_from_nil rs :
  forall idx,
    errors_from idx rs = []
    <-> Forall (fun row => nameless_problem row = false) rs.
Proof.
  induction rs as [|row rs IH]; intros idx; cbn [errors_from].
  { split; [by constructor|done]. }
  rewrite Forall_cons, <- (IH (S idx)).
  destruct (nameless_problem row); simpl.
  - split; [done|]. by intros [? _].
  - split; [by split|]. by intros [_ ?].
Qed.

Lemma errors_from_length rs :
  forall idx,
    length (errors_from idx rs)
    = length (filter (fun row => nameless_problem row = true) rs).
Proof.
  induction rs as [|row rs IH]; intros idx; cbn [errors_from]; [done|].
  rewrite length_app, IH, filter_cons.
  destruct (nameless_problem row); simpl; [|done].
  done.
Qed.

Lemma errors_from_elem rs :
  forall idx n,
    error_message n ∈ errors_from idx rs
    <-> exists i row,
          rs !! i = Some row /\ nameless_problem row = true
          /\ n = idx + i + 2.
Proof.
  induction rs as [|row rs IH]; intros idx n; cbn [errors_from].
  { split; [by intros ?%elem_of_nil|]. by intros (i & row & ? & _). }
  rewrite elem_of_app, IH. split.
  - intros [Hn|(i & r & Hi & Hr & ->)].
    + destruct (nameless_problem row) eqn:Hrow;
        [|by apply elem_of_nil in Hn].
      apply list_elem_of_singleton, error_message_inj in Hn as ->.
      exists 0, row. split; [done|]. split; [done|lia].
    + exists (S i), r. split; [done|]. split; [done|lia].
  - intros ([|i] & r & Hi & Hr & ->).
    + left. simpl in Hi. injection Hi as ->. rewrite Hr.
      apply list_elem_of_singleton. f_equal. lia.
    + right. exists i, r. split; [done|]. split; [done|lia].
Qed.

(** *** The headers *)

Lemma missing_headers_nil df :
  missing_headers df = []
  <-> Forall (fun h => h ∈ columns df) required_headers.
Proof.
  unfold missing_headers. generalize required_headers.
  induction l as [|h l IH]; [by split; [constructor|]|].
  rewrite filter_cons, Forall_cons, <- IH.
  destruct (decide (h ∉ columns df)) as [Hn|Hn].
  - split; [done|]. by intros [? _].
  - apply dec_stable in Hn. split; [by split|]. by intros [_ ?].
Qed.

Lemma required_cols_headers df :
  Forall (fun h => h ∈ columns df) required_headers ->
  Forall (fun c => c ∈ columns df) required_cols.
Proof.
  rewrite !Forall_forall. intros H c Hc. apply H.
  unfold required_cols in Hc. unfold required_headers.
  rewrite !elem_of_cons, elem_of_nil in Hc. rewrite !elem_of_cons.
  destruct Hc as [->|[->|[->|[->|[->|[->|[]]]]]]]; auto 20.
Qed.

Lemma empty_false df :
  Forall (fun h => h ∈ columns df) required_headers ->
  empty df = false <-> rows df <> [].
Proof.
  intros Hh. unfold empty.
  assert (columns df <> []) as Hc.
  { apply Forall_cons in Hh as [Hin _]. intros Heq. rewrite Heq in Hin.
    by apply elem_of_nil in Hin. }
  rewrite (bool_decide_eq_false_2 (columns df = [])) by done.
  rewrite orb_false_r. apply bool_decide_eq_false.
Qed.

(** *** The verdict *)

Section Verdict.
Variable read_csv : string -> option DataFrame.

Lemma validate_sheet_format_true sheet_key sheet_name :
  validate_sheet_format read_csv sheet_key sheet_name = true
  <-> exists df,
        read_csv (csv_url sheet_key sheet_name) = Some df
        /\ rows df <> []
        /\ Forall (fun h => h ∈ columns df) required_headers
        /\ Forall (fun row => nameless_problem row = false) (rows df).
Proof.
  unfold validate_sheet_format.
  destruct (read_csv (csv_url sheet_key sheet_name)) as [df|];
    [|split; [done|by intros (? & ? & _)]].
  split.
  - destruct (empty df) eqn:He; [done|].
    destruct (missing_headers df) as [|h l] eqn:Hm; [|done].
    apply missing_headers_nil in Hm.
    pose proof (issues_errors df) as Hiss.
    destruct (issues df) as [errors warnings]. cbn [fst] in Hiss.
    intros Hlen%Nat.eqb_eq%length_zero_iff_nil.
    exists df. split; [done|]. split; [by apply empty_false|].
    split; [done|]. apply (errors_from_nil _ 0). congruence.
  - intros (df' & [= <-] & Hrows & Hh & Herr).
    rewrite (proj2 (empty_false df Hh) Hrows).
    rewrite (proj2 (missing_headers_nil df) Hh).
    pose proof (issues_errors df) as Hiss.
    destruct (issues df) as [errors warnings]. cbn [fst] in Hiss.
    apply (errors_from_nil _ 0) in Herr. rewrite Hiss, Herr. done.
Qed.
End Verdict.

(** *** The problems without steps *)

Lemma unique_elem l x : x ∈ unique l <-> x ∈ l.
Proof.
  unfold unique.
  assert (forall seen, x ∈ foldl (fun seen x =>
              if bool_decide (x ∈ seen) then seen else seen ++ [x]) seen l
            <-> x ∈ seen \/ x ∈ l) as H.
  { induction l as [|y l IH]; intros seen; cbn [foldl].
    - rewrite elem_of_nil. tauto.
    - rewrite IH, elem_of_cons. case_bool_decide as Hy.
      + split; [tauto|]. intros [?|[->|?]]; tauto.
      + rewrite elem_of_app, list_elem_of_singleton. tauto. }
  rewrite H, elem_of_nil. tauto.
Qed.

Lemma unique_NoDup l : NoDup (unique l).
Proof.
  unfold unique.
  assert (forall seen, NoDup seen -> NoDup (foldl (fun seen x =>
              if bool_decide (x ∈ seen) then seen else seen ++ [x]) seen l))
    as H.
  { induction l as [|y l IH]; intros seen Hs; cbn [foldl]; [done|].
    apply IH. case_bool_decide as Hy; [done|].
    apply NoDup_app. split; [done|]. split; [|apply NoDup_singleton].
    by intros z Hz ->%list_elem_of_singleton. }
  apply H, NoDup_nil_2.
Qed.

Lemma problems_elem df p :
  p ∈ problems df
  <-> exists row,
        row ∈ rows df /\ cell_is (row !! "Row Type") "problem" = true
        /\ row !! "Problem Name" = Some (Val p).
Proof.
  unfold problems. rewrite unique_elem, list_elem_of_omap. split.
  - intros (row & Hrow & Hp). exists row. split; [done|].
    destruct (cell_is (row !! "Row Type") "problem"); [|done].
    split; [done|].
    destruct (row !! "Problem Name") as [[|s]|]; try done.
    by injection Hp as ->.
  - intros (row & Hrow & Ht & Hn). exists row. split; [done|].
    by rewrite Ht, Hn.
Qed.

Lemma steps_nil df p :
  steps df p = []
  <-> forall row,
        row ∈ rows df -> cell_is (row !! "Problem Name") p = true ->
        cell_is (row !! "Row Type") "step" = false.
Proof.
  unfold steps. split.
  - intros Hnil row Hrow Hp.
    destruct (cell_is (row !! "Row Type") "step") eqn:Hs; [|done].
    assert (row ∈ @nil (gmap string cell)) as Hin; [|by apply elem_of_nil in Hin].
    rewrite <- Hnil. apply list_elem_of_filter. split; [done|].
    apply list_elem_of_filter. by split.
  - intros H. apply elem_of_nil_inv. intros row.
    rewrite !list_elem_of_filter. intros (Hs & Hp & Hrow).
    rewrite (H row Hrow Hp) in Hs. done.
Qed.

End FormatFacts.

(** ** Facts about the detectors and the checks of validate_fixes.py *)

Module DetectorFacts.
Import Re Semantics ValidateFixes Patterns FixesScript MoreNotions.

Lemma search_findall r s : is_Some (search r s) <-> findall r s <> [].
Proof.
  rewrite <- not_eq_None_Some. by rewrite ReFacts.findall_nil.
Qed.

Lemma all_matches_nil r text :
  all_matches r text = [] <-> search r (chars text) = None.
Proof.
  unfold all_matches. rewrite <- ReFacts.findall_nil.
  split; [apply map_eq_nil|by intros ->].
Qed.

(** *** Numbers with thousand separators *)

Lemma thousand_search_shape text a b :
  search thousand_re (chars text) = Some (a, b) ->
  exists pre w post,
    chars text = pre ++ w ++ post /\ a = length pre
    /\ b = length pre + length w /\ grouped_number w
    /\ is_word (last pre) = false /\ is_word (head post) = false.
Proof.
  intros (pre & w & post & p' & Hs & -> & -> & Hm)%ReFacts.search_sound.
  apply PatternFacts.thousand_re_inv in Hm
    as (w' & Hw & Hg & _ & Hpre & Hpost).
  apply app_inv_tail in Hw as ->.
  exists pre, w', post. by repeat split.
Qed.

Lemma thousand_findall_grouped text l :
  l ∈ findall thousand_re (chars text) -> grouped_number l.
Proof.
  intros (p & rest & n & Hm & ->)%PatternFacts.findall_from_elem.
  apply ReFacts.match_at_sound in Hm as (p' & s' & Hm & ->).
  apply PatternFacts.thousand_re_inv in Hm as (w & -> & Hg & _).
  rewrite length_app.
  replace (length w + length s' - length s') with (length w) by lia.
  by rewrite take_app_length.
Qed.

Lemma grouped_number_inv w :
  grouped_number w ->
  exists d lead rest,
    w = d :: lead ++ ","%char :: rest /\ Char.digit d = true.
Proof.
  intros (lead & groups & -> & Hlen & Hd & Hne & Hg).
  destruct lead as [|d lead]; [simpl in Hlen; lia|].
  simpl in Hd. apply andb_true_iff in Hd as [Hd _].
  destruct groups as [|c [|d1 [|d2 [|d3 r]]]]; try done.
  cbn [comma_groups] in Hg.
  repeat (apply andb_true_iff in Hg as [Hg ?]).
  apply NormalizerFacts.eq_true_iff in Hg as ->.
  exists d, lead, (d1 :: d2 :: d3 :: r). done.
Qed.

Lemma thousand_comma_test text :
  is_Some (search thousand_re (chars text)) -> comma_test text = true.
Proof.
  intros [[a b] (pre & w & post & Hs & _ & _ & Hg & _)%thousand_search_shape].
  apply grouped_number_inv in Hg as (d & lead & rest & -> & Hd).
  unfold comma_test, contains. rewrite Hs. apply andb_true_intro. split.
  - assert (pre ++ (d :: lead ++ ","%char :: rest) ++ post
            = (pre ++ d :: lead) ++ ","%char :: (rest ++ post)) as ->.
    { simpl. rewrite <- !app_assoc. done. }
    apply PatternFacts.occurs_in_char.
  - rewrite existsb_app. apply orb_true_iff. right.
    simpl. by rewrite Hd.
Qed.

Lemma coordinates_comma text :
  is_Some (search coordinates_re (chars text)) -> contains "," text = true.
Proof.
  intros [[a b] (pre & w & post & p' & Hs & _ & _ & Hm)%ReFacts.search_sound].
  apply PatternFacts.coordinates_re_inv in Hm as (x & y & Hw).
  unfold contains. rewrite Hs, Hw, app_assoc.
  apply PatternFacts.occurs_in_char.
Qed.

(** *** Superscripts and subscripts *)

Lemma script_search_contains c0 text :
  is_Some (search (Notions.script_re c0) (chars text)) ->
  occurs_in [c0; "{"%char] (chars text) = true.
Proof.
  intros [[a b] H]. apply ReFacts.search_from_sound in H
    as (pre & rest & n & Hs & _ & _ & Hm & _).
  assert (is_Some (match_at (Notions.script_re c0) (prev_at None pre) rest))
    as Hm' by eauto.
  apply NormalizerFacts.match_at_script_re in Hm'.
  destruct rest as [|c [|c1 [|c2 r]]]; try done.
  destruct Hm' as (Hc & Hc1 & _).
  apply NormalizerFacts.eq_true_iff in Hc as ->.
  apply NormalizerFacts.eq_true_iff in Hc1 as ->.
  rewrite Hs. apply (PatternFacts.occurs_in_app pre [c0; "{"%char] (c2 :: r)).
Qed.

Lemma latex_search_test text :
  is_Some (fst (validate_latex_notation text))
  \/ is_Some (snd (validate_latex_notation text)) ->
  latex_test text = true.
Proof.
  unfold validate_latex_notation, latex_test, contains. cbn [fst snd].
  rewrite NormalizerFacts.super_re_script_re,
    NormalizerFacts.sub_re_script_re.
  intros [H|H]; apply script_search_contains in H; apply orb_true_iff;
    [left|right]; exact H.
Qed.

(** *** The tests on a missing value *)

Lemma chemistry_test_live text :
  is_Some (validate_chemistry_brackets text) -> live text = true.
Proof. by apply FixesLoopFacts.search_live. Qed.

End DetectorFacts.

(** ** Facts about the examples of a frame *)

Module ExampleFacts.
Import Re ValidateFixes Sheet Notions MoreNotions.

(** a text that passes a test which the renderings of a missing value
    fail is the value of a cell *)
Lemma get_str_value (test : string -> bool) row field :
  test "" = false -> test "nan" = false ->
  test (get_str row field) = true ->
  row !! field = Some (Val (get_str row field)).
Proof.
  unfold get_str. intros H1 H2.
  destruct (row !! field) as [[|t]|]; simpl; [congruence|done|congruence].
Qed.

Lemma get_str_Val row field t :
  row !! field = Some (Val t) -> get_str row field = t.
Proof. unfold get_str. by intros ->. Qed.

Lemma examples_iff (test : string -> bool) df e :
  test "" = false -> test "nan" = false ->
  e ∈ collect test [] (scanned_texts df)
  <-> exists row field t,
        row ∈ rows df /\ field ∈ text_fields
        /\ row !! field = Some (Val t)
        /\ test t = true /\ e = str_take 100 t.
Proof.
  intros H1 H2. rewrite ScanFacts.collect_iff. split.
  - intros (t & (row & field & Hrow & Hf & ->)%ScanFacts.scanned_texts_elem
            & Ht & ->).
    exists row, field, (get_str row field).
    split; [done|]. split; [done|].
    split; [by apply (get_str_value test)|]. done.
  - intros (row & field & t & Hrow & Hf & Hv & Ht & ->).
    exists t. split; [|done].
    apply ScanFacts.scanned_texts_elem. exists row, field.
    split; [done|]. split; [done|]. by rewrite (get_str_Val _ _ t).
Qed.

Lemma chemistry_test_missing :
  chemistry_test "" = false /\ chemistry_test "nan" = false.
Proof. split; vm_compute; reflexivity. Qed.

Lemma comma_test_missing :
  comma_test "" = false /\ comma_test "nan" = false.
Proof. split; vm_compute; reflexivity. Qed.

Lemma latex_test_missing :
  latex_test "" = false /\ latex_test "nan" = false.
Proof. split; vm_compute; reflexivity. Qed.

(** the texts of the frame [twice body] *)
Lemma scanned_texts_twice body :
  scanned_texts (twice body) = [body; ""; ""; body; ""; ""]%string.
Proof.
  unfold scanned_texts, twice, body_row, get_str. cbn [rows flat_map app].
  rewrite lookup_singleton_eq, !lookup_singleton_ne by done. done.
Qed.

Lemma str_take_shorter n t : n < length (chars t) -> str_take n t <> t.
Proof.
  intros Hlen Heq. pose proof (ScanFacts.str_take_length n t) as H.
  rewrite Heq in H. lia.
Qed.

(** a text that stands in two rows is scanned twice *)
Lemma row_texts_split (row : gmap string cell) field body :
  field ∈ text_fields -> row !! field = Some (Val body) ->
  exists x y,
    [get_str row "Body Text"; get_str row "Answer"; get_str row "Title"]
    = x ++ body :: y.
Proof.
  unfold text_fields. rewrite !elem_of_cons, elem_of_nil.
  intros [->|[->|[->|[]]]] Hv; rewrite <- (get_str_Val _ _ _ Hv).
  - by exists [], [get_str row "Answer"; get_str row "Title"].
  - by exists [get_str row "Body Text"], [get_str row "Title"].
  - by exists [get_str row "Body Text"; get_str row "Answer"], [].
Qed.

Lemma scanned_texts_two df i j r1 r2 f g body :
  i < j -> rows df !! i = Some r1 -> rows df !! j = Some r2 ->
  f ∈ text_fields -> g ∈ text_fields ->
  r1 !! f = Some (Val body) -> r2 !! g = Some (Val body) ->
  exists ts1 ts2 ts3,
    scanned_texts df = ts1 ++ body :: ts2 ++ body :: ts3.
Proof.
  intros Hij Hi Hj Hf Hg H1 H2. unfold scanned_texts.
  set (F := fun row : gmap string cell =>
              [get_str row "Body Text"; get_str row "Answer";
               get_str row "Title"]).
  destruct (row_texts_split r1 f body Hf H1) as (x1 & y1 & Hr1).
  destruct (row_texts_split r2 g body Hg H2) as (x2 & y2 & Hr2).
  fold (F r1) in Hr1. fold (F r2) in Hr2.
  rewrite <- (take_drop_middle (rows df) i r1 Hi).
  assert (drop (S i) (rows df) !! (j - S i) = Some r2) as Hj'.
  { rewrite lookup_drop. by replace (S i + (j - S i)) with j by lia. }
  rewrite <- (take_drop_middle (drop (S i) (rows df)) (j - S i) r2 Hj').
  set (A := take i (rows df)).
  set (B := take (j - S i) (drop (S i) (rows df))).
  set (C := drop (S (j - S i)) (drop (S i) (rows df))).
  rewrite flat_map_app. cbn [flat_map]. rewrite flat_map_app.
  cbn [flat_map]. rewrite Hr1, Hr2.
  exists (flat_map F A ++ x1), (y1 ++ flat_map F B ++ x2),
    (y2 ++ flat_map F C).
  rewrite <- ?app_assoc. cbn [app]. rewrite <- ?app_assoc. cbn [app].
  reflexivity.
Qed.

(** the texts of the examples of validate_fixes.py are scanned texts *)
Lemma chemistry_texts_elem df t :
  t ∈ chemistry_texts (FixesLoop.find_examples df)
  <-> t ∈ scanned_texts df /\ is_Some (validate_chemistry_brackets t).
Proof.
  unfold FixesLoop.find_examples.
  rewrite FixesLoopFacts.check_rows_chemistry.
  unfold chemistry_texts at 1. cbn [FixesLoop.chemistry_examples map app].
  rewrite list_elem_of_filter. tauto.
Qed.

End ExampleFacts.

(** * Further properties of the scripts *)

Import Re Semantics Patterns FixesScript MoreNotions.

(** ** The detectors of validate_fixes.py *)

(** X1: the second alternative of the chemistry pattern adds nothing:
    [validate_chemistry_brackets] returns the same match, and [re.findall]
    the same list, as with the first alternative alone, which is the
    pattern that the bracket check of the script compares. *)
Theorem chemistry_second_alternative_redundant (text : string) :
  validate_chemistry_brackets text = search chemistry_first (chars text)
  /\ all_matches chemistry_re text = bracket_matches text.
Proof.
  split.
  - apply PatternFacts.chemistry_search_first.
  - unfold all_matches, bracket_matches. f_equal.
    apply ReFacts.findall_from_ext. apply PatternFacts.chemistry_match_at.
Qed.

(** X2: [validate_chemistry_brackets] finds a match exactly when the text
    holds, in a row, an opening square bracket, an uppercase letter, a run
    of lowercase letters and digits, and a closing square bracket. *)
Theorem chemistry_detected_iff (text : string) :
  is_Some (validate_chemistry_brackets text)
  <-> exists pre u body post,
        chars text = pre ++ "["%char :: u :: body ++ "]"%char :: post
        /\ Char.upper u = true /\ forallb lower_or_digit body = true.
Proof. apply PatternFacts.chemistry_search_iff. Qed.

(** X3: on a text over the ASCII alphabet, the match that
    [validate_commas] reports for a number with thousand separators spans
    one to three digits followed by one or more groups of a comma and three
    digits, and has no word character next to it on either side. *)
Theorem thousand_match_shape (text : string) (a b : nat) :
  ascii_text text ->
  fst (validate_commas text) = Some (a, b) ->
  exists pre w post,
    chars text = pre ++ w ++ post /\ a = length pre
    /\ b = length pre + length w /\ grouped_number w
    /\ is_word (last pre) = false /\ is_word (head post) = false.
Proof. intros _. apply DetectorFacts.thousand_search_shape. Qed.

Lemma thousand_match_shape_witness :
  ascii_text "The answer is 12,500 units"
  /\ fst (validate_commas "The answer is 12,500 units") = Some (14, 20)
  /\ exists pre w post,
       chars "The answer is 12,500 units" = pre ++ w ++ post
       /\ 14 = length pre /\ 20 = length pre + length w /\ grouped_number w
       /\ is_word (last pre) = false /\ is_word (head post) = false.
Proof.
  assert (ascii_text "The answer is 12,500 units") as H0
      by (vm_compute; reflexivity).
  assert (fst (validate_commas "The answer is 12,500 units") = Some (14, 20))
    as H by (vm_compute; reflexivity).
  split; [exact H0|]. split; [exact H|].
  exact (thousand_match_shape "The answer is 12,500 units" 14 20 H0 H).
Defined.

(** X4: on a text over the ASCII alphabet, every entry of the lists
    [thousand_before] and [thousand_after] of the comma check is a number
    with thousand separators: one to three digits followed by one or more
    groups of a comma and three digits. *)
Theorem thousand_matches_grouped (text w : string) :
  ascii_text text ->
  w ∈ thousand_matches text -> grouped_number (chars w).
Proof.
  intros _. unfold thousand_matches.
  intros (l & -> & Hl)%list_elem_of_fmap.
  rewrite ScanFacts.chars_string_of_list.
  by apply DetectorFacts.thousand_findall_grouped in Hl.
Qed.

Lemma thousand_matches_grouped_witness :
  ascii_text "The answer is 12,500 units"
  /\ "12,500" ∈ thousand_matches "The answer is 12,500 units"
  /\ grouped_number (chars "12,500").
Proof.
  assert (ascii_text "The answer is 12,500 units") as H0
      by (vm_compute; reflexivity).
  assert ("12,500" ∈ thousand_matches "The answer is 12,500 units") as H.
  { vm_compute. apply list_elem_of_here. }
  split; [exact H0|]. split; [exact H|].
  exact (thousand_matches_grouped "The answer is 12,500 units" "12,500" H0 H).
Defined.

(** X5: a text in which [validate_latex_notation] finds a superscript or a
    subscript passes the test ['^{' in text or '_{' in text] of the
    example scan of [process_public_sheet]. *)
Theorem latex_match_passes_scan_test (text : string) :
  is_Some (fst (validate_latex_notation text))
  \/ is_Some (snd (validate_latex_notation text)) ->
  contains "^{" text || contains "_{" text = true.
Proof. apply DetectorFacts.latex_search_test. Qed.

Lemma latex_match_passes_scan_test_witness :
  (is_Some (fst (validate_latex_notation "x^{2}"))
   \/ is_Some (snd (validate_latex_notation "x^{2}")))
  /\ contains "^{" "x^{2}" || contains "_{" "x^{2}" = true.
Proof.
  assert (is_Some (fst (validate_latex_notation "x^{2}"))
          \/ is_Some (snd (validate_latex_notation "x^{2}"))) as H.
  { left. vm_compute. eauto. }
  split; [exact H|]. exact (latex_match_passes_scan_test "x^{2}" H).
Defined.

(** X6: a text over the ASCII alphabet in which [validate_commas] finds
    a number with thousand separators passes the test
    [',' in text and any(c.isdigit() ...)] of the example scan of
    [process_public_sheet]. *)
Theorem thousand_match_passes_scan_test (text : string) :
  ascii_text text ->
  is_Some (fst (validate_commas text)) ->
  contains "," text && existsb Char.digit (chars text) = true.
Proof. intros _. apply DetectorFacts.thousand_comma_test. Qed.

Lemma thousand_match_passes_scan_test_witness :
  ascii_text "The answer is 12,500 units"
  /\ is_Some (fst (validate_commas "The answer is 12,500 units"))
  /\ contains "," "The answer is 12,500 units"
     && existsb Char.digit (chars "The answer is 12,500 units") = true.
Proof.
  assert (ascii_text "The answer is 12,500 units") as H0
      by (vm_compute; reflexivity).
  assert (is_Some (fst (validate_commas "The answer is 12,500 units"))) as H.
  { vm_compute. eauto. }
  split; [exact H0|]. split; [exact H|].
  exact (thousand_match_passes_scan_test "The answer is 12,500 units" H0 H).
Defined.

(** X7: in the comma check the guards [has_thousand] and [has_coord]
    follow from the lists: the thousand verdict is the comparison of the
    two lengths alone, and [has_coord] says that [coord_before] is not
    empty. *)
Theorem comma_check_guards (text processed : string) :
  thousand_removed text processed
  = (length (thousand_matches processed) <? length (thousand_matches text))%nat
  /\ coordinates_preserved text processed
     = negb (bool_decide (all_matches coordinates_re text = []))
       && bool_decide (all_matches coordinates_re text
                       = all_matches coordinates_re processed).
Proof.
  split.
  - unfold thousand_removed, validate_commas. cbn [fst].
    destruct (length (thousand_matches processed)
              <? length (thousand_matches text))%nat eqn:Hlt;
      [|apply andb_false_r].
    rewrite andb_true_r. apply bool_decide_eq_true_2.
    apply Nat.ltb_lt in Hlt.
    destruct (search thousand_re (chars text)) as [m|] eqn:Hs; [eauto|].
    apply (DetectorFacts.all_matches_nil thousand_re) in Hs.
    unfold all_matches in Hs. unfold thousand_matches in Hlt.
    rewrite Hs in Hlt. simpl in Hlt. lia.
  - unfold coordinates_preserved, validate_commas. cbn [snd]. f_equal.
    destruct (search coordinates_re (chars text)) as [m|] eqn:Hs.
    + rewrite bool_decide_eq_true_2 by eauto.
      rewrite bool_decide_eq_false_2; [done|].
      rewrite DetectorFacts.all_matches_nil. congruence.
    + rewrite bool_decide_eq_false_2 by (by intros [? ?]).
      rewrite bool_decide_eq_true_2; [done|].
      by apply DetectorFacts.all_matches_nil.
Qed.

(** ** The example scan of process_public_sheet.py *)

(** X8: the chemistry examples that [process_public_sheet] collects are
    the first 100 characters of the values of Body Text, Answer and Title
    on which the chemistry pattern matches; the bracket test in front of
    the pattern and the test against the list leave nothing out. *)
Theorem chemistry_examples_iff (df : DataFrame) (e : string) :
  e ∈ chemistry_examples (find_examples df)
  <-> exists row field t,
        row ∈ rows df /\ field ∈ text_fields
        /\ row !! field = Some (Val t)
        /\ is_Some (validate_chemistry_brackets t)
        /\ e = str_take 100 t.
Proof.
  rewrite ScanFacts.find_examples_chemistry.
  rewrite (ExampleFacts.examples_iff chemistry_test)
    by apply ExampleFacts.chemistry_test_missing.
  do 3 (apply exist_proper; intros ?).
  rewrite ScanFacts.chemistry_test_search, bool_decide_eq_true. done.
Qed.

(** X9: the LaTeX examples that [process_public_sheet] collects are the
    first 100 characters of the values of Body Text, Answer and Title that
    hold one of the two markers; on a frame whose texts are over the ASCII
    alphabet, the comma examples are the first 100 characters of the values
    that hold a comma and a digit. *)
Theorem comma_and_latex_examples_iff (df : DataFrame) (e : string) :
  (Forall ascii_text (scanned_texts df) ->
   (e ∈ comma_examples (find_examples df)
    <-> exists row field t,
          row ∈ rows df /\ field ∈ text_fields
          /\ row !! field = Some (Val t)
          /\ contains "," t && existsb Char.digit (chars t) = true
          /\ e = str_take 100 t))
  /\ (e ∈ latex_examples (find_examples df)
      <-> exists row field t,
            row ∈ rows df /\ field ∈ text_fields
            /\ row !! field = Some (Val t)
            /\ contains "^{" t || contains "_{" t = true
            /\ e = str_take 100 t).
Proof.
  split.
  - intros _. rewrite ScanFacts.find_examples_comma.
    apply (ExampleFacts.examples_iff comma_test);
      apply ExampleFacts.comma_test_missing.
  - rewrite ScanFacts.find_examples_latex.
    apply (ExampleFacts.examples_iff latex_test);
      apply ExampleFacts.latex_test_missing.
Qed.

Lemma comma_and_latex_examples_iff_witness :
  Forall ascii_text (scanned_texts (pair_frame "about 12,500 units"))
  /\ "about 12,500 units"
       ∈ comma_examples (find_examples (pair_frame "about 12,500 units")).
Proof.
  assert (Forall ascii_text
            (scanned_texts (pair_frame "about 12,500 units"))) as H.
  { repeat constructor; vm_compute; reflexivity. }
  split; [exact H|].
  apply (proj1 (comma_and_latex_examples_iff _ _) H).
  exists (sample_row "about 12,500 units" ""), "Body Text",
    "about 12,500 units".
  split; [apply list_elem_of_here|].
  split; [apply list_elem_of_here|].
  split; [vm_compute; reflexivity|].
  split; vm_compute; reflexivity.
Defined.

(** X10: no entry of the three example lists is longer than 100
    characters. *)
Theorem examples_cut_to_100 (df : DataFrame) :
  Forall (fun e => length (chars e) <= 100)
         (chemistry_examples (find_examples df)
            ++ comma_examples (find_examples df)
            ++ latex_examples (find_examples df)).
Proof.
  rewrite ScanFacts.find_examples_chemistry, ScanFacts.find_examples_comma,
    ScanFacts.find_examples_latex.
  rewrite !Forall_app.
  repeat split; apply ScanFacts.collect_cut, Forall_nil_2.
Qed.

(** X11: when no value of the three text columns is longer than 100
    characters, no example list holds a text twice. *)
Theorem examples_distinct_when_short (df : DataFrame) :
  Forall (fun t => length (chars t) <= 100) (scanned_texts df) ->
  NoDup (chemistry_examples (find_examples df))
  /\ NoDup (comma_examples (find_examples df))
  /\ NoDup (latex_examples (find_examples df)).
Proof.
  intros H.
  rewrite ScanFacts.find_examples_chemistry, ScanFacts.find_examples_comma,
    ScanFacts.find_examples_latex.
  repeat split; apply ScanFacts.collect_NoDup; (done || apply NoDup_nil_2).
Qed.

Lemma examples_distinct_when_short_witness :
  Forall (fun t => length (chars t) <= 100)
         (scanned_texts (twice "about 12,500 units"))
  /\ NoDup (comma_examples (find_examples (twice "about 12,500 units"))).
Proof.
  assert (Forall (fun t => length (chars t) <= 100)
                 (scanned_texts (twice "about 12,500 units"))) as H.
  { rewrite ExampleFacts.scanned_texts_twice.
    repeat constructor; vm_compute; lia. }
  split; [exact H|].
  exact (proj1 (proj2 (examples_distinct_when_short _ H))).
Defined.

(** X12: the test against the list compares the whole text with entries
    that were cut to 100 characters.  So when a text of more than 100
    characters that holds a comma and a digit stands in two rows of a
    frame with the required columns, [process_public_sheet] lists its
    first 100 characters twice among the comma examples. *)
Theorem long_text_listed_twice
        (pre : normaliser) (df : DataFrame) (i j : nat)
        (r1 r2 : gmap string cell) (f g body : string) :
  Forall (fun c => c ∈ columns df) required_cols ->
  well_formed df ->
  i < j -> rows df !! i = Some r1 -> rows df !! j = Some r2 ->
  f ∈ text_fields -> g ∈ text_fields ->
  r1 !! f = Some (Val body) -> r2 !! g = Some (Val body) ->
  100 < length (chars body) ->
  contains "," body && existsb Char.digit (chars body) = true ->
  exists r l1 l2 l3,
    process_public_sheet pre df = Some r
    /\ comma_examples (found r)
       = l1 ++ str_take 100 body :: l2 ++ str_take 100 body :: l3.
Proof.
  intros Hreq Hwf Hij Hi Hj Hf Hg H1 H2 Hlen Htest.
  unfold process_public_sheet.
  rewrite (SheetFacts.missing_cols_nil _ Hreq).
  destruct (SheetFacts.process_rows_total pre (rows df) (mkState df 0 []) Hwf)
    as [st Hst].
  rewrite Hst. cbn [mbind option_bind].
  destruct (ExampleFacts.scanned_texts_two df i j r1 r2 f g body
              Hij Hi Hj Hf Hg H1 H2) as (ts1 & ts2 & ts3 & Hts).
  destruct (ScanFacts.collect_twice comma_test ts1 ts2 ts3 body Htest Hlen)
    as (l1 & l2 & l3 & Hl).
  eexists _, l1, l2, l3. split; [reflexivity|].
  cbn [found]. by rewrite ScanFacts.find_examples_comma, Hts.
Qed.

Lemma long_text_listed_twice_witness :
  Forall (fun c => c ∈ columns (pair_frame long_body)) required_cols
  /\ well_formed (pair_frame long_body)
  /\ 100 < length (chars long_body)
  /\ exists r l1 l2 l3,
       process_public_sheet normalize (pair_frame long_body) = Some r
       /\ comma_examples (found r)
          = l1 ++ str_take 100 long_body
               :: l2 ++ str_take 100 long_body :: l3.
Proof.
  assert (Forall (fun c => c ∈ columns (pair_frame long_body))
            required_cols) as H1.
  { repeat constructor; vm_compute; rewrite !elem_of_cons; tauto. }
  assert (well_formed (pair_frame long_body)) as H2.
  { repeat constructor; vm_compute; eauto. }
  assert (100 < length (chars long_body)) as H3 by (vm_compute; lia).
  split; [exact H1|]. split; [exact H2|]. split; [exact H3|].
  apply (long_text_listed_twice normalize (pair_frame long_body) 0 1
           (sample_row long_body "") (sample_row long_body "")
           "Body Text" "Body Text" long_body H1 H2).
  - lia.
  - reflexivity.
  - reflexivity.
  - apply list_elem_of_here.
  - apply list_elem_of_here.
  - vm_compute. reflexivity.
  - vm_compute. reflexivity.
  - exact H3.
  - vm_compute. reflexivity.
Defined.

(** X13: what the example loop of validate_fixes.py finds, the example
    scan of [process_public_sheet] lists, cut to 100 characters: the
    chemistry examples of the two scripts are the same texts, and every
    text with a thousand-separator match, a superscript or a subscript is
    among the comma examples, or the LaTeX examples, of the scan. *)
Theorem fixes_examples_listed_by_scan (df : DataFrame) :
  (forall e,
      e ∈ chemistry_examples (find_examples df)
      <-> exists t,
            t ∈ chemistry_texts (FixesLoop.find_examples df)
            /\ e = str_take 100 t)
  /\ (forall i f t m co,
         (i, f, t, Some m, co)
           ∈ FixesLoop.comma_examples (FixesLoop.find_examples df) ->
         str_take 100 t ∈ comma_examples (find_examples df))
  /\ (forall t,
         t ∈ latex_texts (FixesLoop.find_examples df) ->
         str_take 100 t ∈ latex_examples (find_examples df)).
Proof.
  split; [|split].
  - intros e. rewrite ScanFacts.find_examples_chemistry, ScanFacts.collect_iff.
    apply exist_proper; intros t.
    rewrite ExampleFacts.chemistry_texts_elem,
      ScanFacts.chemistry_test_search, bool_decide_eq_true.
    unfold validate_chemistry_brackets. tauto.
  - intros i f t m co Hin. unfold FixesLoop.find_examples in Hin.
    apply FixesLoopFacts.check_rows_comma in Hin
      as [Hin|(i' & f' & t' & Ht & Heq)]; [by apply elem_of_nil in Hin|].
    injection Heq as -> -> -> Hm Hco.
    rewrite ScanFacts.find_examples_comma.
    apply ScanFacts.collect_complete; [apply Forall_nil_2|exact Ht|].
    apply DetectorFacts.thousand_comma_test.
    unfold validate_commas in Hm. cbn [fst] in Hm. rewrite <- Hm. eauto.
  - intros t Hin. unfold FixesLoop.find_examples in Hin.
    apply FixesLoopFacts.check_rows_latex in Hin as [Hin|[Ht Hm]];
      [by apply elem_of_nil in Hin|].
    rewrite ScanFacts.find_examples_latex.
    apply ScanFacts.collect_complete; [apply Forall_nil_2|exact Ht|].
    by apply DetectorFacts.latex_search_test.
Qed.

(** ** The processing loop of process_public_sheet.py *)

(** X14: the number that [process_public_sheet] prints as the count of
    processed fields is the number of normalised texts that the normaliser
    changed; it is at most the number of calls, which is at most three
    times the number of rows. *)
Theorem processed_counts_changed_texts
        (pre : normaliser) (df : DataFrame) (r : report) :
  process_public_sheet pre df = Some r ->
  processed r = length (changed_calls pre (normalised r))
  /\ processed r <= length (normalised r) <= 3 * length (rows df).
Proof.
  unfold process_public_sheet.
  destruct (missing_cols df) as [|c l].
  - destruct (process_rows pre (mkState df 0 []) (rows df)) as [st|] eqn:Hst;
      simpl; [|discriminate].
    intros [= <-]. cbn [processed normalised].
    assert (counted pre st) as Hcount.
    { by apply (CountFacts.process_rows_counted pre (rows df)
                  (mkState df 0 [])). }
    apply SheetFacts.process_rows_spec in Hst as [_ Hcalls].
    cbn [calls frame app] in Hcalls.
    unfold counted in Hcount. split; [done|]. split.
    + rewrite Hcount. apply CountFacts.changed_calls_length.
    + rewrite Hcalls. apply CountFacts.flat_map_row_texts_length.
  - intros [= <-]. cbn [processed normalised]. simpl. lia.
Qed.

Lemma processed_counts_changed_texts_witness :
  process_public_sheet normalize (sample_frame "12,500" "")
  = Some (mkReport (Some (sample_frame "12,500" ""))
            (find_examples (sample_frame "12,500" "")) 1 ["12,500"; "Ions"])
  /\ 1 = length (changed_calls normalize ["12,500"; "Ions"]).
Proof.
  assert (process_public_sheet normalize (sample_frame "12,500" "")
          = Some (mkReport (Some (sample_frame "12,500" ""))
                    (find_examples (sample_frame "12,500" "")) 1
                    ["12,500"; "Ions"])) as H.
  { vm_compute. reflexivity. }
  split; [exact H|].
  exact (proj1 (processed_counts_changed_texts normalize _ _ H)).
Defined.

(** X15: when one of the six required columns is not among the columns of
    the frame, [process_public_sheet] stops with a bare [return]: it
    returns nothing, looks for no examples and normalises no text,
    whatever the rows hold. *)
Theorem missing_column_stops
        (pre : normaliser) (df : DataFrame) (col : string) :
  col ∈ required_cols -> col ∉ columns df ->
  process_public_sheet pre df
  = Some (mkReport None (mkExamples [] [] []) 0 []).
Proof.
  intros Hreq Hcol. unfold process_public_sheet.
  assert (col ∈ missing_cols df) as Hin.
  { unfold missing_cols. by apply list_elem_of_filter. }
  destruct (missing_cols df); [by apply elem_of_nil in Hin|done].
Qed.

Lemma missing_column_stops_witness :
  "Answer" ∈ required_cols
  /\ ("Answer" ∉ columns (twice "12,500"))
  /\ process_public_sheet normalize (twice "12,500")
     = Some (mkReport None (mkExamples [] [] []) 0 []).
Proof.
  assert ("Answer" ∈ required_cols) as H1.
  { unfold required_cols. rewrite !elem_of_cons. auto 10. }
  assert ("Answer" ∉ columns (twice "12,500")) as H2.
  { unfold twice. cbn [columns]. by intros ?%list_elem_of_singleton. }
  split; [exact H1|]. split; [exact H2|].
  exact (missing_column_stops normalize _ "Answer" H1 H2).
Defined.

(** ** scripts/validate-sheet.py *)

(** X16: the key that [extract_sheet_key] returns is not empty, is made of
    letters, digits, hyphens and underscores, stands in the address right
    after "/spreadsheets/d/", and is not followed by a further character
    of that kind. *)
Theorem sheet_key_shape (url key : string) :
  ValidateSheet.extract_sheet_key url = Some key ->
  exists pre post,
    chars url = pre ++ chars "/spreadsheets/d/" ++ chars key ++ post
    /\ chars key <> []
    /\ forallb ValidateSheet.key_char (chars key) = true
    /\ is_key_char (head post) = false.
Proof.
  intros (pre & post & Hurl & [Hne Hall] & Hpost & _)
           %KeyFacts.extract_sheet_key_Some.
  exists pre, post. done.
Qed.

Lemma sheet_key_shape_witness :
  ValidateSheet.extract_sheet_key
    "https://docs.google.com/spreadsheets/d/1ABC123/edit" = Some "1ABC123"
  /\ exists pre post,
       chars "https://docs.google.com/spreadsheets/d/1ABC123/edit"
       = pre ++ chars "/spreadsheets/d/" ++ chars "1ABC123" ++ post
       /\ chars "1ABC123" <> []
       /\ forallb ValidateSheet.key_char (chars "1ABC123") = true
       /\ is_key_char (head post) = false.
Proof.
  assert (ValidateSheet.extract_sheet_key
            "https://docs.google.com/spreadsheets/d/1ABC123/edit"
          = Some "1ABC123") as H by (vm_compute; reflexivity).
  split; [exact H|]. exact (sheet_key_shape _ _ H).
Defined.

(** X17: [extract_sheet_key] returns a key exactly when the address holds
    "/spreadsheets/d/" followed by a letter, a digit, a hyphen or an
    underscore; otherwise it returns [None]. *)
Theorem sheet_key_found_iff (url : string) :
  is_Some (ValidateSheet.extract_sheet_key url)
  <-> exists pre c post,
        chars url = pre ++ chars "/spreadsheets/d/" ++ c :: post
        /\ ValidateSheet.key_char c = true.
Proof. apply KeyFacts.extract_sheet_key_is_Some. Qed.

(** X18: [extract_sheet_key] gives back the key from which the addresses
    of the scripts are built: the export address of [get_public_sheet]
    and the two addresses of [validate_sheet_format]. *)
Theorem sheet_key_round_trip
        (key gid : string) (sheet_name : option string) :
  valid_key key ->
  ValidateSheet.extract_sheet_key (export_url key gid) = Some key
  /\ ValidateSheet.extract_sheet_key (ValidateSheet.csv_url key sheet_name)
     = Some key.
Proof.
  intros Hkey. split.
  - exact (KeyFacts.extract_from_address key
             ("export?format=csv&gid=" +:+ gid) Hkey).
  - unfold ValidateSheet.csv_url.
    destruct sheet_name as [name|]; [destruct (String.eqb name "")|].
    + exact (KeyFacts.extract_from_address key "export?format=csv" Hkey).
    + exact (KeyFacts.extract_from_address key
               ("gviz/tq?tqx=out:csv&sheet=" +:+ name) Hkey).
    + exact (KeyFacts.extract_from_address key "export?format=csv" Hkey).
Qed.

Lemma sheet_key_round_trip_witness :
  valid_key "1Bnr7F1un_M934-x"
  /\ ValidateSheet.extract_sheet_key (export_url "1Bnr7F1un_M934-x" "943222146")
     = Some "1Bnr7F1un_M934-x".
Proof.
  assert (valid_key "1Bnr7F1un_M934-x") as H.
  { split; [done|vm_compute; reflexivity]. }
  split; [exact H|].
  exact (proj1 (sheet_key_round_trip "1Bnr7F1un_M934-x" "943222146" None H)).
Defined.

(** X19: [validate_sheet_format] accepts a sheet exactly when the sheet
    can be read, has a row, has the fifteen required headers, and has no
    problem row without a Problem Name; warnings never change the
    verdict. *)
Theorem sheet_accepted_iff
        (read_csv : string -> option DataFrame)
        (sheet_key : string) (sheet_name : option string) :
  ValidateSheet.validate_sheet_format read_csv sheet_key sheet_name = true
  <-> exists df,
        read_csv (ValidateSheet.csv_url sheet_key sheet_name) = Some df
        /\ rows df <> []
        /\ Forall (fun h => h ∈ columns df) ValidateSheet.required_headers
        /\ Forall (fun row => nameless_problem row = false) (rows df).
Proof. apply FormatFacts.validate_sheet_format_true. Qed.

(** X20: the error messages name the rows as the sheet numbers them, the
    header being row 1: "Row n" is reported exactly when the row of index
    n - 2 is a problem row without a Problem Name, and there are as many
    errors as such rows. *)
Theorem errors_name_sheet_rows (df : DataFrame) (n : nat) :
  (error_message n ∈ fst (ValidateSheet.issues df)
   <-> exists row,
         2 <= n /\ rows df !! (n - 2) = Some row
         /\ nameless_problem row = true)
  /\ length (fst (ValidateSheet.issues df))
     = length (filter (fun row => nameless_problem row = true) (rows df)).
Proof.
  rewrite FormatFacts.issues_errors. split.
  - rewrite FormatFacts.errors_from_elem. split.
    + intros (i & row & Hi & Hrow & ->). exists row.
      split; [lia|]. split; [|done].
      by replace (0 + i + 2 - 2) with i by lia.
    + intros (row & Hn & Hi & Hrow). exists (n - 2), row.
      split; [done|]. split; [done|lia].
  - apply FormatFacts.errors_from_length.
Qed.

(** X21: a sheet that [validate_sheet_format] accepts passes the column
    check of [process_public_sheet], which then returns the frame. *)
Theorem accepted_sheet_is_processed
        (read_csv : string -> option DataFrame) (pre : normaliser)
        (sheet_key : string) (sheet_name : option string) (df : DataFrame) :
  ValidateSheet.validate_sheet_format read_csv sheet_key sheet_name = true ->
  read_csv (ValidateSheet.csv_url sheet_key sheet_name) = Some df ->
  well_formed df ->
  missing_cols df = []
  /\ returned <$> process_public_sheet pre df = Some (Some df).
Proof.
  intros (df' & Hread & _ & Hh & _)%FormatFacts.validate_sheet_format_true
         Hdf Hwf.
  rewrite Hdf in Hread. injection Hread as <-.
  apply FormatFacts.required_cols_headers in Hh.
  pose proof (SheetFacts.missing_cols_nil _ Hh) as Hmiss.
  split; [done|]. unfold process_public_sheet. rewrite Hmiss.
  destruct (SheetFacts.process_rows_total pre (rows df) (mkState df 0 []) Hwf)
    as [st Hst].
  rewrite Hst. simpl.
  by apply SheetFacts.process_rows_spec in Hst as [-> _].
Qed.

Lemma accepted_sheet_is_processed_witness :
  ValidateSheet.validate_sheet_format
    (fun _ => Some (full_frame "ions" "12,500")) "1ABC123" None = true
  /\ well_formed (full_frame "ions" "12,500")
  /\ returned <$> process_public_sheet normalize (full_frame "ions" "12,500")
     = Some (Some (full_frame "ions" "12,500")).
Proof.
  assert (ValidateSheet.validate_sheet_format
            (fun _ => Some (full_frame "ions" "12,500")) "1ABC123" None
          = true) as H1 by (vm_compute; reflexivity).
  assert (well_formed (full_frame "ions" "12,500")) as H2.
  { repeat constructor; vm_compute; eauto. }
  split; [exact H1|]. split; [exact H2|].
  exact (proj2 (accepted_sheet_is_processed
                  (fun _ => Some (full_frame "ions" "12,500")) normalize
                  "1ABC123" None _ H1 eq_refl H2)).
Defined.

(** X22: [main] exits with status 0 exactly when it is given an address
    from which a key can be extracted and [validate_sheet_format] accepts
    the sheet of that key; the test for an empty key rejects only
    addresses without a key. *)
Theorem main_succeeds_iff
        (read_csv : string -> option DataFrame) (argv : list string) :
  ValidateSheet.main read_csv argv = 0
  <-> exists prog url rest key,
        argv = prog :: url :: rest
        /\ ValidateSheet.extract_sheet_key url = Some key
        /\ ValidateSheet.validate_sheet_format read_csv key (head rest)
           = true.
Proof.
  unfold ValidateSheet.main. split.
  - destruct argv as [|prog [|url rest]]; [done..|].
    destruct (ValidateSheet.extract_sheet_key url) as [key|] eqn:Hkey;
      [|done].
    destruct (String.eqb key ""); [done|].
    destruct (ValidateSheet.validate_sheet_format read_csv key (head rest))
      eqn:Hv; [|done].
    intros _. by exists prog, url, rest, key.
  - intros (prog & url & rest & key & -> & Hkey & Hv).
    rewrite Hkey, Hv.
    apply KeyFacts.extract_sheet_key_Some in Hkey
      as (_ & _ & _ & [Hne _] & _).
    destruct (String.eqb_spec key ""%string) as [->|_]; done.
Qed.

(** X23: with the two columns present, a problem is warned to have no
    steps exactly when it names a problem row and no row of that name is a
    step row; no problem is warned about twice. *)
Theorem no_steps_warning_iff (df : DataFrame) (problem : string) :
  "Row Type" ∈ columns df -> "Problem Name" ∈ columns df ->
  (no_steps_message problem ∈ ValidateSheet.step_warnings df
   <-> (exists row,
          row ∈ rows df
          /\ ValidateSheet.cell_is (row !! "Row Type") "problem" = true
          /\ row !! "Problem Name" = Some (Val problem))
       /\ forall row,
            row ∈ rows df ->
            ValidateSheet.cell_is (row !! "Problem Name") problem = true ->
            ValidateSheet.cell_is (row !! "Row Type") "step" = false)
  /\ NoDup (ValidateSheet.step_warnings df).
Proof.
  intros Ht Hn. unfold ValidateSheet.step_warnings.
  rewrite !bool_decide_eq_true_2 by done. cbn [andb].
  fold no_steps_message. split.
  - rewrite <- FormatFacts.problems_elem, <- FormatFacts.steps_nil. split.
    + intros (q & Hq%FormatFacts.no_steps_message_inj
              & [Hs Hp]%list_elem_of_filter)%list_elem_of_fmap.
      subst q. split; [done|]. by apply length_zero_iff_nil.
    + intros [Hp Hs]. apply list_elem_of_fmap. exists problem.
      split; [done|]. apply list_elem_of_filter. split; [|done].
      by rewrite Hs.
  - apply (NoDup_fmap_2 (A := string)).
    + intros p q. apply FormatFacts.no_steps_message_inj.
    + apply NoDup_filter, FormatFacts.unique_NoDup.
Qed.

Lemma no_steps_warning_iff_witness :
  "Row Type" ∈ columns (problem_frame "ions")
  /\ "Problem Name" ∈ columns (problem_frame "ions")
  /\ ValidateSheet.step_warnings (problem_frame "ions")
     = ["Problem 'ions' has no steps"]
  /\ no_steps_message "ions" ∈ ValidateSheet.step_warnings (problem_frame "ions").
Proof.
  assert ("Row Type" ∈ columns (problem_frame "ions")) as H1.
  { cbn [problem_frame columns]. unfold ValidateSheet.required_headers.
    rewrite !elem_of_cons. auto 20. }
  assert ("Problem Name" ∈ columns (problem_frame "ions")) as H2.
  { cbn [problem_frame columns]. unfold ValidateSheet.required_headers.
    rewrite !elem_of_cons. auto 20. }
  split; [exact H1|]. split; [exact H2|].
  split; [vm_compute; reflexivity|].
  apply (proj2 (proj1 (no_steps_warning_iff (problem_frame "ions") "ions"
                         H1 H2))).
  split.
  - exists (problem_row "ions"). split; [apply list_elem_of_here|].
    split; vm_compute; reflexivity.
  - intros row Hrow _. cbn [problem_frame rows] in Hrow.
    apply list_elem_of_singleton in Hrow. rewrite Hrow.
    vm_compute. reflexivity.
Defined.

(** ** The bracket check and the script check of validate_fixes.py *)

(** X24: on a chemistry example the list [chem_before] of the bracket
    check is not empty, and when the check passes, the chemistry detector
    still finds a match in the processed text. *)
Theorem bracket_check_on_examples (text processed : string) :
  is_Some (validate_chemistry_brackets text) ->
  bracket_matches text <> []
  /\ (brackets_preserved text processed = true ->
      is_Some (validate_chemistry_brackets processed)).
Proof.
  rewrite !PatternFacts.chemistry_search_first.
  change (bracket_matches text) with (all_matches chemistry_first text).
  intros Hm.
  assert (all_matches chemistry_first text <> []) as Hne.
  { rewrite DetectorFacts.all_matches_nil. destruct Hm; congruence. }
  split; [done|].
  intros Heq%bool_decide_eq_true_1.
  change (bracket_matches ?t) with (all_matches chemistry_first t) in Heq.
  rewrite Heq, DetectorFacts.all_matches_nil in Hne.
  by apply not_eq_None_Some.
Qed.

Lemma bracket_check_on_examples_witness :
  is_Some (validate_chemistry_brackets "Add [Na] to water")
  /\ bracket_matches "Add [Na] to water" <> [].
Proof.
  assert (is_Some (validate_chemistry_brackets "Add [Na] to water")) as H.
  { vm_compute. eauto. }
  split; [exact H|].
  exact (proj1 (bracket_check_on_examples "Add [Na] to water"
                  "Add [Na] to water" H)).
Defined.

(** X25: the guards [super_before] and [sub_before] of the script check
    say what [validate_latex_notation] says: the superscript verdict holds
    exactly when the text has a superscript and the two lists agree, and
    likewise for subscripts. *)
Theorem script_check_guards (text processed : string) :
  superscripts_preserved text processed
  = bool_decide (is_Some (fst (validate_latex_notation text)))
    && bool_decide (all_matches super_re text
                    = all_matches super_re processed)
  /\ subscripts_preserved text processed
     = bool_decide (is_Some (snd (validate_latex_notation text)))
       && bool_decide (all_matches sub_re text
                       = all_matches sub_re processed).
Proof.
  unfold superscripts_preserved, subscripts_preserved,
    validate_latex_notation. cbn [fst snd].
  split; f_equal.
  - destruct (search super_re (chars text)) as [m|] eqn:Hs.
    + rewrite (bool_decide_eq_true_2 (is_Some _)) by eauto.
      rewrite bool_decide_eq_false_2; [done|].
      rewrite DetectorFacts.all_matches_nil. congruence.
    + rewrite (bool_decide_eq_false_2 (is_Some _)) by (by intros [? ?]).
      rewrite bool_decide_eq_true_2; [done|].
      by apply DetectorFacts.all_matches_nil.
  - destruct (search sub_re (chars text)) as [m|] eqn:Hs.
    + rewrite (bool_decide_eq_true_2 (is_Some _)) by eauto.
      rewrite bool_decide_eq_false_2; [done|].
      rewrite DetectorFacts.all_matches_nil. congruence.
    + rewrite (bool_decide_eq_false_2 (is_Some _)) by (by intros [? ?]).
      rewrite bool_decide_eq_true_2; [done|].
      by apply DetectorFacts.all_matches_nil.
Qed.
